(** * Segmented append-only log (immudb [embedded/appendable/multiapp])

    A shallow embedding of [multi_app.go]: the multi-file appendable that
    presents a directory of fixed-size, numbered segment files as a single
    logical byte stream.  The coordinator ([MultiFileAppendable]) is
    translated from the Go source; its collaborators (the single-file
    appendable, the LRU cache of handles and the metadata envelope) are
    modelled from their contracts. *)

From Stdlib Require Import ZArith Lia Bool Ascii String Strings.Byte.
From stdpp Require Import base option list gmap strings sorting.

Local Open Scope Z_scope.

(** ** Go scalars *)

(** [int] and [int64] are 64-bit two's complement integers: every
    arithmetic result is reduced with [wrap64]. *)
Definition min_int64 : Z := - 2 ^ 63.
Definition max_int64 : Z := 2 ^ 63 - 1.

Definition wrap64 (z : Z) : Z := (z + 2 ^ 63) mod 2 ^ 64 - 2 ^ 63.

Definition in_int64 (z : Z) : Prop := min_int64 <= z <= max_int64.

Definition in_int64b (z : Z) : bool := (min_int64 <=? z) && (z <=? max_int64).

(** ** Errors and outcomes *)

Inductive error : Type :=
  | ErrorPathIsNotADirectory   (* multiapp: path is not a directory *)
  | ErrIllegalArguments        (* multiapp: illegal arguments *)
  | ErrAlreadyClosed           (* multiapp: multi-appendable already closed *)
  | ErrReadOnly                (* multiapp: cannot append in read-only mode *)
  | ErrKeyNotFound             (* cache: key not found *)
  | ErrCacheIllegalArguments   (* cache: illegal arguments *)
  | ErrSingleAlreadyClosed     (* singleapp: single-file appendable already closed *)
  | ErrSingleReadOnly          (* singleapp: read-only handle *)
  | ErrSingleIllegalArguments  (* singleapp: illegal arguments *)
  | ErrNotExist                (* os: file does not exist *)
  | ErrExist                   (* os: file exists *)
  | ErrSyntax                  (* strconv: invalid syntax *)
  | ErrRange                   (* strconv: value out of range *)
  | ErrCorrupted               (* singleapp: undecodable compressed block *)
  | EOF                        (* io.EOF *)
  | ErrIO.                     (* any other failure of the file system *)

Global Instance error_eq_dec : EqDecision error.
Proof. solve_decision. Defined.

(** A Go call either returns (possibly with an [error] among its results)
    or panics (integer division by zero, slice bounds out of range). *)
Inductive outcome (A : Type) : Type :=
  | Ret (a : A)
  | Panic
  | Timeout.   (* a loop of the model ran out of fuel *)
Arguments Ret {A} a.
Arguments Panic {A}.
Arguments Timeout {A}.

(** ** Metadata envelope *)

(** Modelled from the spec: the [appendable.Metadata] facility, "an ordered
    map with typed accessors for integers and raw bytes".  A header blob is
    either the serialisation of such a map or bytes that do not decode to
    any entry. *)
Inductive mvalue : Type :=
  | MInt (z : Z)
  | MBytes (bs : list byte).

Definition entries_t : Type := list (string * mvalue).

Inductive blob : Type :=
  | Opaque (bs : list byte)
  | Envelope (m : entries_t).

(** The nil slice. *)
Definition nil_blob : blob := Opaque [].

Definition metaFileSize : string := "FILE_SIZE".
Definition metaWrappedMeta : string := "WRAPPED_METADATA".

Module Meta.

Definition NewMetadata (b : blob) : entries_t :=
  match b with
  | Envelope m => m
  | Opaque _ => []
  end.

Definition Bytes (m : entries_t) : blob := Envelope m.

Fixpoint lookup (k : string) (m : entries_t) : option mvalue :=
  match m with
  | [] => None
  | (k', v) :: m' => if String.eqb k k' then Some v else lookup k m'
  end.

Fixpoint put (k : string) (v : mvalue) (m : entries_t) : entries_t :=
  match m with
  | [] => [(k, v)]
  | (k', v') :: m' =>
      if String.eqb k k' then (k, v) :: m' else (k', v') :: put k v m'
  end.

Definition PutInt (k : string) (z : Z) (m : entries_t) : entries_t :=
  put k (MInt z) m.

Definition Put (k : string) (bs : list byte) (m : entries_t) : entries_t :=
  put k (MBytes bs) m.

(** [GetInt] yields the integer and whether the entry was decodable; on
    failure the integer is the zero value. *)
Definition GetInt (k : string) (m : entries_t) : Z * bool :=
  match lookup k m with
  | Some (MInt z) => (z, true)
  | _ => (0, false)
  end.

(** [Get] yields the raw bytes and whether the entry was present; on
    failure the slice is nil. *)
Definition Get (k : string) (m : entries_t) : list byte * bool :=
  match lookup k m with
  | Some (MBytes bs) => (bs, true)
  | _ => ([], false)
  end.

End Meta.

(** ** Files, handles and the file system *)

(** A segment file: its header (metadata blob, compression format and
    level) and its payload. *)
Record file : Type := File {
  f_meta : blob;
  f_cf : Z;
  f_cl : Z;
  f_data : list byte;
}.

(** A path names a directory of files or a regular file. *)
Inductive node : Type :=
  | Dir (entries : gmap string file)
  | Reg (f : file).

(** [singleapp.AppendableFile]: an open (or closed) handle on one file.
    Handles live in a heap and are referred to by their index, so that the
    same handle can be held by the tail pointer and by the cache. *)
Record AppendableFile : Type := Handle {
  a_dir : string;
  a_name : string;
  a_readOnly : bool;
  a_synced : bool;
  a_meta : blob;
  a_cf : Z;
  a_cl : Z;
  a_offset : Z;
  a_closed : bool;
}.

Definition set_a_offset (x : Z) (h : AppendableFile) : AppendableFile :=
  Handle (a_dir h) (a_name h) (a_readOnly h) (a_synced h) (a_meta h)
         (a_cf h) (a_cl h) x (a_closed h).

Definition set_a_closed (h : AppendableFile) : AppendableFile :=
  Handle (a_dir h) (a_name h) (a_readOnly h) (a_synced h) (a_meta h)
         (a_cf h) (a_cl h) (a_offset h) true.

(** The environment of a store: the file system, the heap of handles ever
    opened, the pending faults (each file-system call consumes one entry; a
    [true] makes that call fail) and the high-water mark of simultaneously
    open handles. *)
Record world : Type := World {
  fs : gmap string node;
  heap : list AppendableFile;
  faults : list bool;
  peak : nat;
}.

Definition is_open (h : AppendableFile) : bool := negb (a_closed h).

Definition open_count (hp : list AppendableFile) : nat :=
  length (filter (fun h => is_open h = true) hp).

Definition set_fs (m : gmap string node) (w : world) : world :=
  World m (heap w) (faults w) (peak w).

Definition set_heap (hp : list AppendableFile) (w : world) : world :=
  World (fs w) hp (faults w) (Nat.max (peak w) (open_count hp)).

(** Consume one entry of the fault script. *)
Definition fault (w : world) : bool * world :=
  match faults w with
  | [] => (false, w)
  | b :: bs => (b, World (fs w) (heap w) bs (peak w))
  end.

Definition read_file (w : world) (d n : string) : option file :=
  match fs w !! d with
  | Some (Dir es) => es !! n
  | _ => None
  end.

Definition write_file (d n : string) (f : file) (w : world) : world :=
  match fs w !! d with
  | Some (Dir es) => set_fs (<[d := Dir (<[n := f]> es)]> (fs w)) w
  | _ => w
  end.

(** Results of fallible calls. *)
Inductive res (A : Type) : Type :=
  | Ok (a : A)
  | Err (e : error).
Arguments Ok {A} a.
Arguments Err {A} e.

Definition NoCompression : Z := 0.

(** The codec of compressed segments: one call of the handle's [Append]
    writes one block; a block is read back from its first byte. *)
Class BlockCodec : Type := {
  encodeBlock : Z -> Z -> list byte -> list byte;
  decodeBlock : Z -> Z -> list byte -> option (list byte);
}.

(** Overwrite [data] from position [off] with [bs], extending it when the
    write runs past the end. *)
Definition write_at (off : nat) (bs data : list byte) : list byte :=
  take off data ++ bs ++ drop (off + length bs) data.

(** ** The single-file appendable *)

(** Modelled from the spec: the Segment Handle ([singleapp.AppendableFile]),
    whose source is not part of this development.  It owns one file; it
    appends at its write offset and reports the in-file offset of the first
    byte, reads at an in-file offset (signalling [EOF] on a short read),
    moves its write offset without discarding bytes, and refuses every
    operation once closed.  Writes are visible to reads at once. *)
Module singleapp.

Record Options : Type := MkOptions {
  readOnly : bool;
  synced : bool;
  fileMode : Z;
  compressionFormat : Z;
  compressionLevel : Z;
  metadata : blob;
}.

Section Ops.
Context `{BlockCodec}.

Definition Open (d n : string) (o : Options) (w : world) : res nat * world :=
  let (b, w) := fault w in
  if b then (Err ErrIO, w) else
  match fs w !! d with
  | Some (Dir es) =>
      match es !! n with
      | Some f =>
          let a := Handle d n (readOnly o) (synced o) (f_meta f) (f_cf f)
                          (f_cl f) (Z.of_nat (length (f_data f))) false in
          (Ok (length (heap w)), set_heap (heap w ++ [a]) w)
      | None =>
          if readOnly o then (Err ErrNotExist, w) else
          let f := File (metadata o) (compressionFormat o)
                        (compressionLevel o) [] in
          let a := Handle d n false (synced o) (metadata o)
                          (compressionFormat o) (compressionLevel o) 0 false in
          let w := write_file d n f w in
          (Ok (length (heap w)), set_heap (heap w ++ [a]) w)
      end
  | _ => (Err ErrNotExist, w)
  end.

Definition Metadata (h : nat) (w : world) : blob :=
  match heap w !! h with Some a => a_meta a | None => nil_blob end.

Definition CompressionFormat (h : nat) (w : world) : Z :=
  match heap w !! h with Some a => a_cf a | None => 0 end.

Definition CompressionLevel (h : nat) (w : world) : Z :=
  match heap w !! h with Some a => a_cl a | None => 0 end.

Definition Offset (h : nat) (w : world) : Z :=
  match heap w !! h with Some a => a_offset a | None => 0 end.

Definition Size (h : nat) (w : world) : res Z * world :=
  let (b, w) := fault w in
  if b then (Err ErrIO, w) else
  match heap w !! h with
  | None => (Err ErrIO, w)
  | Some a =>
      if a_closed a then (Err ErrSingleAlreadyClosed, w) else
      match read_file w (a_dir a) (a_name a) with
      | None => (Err ErrIO, w)
      | Some f => (Ok (Z.of_nat (length (f_data f))), w)
      end
  end.

(** [Append] returns the in-file offset of the first byte and the number
    of bytes accepted. *)
Definition Append (h : nat) (bs : list byte) (w : world)
  : res (Z * Z) * world :=
  let (b, w) := fault w in
  if b then (Err ErrIO, w) else
  match heap w !! h with
  | None => (Err ErrIO, w)
  | Some a =>
      if a_closed a then (Err ErrSingleAlreadyClosed, w) else
      if a_readOnly a then (Err ErrSingleReadOnly, w) else
      match bs with
      | [] => (Err ErrSingleIllegalArguments, w)
      | _ =>
          match read_file w (a_dir a) (a_name a) with
          | None => (Err ErrIO, w)
          | Some f =>
              let blk := if a_cf a =? NoCompression then bs
                         else encodeBlock (a_cf a) (a_cl a) bs in
              let off := a_offset a in
              let f' := File (f_meta f) (f_cf f) (f_cl f)
                             (write_at (Z.to_nat off) blk (f_data f)) in
              let w := write_file (a_dir a) (a_name a) f' w in
              let a' := set_a_offset (off + Z.of_nat (length blk)) a in
              (Ok (off, Z.of_nat (length bs)),
               set_heap (<[h := a']> (heap w)) w)
          end
      end
  end.

(** [ReadAt h n off] reads into a buffer of [n] bytes: it yields the bytes
    read and [EOF] when they are fewer than [n]. *)
Definition ReadAt (h : nat) (n : nat) (off : Z) (w : world)
  : (list byte * option error) * world :=
  let (b, w) := fault w in
  if b then (([], Some ErrIO), w) else
  match heap w !! h with
  | None => (([], Some ErrIO), w)
  | Some a =>
      if a_closed a then (([], Some ErrSingleAlreadyClosed), w) else
      if off <? 0 then (([], Some ErrSingleIllegalArguments), w) else
      match read_file w (a_dir a) (a_name a) with
      | None => (([], Some ErrIO), w)
      | Some f =>
          let rest := drop (Z.to_nat off) (f_data f) in
          let src := if a_cf a =? NoCompression then Some rest
                     else decodeBlock (a_cf a) (a_cl a) rest in
          match src with
          | None => (([], Some ErrCorrupted), w)
          | Some src =>
              let out := take n src in
              ((out, if (length out <? n)%nat then Some EOF else None), w)
          end
      end
  end.

Definition SetOffset (h : nat) (x : Z) (w : world) : option error * world :=
  let (b, w) := fault w in
  if b then (Some ErrIO, w) else
  match heap w !! h with
  | None => (Some ErrIO, w)
  | Some a =>
      if a_closed a then (Some ErrSingleAlreadyClosed, w) else
      match read_file w (a_dir a) (a_name a) with
      | None => (Some ErrIO, w)
      | Some f =>
          if (x <? 0) || (Z.of_nat (length (f_data f)) <? x)
          then (Some ErrSingleIllegalArguments, w)
          else (None, set_heap (<[h := set_a_offset x a]> (heap w)) w)
      end
  end.

Definition Flush (h : nat) (w : world) : option error * world :=
  let (b, w) := fault w in
  if b then (Some ErrIO, w) else
  match heap w !! h with
  | None => (Some ErrIO, w)
  | Some a =>
      if a_closed a then (Some ErrSingleAlreadyClosed, w) else (None, w)
  end.

Definition Sync (h : nat) (w : world) : option error * world :=
  let (b, w) := fault w in
  if b then (Some ErrIO, w) else
  match heap w !! h with
  | None => (Some ErrIO, w)
  | Some a =>
      if a_closed a then (Some ErrSingleAlreadyClosed, w) else (None, w)
  end.

Definition Close (h : nat) (w : world) : option error * world :=
  let (b, w) := fault w in
  if b then (Some ErrIO, w) else
  match heap w !! h with
  | None => (Some ErrIO, w)
  | Some a =>
      if a_closed a then (Some ErrSingleAlreadyClosed, w)
      else (None, set_heap (<[h := set_a_closed a]> (heap w)) w)
  end.

End Ops.
End singleapp.

(** ** The bounded handle cache *)

(** Modelled from the spec: the Bounded Handle Cache ([cache.LRUCache]),
    whose source is not part of this development.  A capacity-bounded map
    from segment id to handle, kept in recency order (least recently used
    first).  [Get] marks the entry most recently used; [Put] inserts or
    updates and, when the capacity would be exceeded, evicts the least
    recently used entry and returns it; [Apply] visits every entry once and
    stops at the first failure. *)
Module cache.

Record LRUCache : Type := MkLRU {
  size : nat;
  entries : list (Z * nat);
}.

Definition NewLRUCache (n : Z) : res LRUCache :=
  if n <=? 0 then Err ErrCacheIllegalArguments
  else Ok (MkLRU (Z.to_nat n) []).

Fixpoint find (k : Z) (es : list (Z * nat)) : option nat :=
  match es with
  | [] => None
  | (k', v) :: es' => if k =? k' then Some v else find k es'
  end.

Fixpoint remove (k : Z) (es : list (Z * nat)) : list (Z * nat) :=
  match es with
  | [] => []
  | (k', v) :: es' => if k =? k' then remove k es' else (k', v) :: remove k es'
  end.

Definition Get (k : Z) (c : LRUCache) : res nat * LRUCache :=
  match find k (entries c) with
  | Some v => (Ok v, MkLRU (size c) (remove k (entries c) ++ [(k, v)]))
  | None => (Err ErrKeyNotFound, c)
  end.

(** [Put] returns the evicted entry, if any, and an error (none arises for
    the keys and values of this program, which are never nil). *)
Definition Put (k : Z) (v : nat) (c : LRUCache)
  : (option (Z * nat) * option error) * LRUCache :=
  match find k (entries c) with
  | Some _ =>
      ((None, None), MkLRU (size c) (remove k (entries c) ++ [(k, v)]))
  | None =>
      if (length (entries c) <? size c)%nat
      then ((None, None), MkLRU (size c) (entries c ++ [(k, v)]))
      else match entries c with
           | [] => ((None, None), MkLRU (size c) [(k, v)])
           | e :: es => ((Some e, None), MkLRU (size c) (es ++ [(k, v)]))
           end
  end.

Fixpoint apply_entries (fn : Z -> nat -> world -> option error * world)
    (es : list (Z * nat)) (w : world) : option error * world :=
  match es with
  | [] => (None, w)
  | (k, v) :: es' =>
      match fn k v w with
      | (Some e, w') => (Some e, w')
      | (None, w') => apply_entries fn es' w'
      end
  end.

Definition Apply (fn : Z -> nat -> world -> option error * world)
    (c : LRUCache) (w : world) : option error * world :=
  apply_entries fn (entries c) w.

End cache.

(** ** Strings: segment names and their parsing *)

Definition zero_char : ascii := "0"%char.

Definition digit_char (d : Z) : ascii :=
  ascii_of_nat (nat_of_ascii zero_char + Z.to_nat d).

(** The decimal digits of a non-negative number, least significant first. *)
Fixpoint digits_le (fuel : nat) (n : Z) : list Z :=
  match fuel with
  | O => []
  | S fuel' =>
      if n <? 10 then [n] else (n mod 10) :: digits_le fuel' (n / 10)
  end.

Definition string_of_chars (cs : list ascii) : string :=
  string_of_list_ascii cs.

Definition chars_of_string (s : string) : list ascii :=
  list_ascii_of_string s.

(** [fmt.Sprintf("%d", n)] for [0 <= n]. *)
Definition decimal (n : Z) : list ascii :=
  map digit_char (rev (digits_le 20 n)).

(** Left padding with zeros up to [width] characters. *)
Definition pad_zeros (width : nat) (cs : list ascii) : list ascii :=
  repeat zero_char (width - length cs) ++ cs.

(** [fmt.Sprintf("%08d", z)]: the sign counts in the width. *)
Definition sprintf_08d (z : Z) : list ascii :=
  if z <? 0 then "-"%char :: pad_zeros 7 (decimal (- z))
  else pad_zeros 8 (decimal z).

(** [appendableName]: [fmt.Sprintf("%08d.%s", appID, ext)]. *)
Definition appendableName (appID : Z) (ext : string) : string :=
  string_of_chars (sprintf_08d appID ++ "."%char :: chars_of_string ext).

(** [filepath.Ext] followed by [strings.TrimSuffix]: the name without the
    suffix that starts at the last dot of its last path element.  The scan
    runs from the end of the name. *)
Fixpoint trim_ext_rev (r : list ascii) : option (list ascii) :=
  match r with
  | [] => None
  | c :: r' =>
      if Ascii.eqb c "."%char then Some r'
      else if Ascii.eqb c "/"%char then None
      else trim_ext_rev r'
  end.

Definition stem (filename : string) : string :=
  match trim_ext_rev (rev (chars_of_string filename)) with
  | Some r' => string_of_chars (rev r')
  | None => filename
  end.

(** [strconv.ParseUint(s, 10, 64)] on the digits, character by character. *)
Definition digit_value (c : ascii) : option Z :=
  let n := Z.of_nat (nat_of_ascii c) in
  if (48 <=? n) && (n <=? 57) then Some (n - 48) else None.

Definition max_uint64 : Z := 2 ^ 64 - 1.

Fixpoint parse_uint (cs : list ascii) (acc : Z) : res Z :=
  match cs with
  | [] => Ok acc
  | c :: cs' =>
      match digit_value c with
      | None => Err ErrSyntax
      | Some d =>
          if max_uint64 / 10 + 1 <=? acc then Err ErrRange
          else if max_uint64 <? acc * 10 + d then Err ErrRange
          else parse_uint cs' (acc * 10 + d)
      end
  end.

(** [strconv.ParseInt(s, 10, 64)]. *)
Definition ParseInt (s : string) : res Z :=
  match chars_of_string s with
  | [] => Err ErrSyntax
  | c :: cs' =>
      let neg := Ascii.eqb c "-"%char in
      let body := if neg || Ascii.eqb c "+"%char then cs' else c :: cs' in
      match body with
      | [] => Err ErrSyntax
      | _ =>
          match parse_uint body 0 with
          | Err e => Err e
          | Ok un =>
              if negb neg && (2 ^ 63 <=? un) then Err ErrRange
              else if neg && (2 ^ 63 <? un) then Err ErrRange
              else Ok (if neg then - un else un)
          end
      end
  end.

(** ** Operating-system calls *)

Module os.

(** [os.Stat]. *)
Definition Stat (p : string) (w : world) : res node * world :=
  let (b, w) := fault w in
  if b then (Err ErrIO, w) else
  match fs w !! p with
  | Some nd => (Ok nd, w)
  | None => (Err ErrNotExist, w)
  end.

Definition IsNotExist (e : error) : bool :=
  if decide (e = ErrNotExist) then true else false.

(** [os.Mkdir]. *)
Definition Mkdir (p : string) (w : world) : option error * world :=
  let (b, w) := fault w in
  if b then (Some ErrIO, w) else
  match fs w !! p with
  | Some _ => (Some ErrExist, w)
  | None => (None, set_fs (<[p := Dir ∅]> (fs w)) w)
  end.

(** [os.MkdirAll]: an existing directory is left alone. *)
Definition MkdirAll (p : string) (w : world) : option error * world :=
  let (b, w) := fault w in
  if b then (Some ErrIO, w) else
  match fs w !! p with
  | Some (Dir _) => (None, w)
  | Some (Reg _) => (Some ErrExist, w)
  | None => (None, set_fs (<[p := Dir ∅]> (fs w)) w)
  end.

Definition name_le (s1 s2 : string) : Prop := String.leb s1 s2 = true.

Global Instance name_le_dec : RelDecision name_le.
Proof. intros s1 s2. unfold name_le. solve_decision. Defined.

(** [ioutil.ReadDir]: the names of the entries, sorted by name. *)
Definition ReadDir (p : string) (w : world) : res (list string) * world :=
  let (b, w) := fault w in
  if b then (Err ErrIO, w) else
  match fs w !! p with
  | Some (Dir es) => (Ok (merge_sort name_le (map fst (map_to_list es))), w)
  | Some (Reg _) => (Err ErrIO, w)
  | None => (Err ErrNotExist, w)
  end.

End os.

(** ** The multi-file appendable *)

Module multiapp.

Record Options : Type := MkOptions {
  readOnly : bool;
  synced : bool;
  fileMode : Z;
  compressionFormat : Z;
  compressionLevel : Z;
  metadata : list byte;
  fileExt : string;
  fileSize : Z;
  maxOpenedFiles : Z;
}.

End multiapp.

Record MultiFileAppendable : Type := Store {
  appendables : cache.LRUCache;
  currAppID : Z;
  currApp : nat;
  path : string;
  readOnly : bool;
  synced : bool;
  fileMode : Z;
  fileSize : Z;
  fileExt : string;
  closed : bool;
}.

Definition set_appendables (c : cache.LRUCache) (mf : MultiFileAppendable)
  : MultiFileAppendable :=
  Store c (currAppID mf) (currApp mf) (path mf) (readOnly mf) (synced mf)
        (fileMode mf) (fileSize mf) (fileExt mf) (closed mf).

Definition set_currAppID (i : Z) (mf : MultiFileAppendable)
  : MultiFileAppendable :=
  Store (appendables mf) i (currApp mf) (path mf) (readOnly mf) (synced mf)
        (fileMode mf) (fileSize mf) (fileExt mf) (closed mf).

Definition set_currApp (h : nat) (mf : MultiFileAppendable)
  : MultiFileAppendable :=
  Store (appendables mf) (currAppID mf) h (path mf) (readOnly mf) (synced mf)
        (fileMode mf) (fileSize mf) (fileExt mf) (closed mf).

Definition set_closed (mf : MultiFileAppendable) : MultiFileAppendable :=
  Store (appendables mf) (currAppID mf) (currApp mf) (path mf) (readOnly mf)
        (synced mf) (fileMode mf) (fileSize mf) (fileExt mf) true.

(** Modelled from the spec: [validOptions], declared in a file that is not
    part of this development: "Validates options (S > 0, C > 0, valid
    compression enum, sensible file mode)".  The compression formats are
    numbered from [NoCompression] = 0 to 4; no constraint on the file mode
    is modelled. *)
Definition validOptions (opts : multiapp.Options) : bool :=
  (0 <? multiapp.fileSize opts) && (0 <? multiapp.maxOpenedFiles opts)
  && (0 <=? multiapp.compressionFormat opts)
  && (multiapp.compressionFormat opts <=? 4).

(** [appendableID]: Go's integer division truncates toward zero and panics
    on a zero divisor. *)
Definition appendableID (off : Z) (fileSize : Z) : option Z :=
  if fileSize =? 0 then None else Some (wrap64 (Z.quot off fileSize)).

(** Go's [%] on [int64]; [None] is the panic on a zero divisor. *)
Definition go_rem (a b : Z) : option Z :=
  if b =? 0 then None else Some (Z.rem a b).

Definition minInt (a b : Z) : Z := if a <=? b then a else b.

Section MultiApp.
Context `{BlockCodec}.

(** The options of the tail handle: the envelope carries [FILE_SIZE] and
    [WRAPPED_METADATA]. *)
Definition tail_options (opts : multiapp.Options) : singleapp.Options :=
  singleapp.MkOptions (multiapp.readOnly opts) (multiapp.synced opts)
    (multiapp.fileMode opts) (multiapp.compressionFormat opts)
    (multiapp.compressionLevel opts)
    (Meta.Bytes
       (Meta.Put metaWrappedMeta (multiapp.metadata opts)
          (Meta.PutInt metaFileSize (multiapp.fileSize opts)
             (Meta.NewMetadata nil_blob)))).
#[global] Arguments tail_options : simpl never.

(** The first step of [Open]: [os.Stat] on the path, and [os.Mkdir] when
    it is absent and the store is writable. *)
Definition stat_or_mkdir (path : string) (opts : multiapp.Options)
    (w : world) : option error * world :=
  let '(finfo, w) := os.Stat path w in
  match finfo with
  | Err err =>
      if negb (os.IsNotExist err) || multiapp.readOnly opts
      then (Some err, w)
      else os.Mkdir path w
  | Ok (Reg _) => (Some ErrorPathIsNotADirectory, w)
  | Ok (Dir _) => (None, w)
  end.

(** [Open]. *)
Definition Open (path : string) (opts : multiapp.Options) (w : world)
  : outcome (res MultiFileAppendable) * world :=
  if negb (validOptions opts) then (Ret (Err ErrIllegalArguments), w) else
  let '(err, w) := stat_or_mkdir path opts w in
  match err with
  | Some e => (Ret (Err e), w)
  | None =>
  let '(fis, w) := os.ReadDir path w in
  match fis with
  | Err e => (Ret (Err e), w)
  | Ok fis =>
  let appendableOpts := tail_options opts in
  let chosen : outcome (res (Z * string)) :=
    match last fis with
    | Some filename =>
        match ParseInt (stem filename) with
        | Err e => Ret (Err e)
        | Ok id => Ret (Ok (id, filename))
        end
    | None =>
        match appendableID 0 (multiapp.fileSize opts) with
        | None => Panic
        | Some id => Ret (Ok (0, appendableName id (multiapp.fileExt opts)))
        end
    end in
  match chosen with
  | Panic => (Panic, w)
  | Timeout => (Timeout, w)
  | Ret (Err e) => (Ret (Err e), w)
  | Ret (Ok (currAppID, filename)) =>
  let '(currApp, w) := singleapp.Open path filename appendableOpts w in
  match currApp with
  | Err e => (Ret (Err e), w)
  | Ok currApp =>
  match cache.NewLRUCache (multiapp.maxOpenedFiles opts) with
  | Err e => (Ret (Err e), w)
  | Ok cache =>
  let '(fileSize, _) :=
    Meta.GetInt metaFileSize
      (Meta.NewMetadata (singleapp.Metadata currApp w)) in
  (Ret (Ok (Store cache currAppID currApp path (multiapp.readOnly opts)
                  (multiapp.synced opts) (multiapp.fileMode opts) fileSize
                  (multiapp.fileExt opts) false)), w)
  end end end end end.

(** [openAppendable]: the new handle inherits the tail's compression
    settings and header. *)
Definition openAppendable (mf : MultiFileAppendable) (appname : string)
    (w : world) : res nat * world :=
  let appendableOpts :=
    singleapp.MkOptions (readOnly mf) (synced mf) (fileMode mf)
      (singleapp.CompressionFormat (currApp mf) w)
      (singleapp.CompressionLevel (currApp mf) w)
      (singleapp.Metadata (currApp mf) w) in
  singleapp.Open (path mf) appname appendableOpts w.

(** [Size]. *)
Definition Size (mf : MultiFileAppendable) (w : world) : res Z * world :=
  if closed mf then (Err ErrAlreadyClosed, w) else
  let '(currSize, w) := singleapp.Size (currApp mf) w in
  match currSize with
  | Err e => (Err e, w)
  | Ok currSize =>
      (Ok (wrap64 (wrap64 (currAppID mf * fileSize mf) + currSize)), w)
  end.

(** [Offset]. *)
Definition Offset (mf : MultiFileAppendable) (w : world) : Z :=
  wrap64 (wrap64 (currAppID mf * fileSize mf)
          + singleapp.Offset (currApp mf) w).

(** [CompressionFormat], [CompressionLevel] and [Metadata] have no error
    result and do not look at [closed]. *)
Definition CompressionFormat (mf : MultiFileAppendable) (w : world) : Z :=
  singleapp.CompressionFormat (currApp mf) w.

Definition CompressionLevel (mf : MultiFileAppendable) (w : world) : Z :=
  singleapp.CompressionLevel (currApp mf) w.

Definition Metadata (mf : MultiFileAppendable) (w : world) : list byte :=
  fst (Meta.Get metaWrappedMeta
         (Meta.NewMetadata (singleapp.Metadata (currApp mf) w))).

(** Closing the handle that [Put] ejected, if any. *)
Definition close_ejected (ejected : option (Z * nat)) (w : world)
  : option error * world :=
  match ejected with
  | Some (_, ejectedApp) => singleapp.Close ejectedApp w
  | None => (None, w)
  end.

(** The rollover of [Append] ([available <= 0]): the tail goes into the
    cache, the ejected handle is closed, [currAppID] is incremented and the
    next segment is opened and rewound.  On error the store is returned as
    the source leaves it. *)
Definition rollover (mf : MultiFileAppendable) (w : world)
  : option error * MultiFileAppendable * world :=
  let '((ejectedApp, err), c) :=
    cache.Put (currAppID mf) (currApp mf) (appendables mf) in
  let mf := set_appendables c mf in
  match err with
  | Some e => (Some e, mf, w)
  | None =>
  let '(err, w) := close_ejected ejectedApp w in
  match err with
  | Some e => (Some e, mf, w)
  | None =>
  let mf := set_currAppID (wrap64 (currAppID mf + 1)) mf in
  let '(currApp, w) :=
    openAppendable mf (appendableName (currAppID mf) (fileExt mf)) w in
  match currApp with
  | Err e => (Some e, mf, w)
  | Ok currApp =>
      let '(_, w) := singleapp.SetOffset currApp 0 w in
      (None, set_currApp currApp mf, w)
  end end end.

(** The first half of an iteration of [Append]: the room left in the tail,
    after a rollover when there is none. *)
Definition make_room (mf : MultiFileAppendable) (w : world)
  : option error * Z * MultiFileAppendable * world :=
  let available :=
    wrap64 (fileSize mf - singleapp.Offset (currApp mf) w) in
  if available <=? 0 then
    let '(err, mf, w) := rollover mf w in (err, fileSize mf, mf, w)
  else (None, available, mf, w).

(** The second half: the size [d] of the next chunk and the call
    [mf.currApp.Append(bs[n : n+d])]; the slice expression panics when its
    bounds are out of range.  The result is the in-file offset of the chunk
    and [d]. *)
Definition write_chunk (bs : list byte) (n available : Z)
    (mf : MultiFileAppendable) (w : world)
  : outcome (res (Z * Z)) * world :=
  let len := Z.of_nat (length bs) in
  let d :=
    if singleapp.CompressionFormat (currApp mf) w =? NoCompression
    then minInt available (wrap64 (len - n))
    else wrap64 (len - n) in
  if (wrap64 (n + d) <? n) || (len <? wrap64 (n + d)) then (Panic, w) else
  let chunk := take (Z.to_nat d) (drop (Z.to_nat n) bs) in
  let '(r, w) := singleapp.Append (currApp mf) chunk w in
  match r with
  | Err e => (Ret (Err e), w)
  | Ok (offn, _) => (Ret (Ok (offn, d)), w)
  end.

(** The loop of [Append], [for n < len(bs)], with the named results [off]
    and [n] as accumulators. *)
Fixpoint append_loop (fuel : nat) (bs : list byte) (off n : Z)
    (mf : MultiFileAppendable) (w : world)
  : outcome (Z * Z * option error) * MultiFileAppendable * world :=
  if negb (n <? Z.of_nat (length bs)) then (Ret (off, n, None), mf, w) else
  match fuel with
  | O => (Timeout, mf, w)
  | S fuel' =>
  let '(err, available, mf, w) := make_room mf w in
  match err with
  | Some e => (Ret (off, n, Some e), mf, w)
  | None =>
  let '(r, w) := write_chunk bs n available mf w in
  match r with
  | Panic => (Panic, mf, w)
  | Timeout => (Timeout, mf, w)
  | Ret (Err e) => (Ret (off, n, Some e), mf, w)
  | Ret (Ok (offn, d)) =>
      let off :=
        if n =? 0 then wrap64 (offn + wrap64 (currAppID mf * fileSize mf))
        else off in
      append_loop fuel' bs off (wrap64 (n + d)) mf w
  end end end.

(** [Append]. *)
Definition Append (bs : list byte) (mf : MultiFileAppendable) (w : world)
  : outcome (Z * Z * option error) * MultiFileAppendable * world :=
  if closed mf then (Ret (0, 0, Some ErrAlreadyClosed), mf, w) else
  if readOnly mf then (Ret (0, 0, Some ErrReadOnly), mf, w) else
  match bs with
  | [] => (Ret (0, 0, Some ErrIllegalArguments), mf, w)
  | _ => append_loop (S (length bs)) bs 0 0 mf w
  end.

(** [SetOffset]. *)
Definition SetOffset (off : Z) (mf : MultiFileAppendable) (w : world)
  : outcome (option error) * MultiFileAppendable * world :=
  if closed mf then (Ret (Some ErrAlreadyClosed), mf, w) else
  match appendableID off (fileSize mf) with
  | None => (Panic, mf, w)
  | Some appID =>
  let '(err, mf, w) :=
    if negb (currAppID mf =? appID) then
      let '(app, w) :=
        openAppendable mf (appendableName appID (fileExt mf)) w in
      match app with
      | Err e => (Some e, mf, w)
      | Ok app =>
          let '((ejectedApp, err), c) :=
            cache.Put appID app (appendables mf) in
          let mf := set_appendables c mf in
          match err with
          | Some e => (Some e, mf, w)
          | None =>
              let '(err, w) := close_ejected ejectedApp w in
              match err with
              | Some e => (Some e, mf, w)
              | None => (None, set_currApp app (set_currAppID appID mf), w)
              end
          end
      end
    else (None, mf, w) in
  match err with
  | Some e => (Ret (Some e), mf, w)
  | None =>
      match go_rem off (fileSize mf) with
      | None => (Panic, mf, w)
      | Some x =>
          let '(err, w) := singleapp.SetOffset (currApp mf) x w in
          (Ret err, mf, w)
      end
  end end.

(** [appendableFor]: the handle is always sought in the cache, and opened
    and cached on a miss; the tail pointer is not consulted. *)
Definition appendableFor (off : Z) (mf : MultiFileAppendable) (w : world)
  : outcome (res nat) * MultiFileAppendable * world :=
  if closed mf then (Ret (Err ErrAlreadyClosed), mf, w) else
  match appendableID off (fileSize mf) with
  | None => (Panic, mf, w)
  | Some appID =>
  let '(app, c) := cache.Get appID (appendables mf) in
  let mf := set_appendables c mf in
  match app with
  | Ok app => (Ret (Ok app), mf, w)
  | Err err =>
      if negb (if decide (err = ErrKeyNotFound) then true else false)
      then (Ret (Err err), mf, w) else
      let '(app, w) :=
        openAppendable mf (appendableName appID (fileExt mf)) w in
      match app with
      | Err e => (Ret (Err e), mf, w)
      | Ok app =>
          let '((ejectedApp, err), c) :=
            cache.Put appID app (appendables mf) in
          let mf := set_appendables c mf in
          match err with
          | Some e => (Ret (Err e), mf, w)
          | None =>
              let '(err, w) := close_ejected ejectedApp w in
              match err with
              | Some e => (Ret (Err e), mf, w)
              | None => (Ret (Ok app), mf, w)
              end
          end
      end
  end end.

(** The loop of [ReadAt], [for r < len(bs)]: [n] is the length of the
    caller's buffer and [acc] the bytes stored into it so far, so that
    [r = length acc]. *)
Fixpoint read_loop (fuel : nat) (n : nat) (off : Z) (acc : list byte)
    (mf : MultiFileAppendable) (w : world)
  : outcome (list byte * option error) * MultiFileAppendable * world :=
  let r := length acc in
  if negb (r <? n)%nat then (Ret (acc, None), mf, w) else
  match fuel with
  | O => (Timeout, mf, w)
  | S fuel' =>
  let offr := wrap64 (off + Z.of_nat r) in
  let '(app, mf, w) := appendableFor offr mf w in
  match app with
  | Panic => (Panic, mf, w)
  | Timeout => (Timeout, mf, w)
  | Ret (Err e) => (Ret (acc, Some e), mf, w)
  | Ret (Ok app) =>
  match go_rem offr (fileSize mf) with
  | None => (Panic, mf, w)
  | Some x =>
  let '((out, err), w) := singleapp.ReadAt app (n - r) x w in
  let acc := acc ++ out in
  match err with
  | Some e =>
      if (if decide (e = EOF) then true else false) && (0 <? length out)%nat
      then read_loop fuel' n off acc mf w
      else (Ret (acc, Some e), mf, w)
  | None => read_loop fuel' n off acc mf w
  end end end end.

(** [ReadAt] on a buffer of [n] bytes: the bytes read (their number is the
    result [r]) and the error. *)
Definition ReadAt (n : nat) (off : Z) (mf : MultiFileAppendable) (w : world)
  : outcome (list byte * option error) * MultiFileAppendable * world :=
  match n with
  | O => (Ret ([], Some ErrIllegalArguments), mf, w)
  | _ => read_loop (S n) n off [] mf w
  end.

(** [flush], [sync]: over the cached handles, then the tail. *)
Definition flush (mf : MultiFileAppendable) (w : world)
  : option error * world :=
  if closed mf then (Some ErrAlreadyClosed, w) else
  let '(err, w) :=
    cache.Apply (fun _ v => singleapp.Flush v) (appendables mf) w in
  match err with
  | Some e => (Some e, w)
  | None => singleapp.Flush (currApp mf) w
  end.

Definition sync (mf : MultiFileAppendable) (w : world)
  : option error * world :=
  if closed mf then (Some ErrAlreadyClosed, w) else
  let '(err, w) :=
    cache.Apply (fun _ v => singleapp.Sync v) (appendables mf) w in
  match err with
  | Some e => (Some e, w)
  | None => singleapp.Sync (currApp mf) w
  end.

Definition Flush := flush.
Definition Sync := sync.

(** [Close]: [closed] is set before any handle is closed. *)
Definition Close (mf : MultiFileAppendable) (w : world)
  : option error * MultiFileAppendable * world :=
  if closed mf then (Some ErrAlreadyClosed, mf, w) else
  let mf := set_closed mf in
  let '(err, w) :=
    cache.Apply (fun _ v => singleapp.Close v) (appendables mf) w in
  match err with
  | Some e => (Some e, mf, w)
  | None =>
      let '(err, w) := singleapp.Close (currApp mf) w in (err, mf, w)
  end.

(** [copyFile]: [os.Create] truncates the destination, then the source is
    opened and copied. *)
Definition copyFile (srcDir dstDir name : string) (w : world)
  : option error * world :=
  let (b, w) := fault w in
  if b then (Some ErrIO, w) else
  match fs w !! dstDir with
  | Some (Dir _) =>
      let w := write_file dstDir name (File nil_blob 0 0 []) w in
      let (b, w) := fault w in
      if b then (Some ErrIO, w) else
      match read_file w srcDir name with
      | None => (Some ErrNotExist, w)
      | Some f =>
          let (b, w) := fault w in
          if b then (Some ErrIO, w)
          else (None, write_file dstDir name f w)
      end
  | _ => (Some ErrNotExist, w)
  end.

Fixpoint copy_files (srcDir dstDir : string) (fis : list string) (w : world)
  : option error * world :=
  match fis with
  | [] => (None, w)
  | fd :: fis' =>
      match copyFile srcDir dstDir fd w with
      | (Some e, w) => (Some e, w)
      | (None, w) => copy_files srcDir dstDir fis' w
      end
  end.

(** [Copy]. *)
Definition Copy (dstPath : string) (mf : MultiFileAppendable) (w : world)
  : option error * world :=
  if closed mf then (Some ErrAlreadyClosed, w) else
  let '(err, w) := flush mf w in
  match err with Some e => (Some e, w) | None =>
  let '(err, w) := sync mf w in
  match err with Some e => (Some e, w) | None =>
  let '(err, w) := os.MkdirAll dstPath w in
  match err with Some e => (Some e, w) | None =>
  let '(fis, w) := os.ReadDir (path mf) w in
  match fis with
  | Err e => (Some e, w)
  | Ok fis => copy_files (path mf) dstPath fis w
  end end end end.

End MultiApp.

(** ** Call sequences *)

(** The calls a client issues on an open store.  [OpFaults] is the
    environment's move: it installs the fault script of the calls that
    follow. *)
Inductive op : Type :=
  | OpAppend (bs : list byte)
  | OpReadAt (n : nat) (off : Z)
  | OpSetOffset (off : Z)
  | OpFlush
  | OpSync
  | OpClose
  | OpFaults (script : list bool).

Definition set_faults (script : list bool) (w : world) : world :=
  World (fs w) (heap w) script (peak w).

Section Runs.
Context `{BlockCodec}.

(** One call; its results are dropped, the store and the world are kept.
    [None] when the call panics. *)
Definition step (o : op) (s : MultiFileAppendable * world)
  : option (MultiFileAppendable * world) :=
  let '(mf, w) := s in
  match o with
  | OpAppend bs =>
      match Append bs mf w with
      | (Ret _, mf, w) => Some (mf, w)
      | _ => None
      end
  | OpReadAt n off =>
      match ReadAt n off mf w with
      | (Ret _, mf, w) => Some (mf, w)
      | _ => None
      end
  | OpSetOffset off =>
      match SetOffset off mf w with
      | (Ret _, mf, w) => Some (mf, w)
      | _ => None
      end
  | OpFlush => Some (mf, snd (Flush mf w))
  | OpSync => Some (mf, snd (Sync mf w))
  | OpClose => let '(_, mf, w) := Close mf w in Some (mf, w)
  | OpFaults script => Some (mf, set_faults script w)
  end.

Fixpoint run (ops : list op) (s : MultiFileAppendable * world)
  : option (MultiFileAppendable * world) :=
  match ops with
  | [] => Some s
  | o :: ops' =>
      match step o s with
      | Some s' => run ops' s'
      | None => None
      end
  end.

(** [Open] followed by a sequence of calls. *)
Definition open_run (path : string) (opts : multiapp.Options) (w : world)
    (ops : list op) : option (MultiFileAppendable * world) :=
  match Open path opts w with
  | (Ret (Ok mf), w) => run ops (mf, w)
  | _ => None
  end.

End Runs.

(** The keys and the handles held by the cache. *)
Definition cache_keys (mf : MultiFileAppendable) : list Z :=
  map fst (cache.entries (appendables mf)).

Definition cache_handles (mf : MultiFileAppendable) : list nat :=
  map snd (cache.entries (appendables mf)).

(** A codec for running examples: a block is its payload behind one length
    byte. *)
Definition stored_encode (cf cl : Z) (bs : list byte) : list byte :=
  match Byte.of_nat (length bs) with
  | Some b => b :: bs
  | None => Byte.xff :: bs
  end.

Definition stored_decode (cf cl : Z) (data : list byte)
  : option (list byte) :=
  match data with
  | [] => None
  | b :: rest =>
      if (Byte.to_nat b <=? length rest)%nat
      then Some (take (Byte.to_nat b) rest) else None
  end.

Definition stored_codec : BlockCodec :=
  {| encodeBlock := stored_encode; decodeBlock := stored_decode |}.

(** Example inputs. *)
Definition bytes_of (s : string) : list byte := list_byte_of_string s.

Definition empty_world : world := World ∅ [] [] 0.

Definition example_options (S C : Z) : multiapp.Options :=
  multiapp.MkOptions false false 493 NoCompression 0 (bytes_of "meta")
                     "aof" S C.

(** * Properties *)

Section Theory.
Context `{BlockCodec}.

(** *** Handles keep their static attributes *)

(** What a handle is and answers, apart from being open or closed. *)
Definition answers (a : AppendableFile)
  : string * string * bool * blob * Z * Z * Z :=
  (a_dir a, a_name a, a_readOnly a, a_meta a, a_cf a, a_cl a, a_offset a).

Definition same_answers (w w' : world) : Prop :=
  forall i : nat, answers <$> (heap w' !! i) = answers <$> (heap w !! i).

Lemma same_answers_refl w : same_answers w w.
Proof. intros i. reflexivity. Qed.

Lemma same_answers_trans w1 w2 w3 :
  same_answers w1 w2 -> same_answers w2 w3 -> same_answers w1 w3.
Proof. intros H12 H23 i. rewrite H23. apply H12. Qed.

Lemma fault_heap w : heap (snd (fault w)) = heap w.
Proof. unfold fault. destruct (faults w); reflexivity. Qed.

Lemma fault_fs w : fs (snd (fault w)) = fs w.
Proof. unfold fault. destruct (faults w); reflexivity. Qed.

Lemma single_close_answers h w :
  same_answers w (snd (singleapp.Close h w)).
Proof.
  unfold singleapp.Close.
  pose proof (fault_heap w) as Hh.
  destruct (fault w) as [b w1]; simpl in Hh.
  destruct b; simpl; [intros i; by rewrite Hh|].
  destruct (heap w1 !! h) as [a|] eqn:Ha; simpl; [|intros i; by rewrite Hh].
  destruct (a_closed a); simpl; [intros i; by rewrite Hh|].
  intros i. rewrite <- Hh. simpl.
  destruct (decide (i = h)) as [->|Hne].
  - rewrite list_lookup_insert_eq by (eapply lookup_lt_Some; eauto).
    rewrite Ha. reflexivity.
  - rewrite list_lookup_insert_ne by congruence. reflexivity.
Qed.

Lemma apply_close_answers es w :
  same_answers w
    (snd (cache.apply_entries (fun _ v => singleapp.Close v) es w)).
Proof.
  revert w. induction es as [|[k v] es IH]; intros w; simpl.
  - apply same_answers_refl.
  - pose proof (single_close_answers v w) as Hc.
    destruct (singleapp.Close v w) as [[e|] w1]; simpl in *; [exact Hc|].
    eapply same_answers_trans; [exact Hc|apply IH].
Qed.

Lemma Close_answers mf w :
  same_answers w (snd (Close mf w)).
Proof.
  unfold Close. destruct (closed mf); [apply same_answers_refl|].
  unfold cache.Apply.
  pose proof (apply_close_answers (cache.entries (appendables (set_closed mf))) w) as Ha.
  destruct (cache.apply_entries _ _ w) as [[e|] w1]; simpl in *; [exact Ha|].
  pose proof (single_close_answers (currApp (set_closed mf)) w1) as Hc.
  destruct (singleapp.Close _ w1) as [e w2]; simpl in *.
  eapply same_answers_trans; eauto.
Qed.

Lemma Close_store mf w :
  snd (fst (Close mf w)) = (if closed mf then mf else set_closed mf).
Proof.
  unfold Close. destruct (closed mf) eqn:Hc; [reflexivity|].
  destruct (cache.Apply _ _ w) as [[e|] w1]; [reflexivity|].
  destruct (singleapp.Close _ w1); reflexivity.
Qed.

(** *** After [Close] *)

Lemma read_loop_closed fuel n off acc mf w :
  closed mf = true -> (length acc < n)%nat ->
  read_loop (S fuel) n off acc mf w
  = (Ret (acc, Some ErrAlreadyClosed), mf, w).
Proof.
  intros Hc Hlt. simpl.
  destruct (length acc <? n)%nat eqn:E; [|apply Nat.ltb_ge in E; lia].
  simpl. unfold appendableFor. rewrite Hc. reflexivity.
Qed.

(** C6 (as amended): once [Close] has run, [Append], [Size], [SetOffset],
    [Flush], [Sync], [Copy], a second [Close] and [ReadAt] on a non-empty
    buffer fail with [ErrAlreadyClosed] and change nothing; [ReadAt] on an
    empty buffer fails with [ErrIllegalArguments]; [Offset], [Metadata],
    [CompressionFormat] and [CompressionLevel] have no error result and
    answer what they answered before the store was closed. *)
Theorem closed_store_methods (mf mf' : MultiFileAppendable) (w w' : world)
    (r : option error) :
  Close mf w = (r, mf', w') ->
  closed mf' = true
  /\ (forall bs w1,
        Append bs mf' w1 = (Ret (0, 0, Some ErrAlreadyClosed), mf', w1))
  /\ (forall n off w1, n <> 0%nat ->
        ReadAt n off mf' w1 = (Ret ([], Some ErrAlreadyClosed), mf', w1))
  /\ (forall off w1,
        ReadAt 0 off mf' w1 = (Ret ([], Some ErrIllegalArguments), mf', w1))
  /\ (forall w1, Size mf' w1 = (Err ErrAlreadyClosed, w1))
  /\ (forall off w1,
        SetOffset off mf' w1 = (Ret (Some ErrAlreadyClosed), mf', w1))
  /\ (forall w1, Flush mf' w1 = (Some ErrAlreadyClosed, w1))
  /\ (forall w1, Sync mf' w1 = (Some ErrAlreadyClosed, w1))
  /\ (forall dst w1, Copy dst mf' w1 = (Some ErrAlreadyClosed, w1))
  /\ (forall w1, Close mf' w1 = (Some ErrAlreadyClosed, mf', w1))
  /\ Offset mf' w' = Offset mf w
  /\ Metadata mf' w' = Metadata mf w
  /\ CompressionFormat mf' w' = CompressionFormat mf w
  /\ CompressionLevel mf' w' = CompressionLevel mf w.
Proof.
  intros HC.
  pose proof (Close_store mf w) as Hs. pose proof (Close_answers mf w) as Ha.
  rewrite HC in Hs, Ha. simpl in Hs, Ha.
  assert (Hcl : closed mf' = true).
  { subst mf'. destruct (closed mf) eqn:E; [exact E|reflexivity]. }
  assert (Hsame : currApp mf' = currApp mf /\ currAppID mf' = currAppID mf
                  /\ fileSize mf' = fileSize mf).
  { subst mf'. destruct (closed mf); repeat split; reflexivity. }
  destruct Hsame as (Hca & Hid & Hfs).
  specialize (Ha (currApp mf)).
  split; [exact Hcl|].
  split. { intros bs w1. unfold Append. rewrite Hcl. reflexivity. }
  split. { intros n off w1 Hn. destruct n as [|n]; [congruence|].
           unfold ReadAt. apply read_loop_closed; [exact Hcl|simpl; lia]. }
  split. { reflexivity. }
  split. { intros w1. unfold Size. rewrite Hcl. reflexivity. }
  split. { intros off w1. unfold SetOffset. rewrite Hcl. reflexivity. }
  split. { intros w1. unfold Flush, flush. rewrite Hcl. reflexivity. }
  split. { intros w1. unfold Sync, sync. rewrite Hcl. reflexivity. }
  split. { intros dst w1. unfold Copy. rewrite Hcl. reflexivity. }
  split. { intros w1. unfold Close. rewrite Hcl. reflexivity. }
  unfold Offset, Metadata, CompressionFormat, CompressionLevel,
    singleapp.Offset, singleapp.Metadata, singleapp.CompressionFormat,
    singleapp.CompressionLevel.
  rewrite Hca, Hid, Hfs.
  destruct (heap w' !! currApp mf) as [a'|], (heap w !! currApp mf) as [a|];
    simpl in Ha; try discriminate; [|repeat split; reflexivity].
  unfold answers in Ha. injection Ha as _ _ _ -> -> -> ->.
  repeat split; reflexivity.
Qed.

(** *** What [Open] does *)

Definition sorted_names (es : gmap string file) : list string :=
  merge_sort os.name_le (map fst (map_to_list es)).

Lemma fault_cases w :
  exists b w1, fault w = (b, w1) /\ fs w1 = fs w /\ heap w1 = heap w
               /\ peak w1 = peak w
               /\ (faults w = [] -> b = false /\ faults w1 = []).
Proof.
  unfold fault. destruct (faults w) as [|b bs] eqn:E.
  - exists false, w. repeat split; auto.
  - eexists _, _. repeat split; simpl; auto; discriminate.
Qed.

Lemma stat_or_mkdir_ok p opts w w1 :
  stat_or_mkdir p opts w = (None, w1) ->
  exists es,
    (fs w !! p = Some (Dir es)
     \/ (fs w !! p = None /\ es = ∅ /\ multiapp.readOnly opts = false))
    /\ fs w1 !! p = Some (Dir es) /\ heap w1 = heap w /\ peak w1 = peak w
    /\ (faults w = [] -> faults w1 = []).
Proof.
  unfold stat_or_mkdir, os.Stat.
  destruct (fault_cases w) as (b & w0 & Hf & Hfs & Hh & Hp & Hfl). rewrite Hf.
  destruct b; [simpl; discriminate|].
  destruct (fs w0 !! p) as [[es|f]|] eqn:Hnd; [| discriminate |].
  - intros [= <-]. exists es. rewrite <- Hfs. repeat split; auto.
    intros E. apply Hfl in E. tauto.
  - simpl. destruct (multiapp.readOnly opts) eqn:Hro; [discriminate|].
    unfold os.Mkdir.
    destruct (fault_cases w0) as (b' & w0' & Hf' & Hfs' & Hh' & Hp' & Hfl').
    rewrite Hf'. destruct b'; [discriminate|].
    rewrite Hfs', Hnd. intros [= <-]. exists ∅. simpl.
    rewrite lookup_insert_eq, <- Hfs, Hnd. repeat split; auto; try congruence.
    intros E. apply Hfl in E. destruct E as [_ E]. apply Hfl' in E. tauto.
Qed.

(** A successful [Open] went through these steps: the path named a
    directory (made by the call when absent), whose last entry in name
    order, when there is one, gave the tail id and the file of the tail. *)
Lemma Open_inv p opts w mf w' :
  Open p opts w = (Ret (Ok mf), w') ->
  exists es w2 filename,
    validOptions opts = true
    /\ (fs w !! p = Some (Dir es)
        \/ (fs w !! p = None /\ es = ∅
            /\ multiapp.readOnly opts = false))
    /\ fs w2 !! p = Some (Dir es) /\ heap w2 = heap w
    /\ peak w2 = peak w
    /\ (faults w = [] -> faults w2 = [])
    /\ match last (sorted_names es) with
       | Some fn => filename = fn /\ ParseInt (stem fn) = Ok (currAppID mf)
       | None => filename = appendableName 0 (multiapp.fileExt opts)
                 /\ currAppID mf = 0
       end
    /\ singleapp.Open p filename (tail_options opts) w2
       = (Ok (currApp mf), w')
    /\ cache.NewLRUCache (multiapp.maxOpenedFiles opts)
       = Ok (appendables mf)
    /\ fileSize mf
       = fst (Meta.GetInt metaFileSize
                (Meta.NewMetadata (singleapp.Metadata (currApp mf) w')))
    /\ path mf = p /\ readOnly mf = multiapp.readOnly opts
    /\ synced mf = multiapp.synced opts
    /\ fileMode mf = multiapp.fileMode opts
    /\ fileExt mf = multiapp.fileExt opts /\ closed mf = false.
Proof.
  unfold Open. destruct (validOptions opts) eqn:Hv; [simpl|discriminate].
  destruct (stat_or_mkdir p opts w) as [[e|] w1] eqn:Hsm; [discriminate|].
  apply stat_or_mkdir_ok in Hsm as (es & Hes & Hd & Hh1 & Hp1 & Hfl1).
  unfold os.ReadDir.
  destruct (fault_cases w1) as (b & w2 & Hf & Hfs & Hh & Hp & Hfl). rewrite Hf.
  destruct b; [discriminate|]. rewrite Hfs, Hd.
  fold (sorted_names es).
  intros HO. exists es, w2.
  assert (Hv' := Hv). unfold validOptions in Hv'.
  apply andb_prop in Hv' as [Hv' _]. apply andb_prop in Hv' as [Hv' _].
  apply andb_prop in Hv' as [Hsz Hc]. apply Z.ltb_lt in Hsz.
  assert (Hid : appendableID 0 (multiapp.fileSize opts) = Some 0).
  { unfold appendableID. destruct (multiapp.fileSize opts =? 0) eqn:E;
      [apply Z.eqb_eq in E; lia|]. rewrite Z.quot_0_l by lia. reflexivity. }
  destruct (last (sorted_names es)) as [fn|] eqn:Hl.
  - destruct (ParseInt (stem fn)) as [id|e] eqn:Hpi; simpl in HO; [|discriminate].
    destruct (singleapp.Open p fn (tail_options opts) w2)
      as [[h|e] w3] eqn:Hso; simpl in HO; [|discriminate].
    destruct (cache.NewLRUCache _) as [c|e] eqn:Hc'; simpl in HO; [|discriminate].
    destruct (Meta.GetInt _ _) as [fsz ok] eqn:Hg.
    injection HO as <- <-. exists fn. simpl. rewrite Hg.
    rewrite Hfs. repeat split; auto; try congruence.
    intros E. apply Hfl1 in E. apply Hfl in E. tauto.
  - rewrite Hid in HO. simpl in HO.
    destruct (singleapp.Open p _ (tail_options opts) w2)
      as [[h|e] w3] eqn:Hso; simpl in HO; [|discriminate].
    destruct (cache.NewLRUCache _) as [c|e] eqn:Hc'; simpl in HO; [|discriminate].
    destruct (Meta.GetInt _ _) as [fsz ok] eqn:Hg.
    injection HO as <- <-. eexists. simpl. rewrite Hg.
    rewrite Hfs. repeat split; eauto; try congruence.
    intros E. apply Hfl1 in E. apply Hfl in E. tauto.
Qed.

Lemma fault_free w : faults w = [] -> fault w = (false, w).
Proof. unfold fault. intros ->. reflexivity. Qed.

Lemma stat_or_mkdir_dir p opts w es :
  fs w !! p = Some (Dir es) -> faults w = [] ->
  stat_or_mkdir p opts w = (None, w).
Proof.
  intros Hd Hf. unfold stat_or_mkdir, os.Stat.
  rewrite (fault_free w Hf), Hd. reflexivity.
Qed.

(** C7 (as amended): [Open] on a non-empty directory fails whenever the
    stem of the last entry in name order does not parse as a base-10
    64-bit integer; with valid options and no file-system failure the
    error is the parser's.  No other entry is examined. *)
Theorem Open_unparsable_last_entry (p : string) (opts : multiapp.Options)
    (w : world) (es : gmap string file) (fn : string) (e : error) :
  fs w !! p = Some (Dir es) ->
  last (sorted_names es) = Some fn ->
  ParseInt (stem fn) = Err e ->
  exists e' w',
    Open p opts w = (Ret (Err e'), w')
    /\ (validOptions opts = true -> faults w = [] -> e' = e).
Proof.
  intros Hd Hl Hp. unfold Open.
  destruct (validOptions opts) eqn:Hv; simpl;
    [|eexists _, _; split; [reflexivity|discriminate]].
  destruct (stat_or_mkdir p opts w) as [[e1|] w1] eqn:Hsm.
  { eexists _, _. split; [reflexivity|]. intros _ Hf.
    rewrite (stat_or_mkdir_dir p opts w es Hd Hf) in Hsm. discriminate. }
  pose proof Hsm as Hsm'.
  apply stat_or_mkdir_ok in Hsm' as (es' & Hes & Hd1 & _ & _ & Hfl1).
  assert (es' = es) as ->.
  { destruct Hes as [Hes|[Hes _]]; congruence. }
  unfold os.ReadDir.
  destruct (fault_cases w1) as (b & w2 & Hf & Hfs & _ & _ & Hfl). rewrite Hf.
  destruct b.
  { eexists _, _. split; [reflexivity|]. intros _ Hf0.
    apply Hfl1 in Hf0. apply Hfl in Hf0. destruct Hf0; discriminate. }
  rewrite Hfs, Hd1. fold (sorted_names es). rewrite Hl, Hp. simpl.
  eexists _, _. split; reflexivity.
Qed.

Lemma single_open_metadata p fn o w h w' :
  singleapp.Open p fn o w = (Ok h, w') ->
  h = length (heap w)
  /\ exists a, heap w' = heap w ++ [a]
     /\ a_dir a = p /\ a_name a = fn /\ a_closed a = false
     /\ match read_file w p fn with
        | Some f => a_meta a = f_meta f /\ a_cf a = f_cf f
                    /\ a_cl a = f_cl f /\ fs w' = fs w
                    /\ a_offset a = Z.of_nat (length (f_data f))
                    /\ a_readOnly a = singleapp.readOnly o
        | None => a_meta a = singleapp.metadata o
                  /\ a_cf a = singleapp.compressionFormat o
                  /\ a_cl a = singleapp.compressionLevel o
                  /\ singleapp.readOnly o = false
                  /\ a_readOnly a = false
                  /\ a_offset a = 0
                  /\ read_file w' p fn
                     = Some (File (singleapp.metadata o)
                               (singleapp.compressionFormat o)
                               (singleapp.compressionLevel o) [])
        end.
Proof.
  unfold singleapp.Open, read_file.
  destruct (fault_cases w) as (b & w1 & Hf & Hfs & Hh & _ & _). rewrite Hf.
  destruct b; [discriminate|]. rewrite <- Hfs, <- Hh.
  destruct (fs w1 !! p) as [[es|f]|] eqn:Hd; try discriminate.
  destruct (es !! fn) as [f|] eqn:Hfn.
  - intros [= <- <-]. split; [reflexivity|]. eexists. simpl.
    repeat split; reflexivity.
  - destruct (singleapp.readOnly o) eqn:Hro; [discriminate|].
    intros [= <- <-]. split.
    { unfold write_file. rewrite Hd. reflexivity. }
    eexists. unfold write_file. rewrite Hd. simpl.
    rewrite lookup_insert_eq, lookup_insert_eq. repeat split; reflexivity.
Qed.

(** *** The configuration of a store never changes *)

Definition same_config (mf mf' : MultiFileAppendable) : Prop :=
  path mf' = path mf /\ readOnly mf' = readOnly mf /\ synced mf' = synced mf
  /\ fileMode mf' = fileMode mf /\ fileSize mf' = fileSize mf
  /\ fileExt mf' = fileExt mf.

Lemma same_config_refl mf : same_config mf mf.
Proof. repeat split. Qed.

Lemma same_config_trans mf1 mf2 mf3 :
  same_config mf1 mf2 -> same_config mf2 mf3 -> same_config mf1 mf3.
Proof. unfold same_config. intuition congruence. Qed.

Lemma rollover_config mf w e mf' w' :
  rollover mf w = (e, mf', w') -> same_config mf mf'.
Proof.
  unfold rollover. intros Hr.
  repeat case_match; simplify_eq; repeat split.
Qed.

Lemma make_room_config mf w e av mf' w' :
  make_room mf w = (e, av, mf', w') -> same_config mf mf'.
Proof.
  unfold make_room. destruct (_ <=? 0).
  - destruct (rollover mf w) as [[e1 mf1] w1] eqn:Hr.
    intros [= <- <- <- <-]. eapply rollover_config; eauto.
  - intros [= <- <- <- <-]. apply same_config_refl.
Qed.

Lemma append_loop_S fuel bs off n mf w :
  append_loop (S fuel) bs off n mf w
  = if negb (n <? Z.of_nat (length bs)) then (Ret (off, n, None), mf, w) else
    let '(err, available, mf, w) := make_room mf w in
    match err with
    | Some e => (Ret (off, n, Some e), mf, w)
    | None =>
    let '(r, w) := write_chunk bs n available mf w in
    match r with
    | Panic => (Panic, mf, w)
    | Timeout => (Timeout, mf, w)
    | Ret (Err e) => (Ret (off, n, Some e), mf, w)
    | Ret (Ok (offn, d)) =>
        let off :=
          if n =? 0 then wrap64 (offn + wrap64 (currAppID mf * fileSize mf))
          else off in
        append_loop fuel bs off (wrap64 (n + d)) mf w
    end end.
Proof. reflexivity. Qed.

Lemma append_loop_config fuel bs off n mf w r mf' w' :
  append_loop fuel bs off n mf w = (r, mf', w') -> same_config mf mf'.
Proof.
  revert off n mf w. induction fuel as [|fuel IH]; intros off n mf w.
  - simpl. destruct (n <? _); simpl; intros [= <- <- <-];
      apply same_config_refl.
  - rewrite append_loop_S. destruct (n <? _); simpl;
      [|intros [= <- <- <-]; apply same_config_refl].
    destruct (make_room mf w) as [[[e av] mf1] w1] eqn:Hm.
    apply make_room_config in Hm.
    destruct e; [intros [= <- <- <-]; exact Hm|].
    destruct (write_chunk bs n av mf1 w1) as [[[[offn d]|e]| |] w2];
      try (intros [= <- <- <-]; exact Hm).
    intros Hl. eapply same_config_trans; [exact Hm|eapply IH; eauto].
Qed.

Lemma Append_config bs mf w r mf' w' :
  Append bs mf w = (r, mf', w') -> same_config mf mf'.
Proof.
  unfold Append. repeat case_match; try (intros [= <- <- <-]; apply same_config_refl).
  apply append_loop_config.
Qed.

Lemma SetOffset_config off mf w r mf' w' :
  SetOffset off mf w = (r, mf', w') -> same_config mf mf'.
Proof.
  unfold SetOffset. intros Hr.
  repeat case_match; simplify_eq; repeat split.
Qed.

Lemma appendableFor_config off mf w r mf' w' :
  appendableFor off mf w = (r, mf', w') -> same_config mf mf'.
Proof.
  unfold appendableFor. intros Hr.
  repeat case_match; simplify_eq; repeat split.
Qed.

Lemma read_loop_config fuel n off acc mf w r mf' w' :
  read_loop fuel n off acc mf w = (r, mf', w') -> same_config mf mf'.
Proof.
  revert acc mf w. induction fuel as [|fuel IH]; intros acc mf w; simpl.
  - destruct (_ <? _)%nat; simpl; intros [= <- <- <-]; apply same_config_refl.
  - destruct (_ <? _)%nat; simpl;
      [|intros [= <- <- <-]; apply same_config_refl].
    destruct (appendableFor _ mf w) as [[r1 mf1] w1] eqn:Ha.
    apply appendableFor_config in Ha.
    repeat case_match; simplify_eq; intros Hl; simplify_eq; try exact Ha;
      (eapply same_config_trans; [exact Ha|eapply IH; eauto]).
Qed.

Lemma ReadAt_config n off mf w r mf' w' :
  ReadAt n off mf w = (r, mf', w') -> same_config mf mf'.
Proof.
  unfold ReadAt. destruct n; [intros [= <- <- <-]; apply same_config_refl|].
  apply read_loop_config.
Qed.

Lemma step_config o mf w mf' w' :
  step o (mf, w) = Some (mf', w') -> same_config mf mf'.
Proof.
  destruct o; simpl.
  - destruct (Append bs mf w) as [[[r| |] mf1] w1] eqn:E; intros [= <- <-].
    eapply Append_config; eauto.
  - destruct (ReadAt n off mf w) as [[[r| |] mf1] w1] eqn:E; intros [= <- <-].
    eapply ReadAt_config; eauto.
  - destruct (SetOffset off mf w) as [[[r| |] mf1] w1] eqn:E; intros [= <- <-].
    eapply SetOffset_config; eauto.
  - intros [= <- <-]. apply same_config_refl.
  - intros [= <- <-]. apply same_config_refl.
  - pose proof (Close_store mf w) as Hc.
    destruct (Close mf w) as [[r mf1] w1]. simpl in Hc.
    intros [= <- <-]. subst mf1. destruct (closed mf); repeat split.
  - intros [= <- <-]. apply same_config_refl.
Qed.

Lemma run_cons o ops s :
  run (o :: ops) s
  = match step o s with Some s' => run ops s' | None => None end.
Proof. reflexivity. Qed.

Lemma run_config ops mf w mf' w' :
  run ops (mf, w) = Some (mf', w') -> same_config mf mf'.
Proof.
  revert mf w. induction ops as [|o ops IH]; intros mf w.
  - intros [= <- <-]. apply same_config_refl.
  - rewrite run_cons. destruct (step o (mf, w)) as [[mf1 w1]|] eqn:Hs; [|discriminate].
    intros Hr. eapply same_config_trans.
    + eapply step_config; eauto.
    + eapply IH; eauto.
Qed.

(** *** The segment size of an opened store *)

Lemma single_open_answers p fn o w h w' :
  singleapp.Open p fn o w = (Ok h, w') ->
  singleapp.Metadata h w'
  = match read_file w p fn with
    | Some f => f_meta f
    | None => singleapp.metadata o
    end.
Proof.
  intros Ho. apply single_open_metadata in Ho as (-> & a & Hh & _ & _ & _ & Hm).
  unfold singleapp.Metadata. rewrite Hh, lookup_app_r by lia.
  rewrite Nat.sub_diag. simpl.
  destruct (read_file w p fn); tauto.
Qed.

Lemma sorted_names_empty : sorted_names ∅ = [].
Proof. unfold sorted_names. rewrite map_to_list_empty. reflexivity. Qed.

Lemma fresh_envelope_fileSize opts :
  Meta.GetInt metaFileSize
    (Meta.NewMetadata (singleapp.metadata (tail_options opts)))
  = (multiapp.fileSize opts, true).
Proof. reflexivity. Qed.

(** C8: on reopening a non-empty directory the segment size of the store
    is the FILE_SIZE decoded from the header of the tail segment, the last
    entry in name order, whatever file size the options carry; no later
    call changes it. *)
Theorem reopen_fileSize_from_tail_header (p : string)
    (opts : multiapp.Options) (w w' : world) (es : gmap string file)
    (fn : string) (f : file) (mf : MultiFileAppendable) :
  fs w !! p = Some (Dir es) ->
  last (sorted_names es) = Some fn ->
  es !! fn = Some f ->
  Open p opts w = (Ret (Ok mf), w') ->
  fileSize mf = fst (Meta.GetInt metaFileSize (Meta.NewMetadata (f_meta f)))
  /\ (forall ops mf2 w2,
        run ops (mf, w') = Some (mf2, w2) -> fileSize mf2 = fileSize mf).
Proof.
  intros Hd Hl Hf HO.
  apply Open_inv in HO
    as (es' & w2 & fn' & _ & Hes & Hd2 & _ & _ & _ & Hlast & Hso & _ & Hfs & _).
  assert (es' = es) as -> by (destruct Hes as [Hes|[Hes _]]; congruence).
  rewrite Hl in Hlast. destruct Hlast as [-> _].
  split.
  - rewrite Hfs, (single_open_answers _ _ _ _ _ _ Hso).
    unfold read_file. rewrite Hd2, Hf. reflexivity.
  - intros ops mf2 w2' Hr. apply run_config in Hr. apply Hr.
Qed.



(** *** The cache *)

Lemma find_app k l1 l2 :
  cache.find k (l1 ++ l2)
  = match cache.find k l1 with
    | Some v => Some v
    | None => cache.find k l2
    end.
Proof.
  induction l1 as [|[k' v'] l1 IH]; simpl; [reflexivity|].
  destruct (k =? k'); [reflexivity|exact IH].
Qed.

Lemma find_remove_eq k l : cache.find k (cache.remove k l) = None.
Proof.
  induction l as [|[k' v'] l IH]; simpl; [reflexivity|].
  destruct (k =? k') eqn:E; [exact IH|]. simpl. rewrite E. exact IH.
Qed.

Lemma find_remove_ne k k' l :
  k <> k' -> cache.find k' (cache.remove k l) = cache.find k' l.
Proof.
  intros Hne. induction l as [|[k1 v1] l IH]; simpl; [reflexivity|].
  destruct (k =? k1) eqn:E.
  - apply Z.eqb_eq in E. subst k1.
    destruct (k' =? k) eqn:E'; [apply Z.eqb_eq in E'; congruence|exact IH].
  - simpl. destruct (k' =? k1); [reflexivity|exact IH].
Qed.

Lemma find_single k v : cache.find k [(k, v)] = Some v.
Proof. simpl. rewrite Z.eqb_refl. reflexivity. Qed.

Lemma find_Some_elem k v l : cache.find k l = Some v -> (k, v) ∈ l.
Proof.
  induction l as [|[k' v'] l IH]; simpl; [discriminate|].
  destruct (k =? k') eqn:E.
  - apply Z.eqb_eq in E. intros [= ->]. subst. left.
  - intros Hf. right. auto.
Qed.

Lemma find_None_key k l : cache.find k l = None -> k ∉ map fst l.
Proof.
  induction l as [|[k' v'] l IH]; simpl; [intros _; apply not_elem_of_nil|].
  destruct (k =? k') eqn:E; [discriminate|]. apply Z.eqb_neq in E.
  intros Hf. apply not_elem_of_cons. split; [exact E|auto].
Qed.

Lemma elem_remove k e l : e ∈ cache.remove k l -> e ∈ l /\ fst e <> k.
Proof.
  induction l as [|[k' v'] l IH]; simpl; [intros Hin; inversion Hin|].
  destruct (k =? k') eqn:E.
  - intros Hin. apply IH in Hin as [Hin Hne]. split; [by right|exact Hne].
  - apply Z.eqb_neq in E. intros Hin. apply elem_of_cons in Hin as [->|Hin].
    + split; [left|simpl; congruence].
    + apply IH in Hin as [Hin Hne]. split; [by right|exact Hne].
Qed.

Lemma remove_length k l : (length (cache.remove k l) <= length l)%nat.
Proof.
  induction l as [|[k' v'] l IH]; simpl; [lia|].
  destruct (k =? k'); simpl; lia.
Qed.

Lemma remove_length_found k l v :
  cache.find k l = Some v -> (length (cache.remove k l) < length l)%nat.
Proof.
  induction l as [|[k' v'] l IH]; simpl; [discriminate|].
  destruct (k =? k'); simpl.
  - intros _. pose proof (remove_length k l). lia.
  - intros Hf. apply IH in Hf. lia.
Qed.

(** What [Put] leaves in the cache: the new binding is present, every other
    entry was there before, the ejected entry was there before and is gone
    (when keys are distinct), and the capacity is respected. *)
Lemma Put_spec k v c ej err c' :
  cache.Put k v c = ((ej, err), c') ->
  err = None
  /\ cache.size c' = cache.size c
  /\ cache.find k (cache.entries c') = Some v
  /\ (forall e, e ∈ cache.entries c' -> e = (k, v) \/ e ∈ cache.entries c)
  /\ (forall e, ej = Some e ->
        cache.find k (cache.entries c) = None
        /\ exists rest, cache.entries c = e :: rest
                        /\ cache.entries c' = rest ++ [(k, v)])
  /\ ((length (cache.entries c) <= cache.size c)%nat ->
      (0 < cache.size c)%nat ->
      (length (cache.entries c') <= cache.size c)%nat).
Proof.
  unfold cache.Put. destruct (cache.find k (cache.entries c)) as [v0|] eqn:Hf.
  - intros [= <- <- <-]. simpl. split_and!; try reflexivity.
    + rewrite find_app, find_remove_eq. apply find_single.
    + intros e Hin. apply elem_of_app in Hin as [Hin|Hin].
      * right. apply elem_remove in Hin. tauto.
      * left. apply list_elem_of_singleton in Hin. exact Hin.
    + discriminate.
    + intros Hle _. rewrite length_app. simpl.
      pose proof (remove_length_found _ _ _ Hf). lia.
  - destruct (length (cache.entries c) <? cache.size c)%nat eqn:Hlt.
    + intros [= <- <- <-]. simpl. split_and!; try reflexivity.
      * rewrite find_app, Hf. apply find_single.
      * intros e Hin. apply elem_of_app in Hin as [Hin|Hin]; [by right|].
        left. apply list_elem_of_singleton in Hin. exact Hin.
      * discriminate.
      * intros _ _. rewrite length_app. simpl.
        apply Nat.ltb_lt in Hlt. lia.
    + destruct (cache.entries c) as [|e0 es] eqn:Hes.
      * intros [= <- <- <-]. simpl. split_and!; try reflexivity.
        -- apply find_single.
        -- intros e Hin. left. apply list_elem_of_singleton in Hin. exact Hin.
        -- discriminate.
        -- intros _ Hpos. apply Nat.ltb_ge in Hlt. simpl in *. lia.
      * intros [= <- <- <-]. simpl. split_and!; try reflexivity.
        -- rewrite find_app. simpl in Hf. destruct e0 as [k0 v0].
           destruct (k =? k0); [discriminate|]. rewrite Hf. apply find_single.
        -- intros e Hin. apply elem_of_app in Hin as [Hin|Hin].
           ++ right. by right.
           ++ left. apply list_elem_of_singleton in Hin. exact Hin.
        -- intros e [= <-]. split; [reflexivity|].
           exists es. split; reflexivity.
        -- intros Hle _. rewrite length_app. simpl in *. lia.
Qed.

(** *** How the calls of a handle act on the world *)

(** The open/closed flag of every handle ever opened. *)
Definition flags (w : world) : list bool := map a_closed (heap w).

Definition is_dir (w : world) (d : string) : Prop :=
  exists es, fs w !! d = Some (Dir es).

Lemma flags_insert_same w h a a' :
  heap w !! h = Some a -> a_closed a' = a_closed a ->
  map a_closed (<[h := a']> (heap w)) = flags w.
Proof.
  intros Hh Hc. unfold flags. rewrite list_fmap_insert, Hc.
  apply list_insert_id. rewrite list_lookup_fmap, Hh. reflexivity.
Qed.

Lemma write_file_is_dir d n f w d' :
  is_dir w d' -> is_dir (write_file d n f w) d'.
Proof.
  intros [es Hes]. unfold write_file.
  destruct (fs w !! d) as [[es0|f0]|] eqn:Hd; try (by exists es).
  unfold is_dir. simpl. destruct (decide (d = d')) as [->|Hne].
  - rewrite lookup_insert_eq. by eexists.
  - rewrite lookup_insert_ne by done. by exists es.
Qed.

Lemma write_file_heap d n f w : heap (write_file d n f w) = heap w.
Proof. unfold write_file. repeat case_match; reflexivity. Qed.

Lemma write_file_faults d n f w : faults (write_file d n f w) = faults w.
Proof. unfold write_file. repeat case_match; reflexivity. Qed.

Lemma write_file_peak d n f w : peak (write_file d n f w) = peak w.
Proof. unfold write_file. repeat case_match; reflexivity. Qed.

(** A call that opens or closes no handle. *)
Definition quiet (w w' : world) : Prop :=
  flags w' = flags w
  /\ (peak w <= peak w' <= Nat.max (peak w) (open_count (heap w)))%nat
  /\ (faults w = [] -> faults w' = [])
  /\ (forall d, is_dir w d -> is_dir w' d).

Lemma quiet_refl w : quiet w w.
Proof. unfold quiet. split_and!; auto; lia. Qed.

Lemma open_count_flags hp :
  open_count hp = length (filter (fun b => b = false) (map a_closed hp)).
Proof.
  unfold open_count. induction hp as [|a hp IH]; [reflexivity|].
  simpl. rewrite !filter_cons. unfold is_open.
  destruct (a_closed a) eqn:E; simpl;
    repeat case_decide; simpl in *; try congruence;
    unfold is_open in IH; rewrite IH; reflexivity.
Qed.

Lemma open_count_of_flags w w' :
  flags w' = flags w -> open_count (heap w') = open_count (heap w).
Proof. intros Hf. rewrite !open_count_flags. unfold flags in Hf. by rewrite Hf. Qed.

Lemma quiet_trans w1 w2 w3 : quiet w1 w2 -> quiet w2 w3 -> quiet w1 w3.
Proof.
  intros (F1 & P1 & L1 & D1) (F2 & P2 & L2 & D2).
  pose proof (open_count_of_flags _ _ F1).
  unfold quiet. split_and!; try congruence; auto; lia.
Qed.

Lemma fault_quiet w : quiet w (snd (fault w)).
Proof.
  destruct (fault_cases w) as (b & w1 & Hf & Hfs & Hh & Hp & Hfl).
  rewrite Hf. simpl. unfold quiet, flags, is_dir. rewrite Hh, Hfs, Hp.
  split_and!; auto; try lia. intros E. apply Hfl in E. tauto.
Qed.

Lemma set_heap_same_flags hp w :
  map a_closed hp = flags w -> quiet w (set_heap hp w).
Proof.
  intros Hf. unfold quiet, flags, is_dir. simpl.
  rewrite (open_count_flags hp), Hf. unfold flags.
  rewrite <- open_count_flags. split_and!; auto; lia.
Qed.

Ltac fault_step w :=
  let b := fresh "b" in let w1 := fresh "w" in
  let Hq := fresh "Hq" in
  pose proof (fault_quiet w) as Hq;
  destruct (fault w) as [b w1]; simpl in Hq;
  destruct b; simpl; [exact Hq|].

Lemma single_Size_quiet h w : quiet w (snd (singleapp.Size h w)).
Proof.
  unfold singleapp.Size. fault_step w.
  repeat case_match; simpl; exact Hq.
Qed.

Lemma single_Flush_quiet h w : quiet w (snd (singleapp.Flush h w)).
Proof.
  unfold singleapp.Flush. fault_step w.
  repeat case_match; simpl; exact Hq.
Qed.

Lemma single_Sync_quiet h w : quiet w (snd (singleapp.Sync h w)).
Proof.
  unfold singleapp.Sync. fault_step w.
  repeat case_match; simpl; exact Hq.
Qed.

Lemma single_ReadAt_quiet h n off w :
  quiet w (snd (singleapp.ReadAt h n off w)).
Proof.
  unfold singleapp.ReadAt. fault_step w.
  repeat case_match; simpl; exact Hq.
Qed.

Lemma single_SetOffset_quiet h x w :
  quiet w (snd (singleapp.SetOffset h x w)).
Proof.
  unfold singleapp.SetOffset. fault_step w.
  repeat case_match; simpl; try exact Hq.
  eapply quiet_trans; [exact Hq|].
  apply set_heap_same_flags. eapply flags_insert_same; eauto.
Qed.

Lemma write_file_quiet d n f w : quiet w (write_file d n f w).
Proof.
  unfold quiet, flags. rewrite write_file_heap, write_file_faults,
    write_file_peak.
  split_and!; auto; try lia. intros d'. apply write_file_is_dir.
Qed.

Lemma single_Append_quiet h bs w :
  quiet w (snd (singleapp.Append h bs w)).
Proof.
  unfold singleapp.Append. fault_step w.
  repeat case_match; simpl; try exact Hq.
  all: eapply quiet_trans; [exact Hq|].
  all: eapply quiet_trans; [apply write_file_quiet|].
  all: apply set_heap_same_flags; rewrite write_file_heap.
  all: unfold flags; rewrite write_file_heap.
  all: eapply flags_insert_same; eauto.
Qed.

(** [Close] either fails and is quiet, or closes an open handle. *)
Lemma single_Close_cases h w :
  match singleapp.Close h w with
  | (Some _, w') => quiet w w'
  | (None, w') =>
      flags w !! h = Some false
      /\ flags w' = <[h := true]> (flags w)
      /\ (peak w <= peak w' <= Nat.max (peak w) (open_count (heap w)))%nat
      /\ (faults w = [] -> faults w' = [])
      /\ (forall d, is_dir w d -> is_dir w' d)
  end.
Proof.
  unfold singleapp.Close.
  pose proof (fault_quiet w) as Hq.
  destruct (fault w) as [b w1]; simpl in Hq.
  destruct b; [exact Hq|].
  destruct (heap w1 !! h) as [a|] eqn:Ha; [|exact Hq].
  destruct (a_closed a) eqn:Hc; [exact Hq|].
  destruct Hq as (Hf & Hp & Hfl & Hd).
  assert (Hfh : flags w1 !! h = Some false).
  { unfold flags. rewrite list_lookup_fmap, Ha. simpl. by rewrite Hc. }
  assert (Hle : (length (filter (fun b => b = false) (<[h:=true]> (flags w1)))
                 <= length (filter (fun b => b = false) (flags w1)))%nat).
  { clear -Hfh. revert h Hfh. induction (flags w1) as [|b l IH];
      intros h Hh; [done|].
    destruct h as [|h]; simpl in *.
    + injection Hh as ->. rewrite !filter_cons.
      repeat case_decide; simpl; try congruence; lia.
    + rewrite !filter_cons. specialize (IH h Hh).
      repeat case_decide; simpl; lia. }
  assert (Hoc : open_count (<[h:=set_a_closed a]> (heap w1))
                = length (filter (fun b => b = false)
                            (<[h:=true]> (flags w1)))).
  { rewrite open_count_flags, list_fmap_insert. reflexivity. }
  pose proof (open_count_of_flags _ _ Hf) as Hoc'.
  rewrite (open_count_flags (heap w1)) in Hoc'.
  change (map a_closed (heap w1)) with (flags w1) in Hoc'.
  split_and!; simpl; auto; try lia.
  - by rewrite <- Hf.
  - unfold flags at 1. simpl. rewrite list_fmap_insert. simpl.
    change (a_closed <$> heap w1) with (flags w1). by rewrite Hf.
Qed.

(** Allocating a handle. *)
Definition allocates (w w' : world) (h : nat) : Prop :=
  h = length (flags w)
  /\ flags w' = flags w ++ [false]
  /\ (peak w <= peak w' <= Nat.max (peak w) (S (open_count (heap w))))%nat
  /\ (faults w = [] -> faults w' = [])
  /\ (forall d', is_dir w d' -> is_dir w' d').

Lemma set_heap_alloc w a :
  a_closed a = false ->
  allocates w (set_heap (heap w ++ [a]) w) (length (heap w)).
Proof.
  intros Ha. unfold allocates, flags, is_dir. simpl.
  rewrite map_app, length_map. simpl. rewrite Ha.
  assert (open_count (heap w ++ [a]) = S (open_count (heap w))) as ->.
  { rewrite !open_count_flags, map_app, filter_app, length_app. simpl.
    rewrite filter_cons, decide_True by exact Ha. simpl. lia. }
  split_and!; auto; lia.
Qed.

Lemma quiet_allocates w1 w2 w3 h :
  quiet w1 w2 -> allocates w2 w3 h -> allocates w1 w3 h.
Proof.
  intros (F1 & P1 & L1 & D1) (-> & F2 & P2 & L2 & D2).
  pose proof (open_count_of_flags _ _ F1).
  unfold allocates. split_and!; try congruence; auto; lia.
Qed.

(** [Open] either fails and is quiet, or allocates the next handle. *)
Lemma single_Open_cases d n o w :
  match singleapp.Open d n o w with
  | (Err _, w') => quiet w w'
  | (Ok h, w') => allocates w w' h
  end.
Proof.
  unfold singleapp.Open.
  pose proof (fault_quiet w) as Hq.
  destruct (fault w) as [b w1]; simpl in Hq.
  destruct b; [exact Hq|].
  destruct (fs w1 !! d) as [[es|f]|] eqn:Hdir; try exact Hq.
  destruct (es !! n) as [f|] eqn:Hn.
  - eapply quiet_allocates; [exact Hq|]. by apply set_heap_alloc.
  - destruct (singleapp.readOnly o); [exact Hq|].
    eapply quiet_allocates; [exact Hq|].
    eapply quiet_allocates; [apply write_file_quiet|].
    by apply set_heap_alloc.
Qed.

Lemma single_Open_succeeds d n o w :
  faults w = [] -> is_dir w d -> singleapp.readOnly o = false ->
  exists h w', singleapp.Open d n o w = (Ok h, w').
Proof.
  intros Hf [es Hd] Hro. unfold singleapp.Open.
  rewrite (fault_free w Hf), Hd, Hro. destruct (es !! n); eauto.
Qed.

(** *** Counting open handles *)

Definition count_open (fl : list bool) : nat :=
  length (filter (fun b => b = false) fl).

Lemma count_open_close x fl :
  (count_open fl <= S (count_open (<[x := true]> fl)))%nat.
Proof.
  unfold count_open. revert x. induction fl as [|b fl IH]; intros x; [simpl; lia|].
  destruct x as [|x]; simpl; rewrite !filter_cons.
  - repeat case_decide; simpl; try congruence; lia.
  - specialize (IH x). repeat case_decide; simpl; lia.
Qed.

Lemma count_open_none fl :
  (forall i, fl !! i <> Some false) -> count_open fl = 0%nat.
Proof.
  unfold count_open. induction fl as [|b fl IH]; intros Hn; [reflexivity|].
  rewrite filter_cons. destruct b.
  - rewrite decide_False by discriminate. apply IH.
    intros i. apply (Hn (S i)).
  - exfalso. apply (Hn 0%nat). reflexivity.
Qed.

(** When every open handle is listed in [L], at most [length L] handles
    are open. *)
Lemma count_open_bound (L : list nat) (fl : list bool) :
  (forall i, fl !! i = Some false -> i ∈ L) ->
  (count_open fl <= length L)%nat.
Proof.
  revert fl. induction L as [|x L IH]; intros fl Hin.
  - rewrite count_open_none; [simpl; lia|].
    intros i Hi. apply Hin in Hi. inversion Hi.
  - pose proof (count_open_close x fl) as Hc.
    assert (count_open (<[x := true]> fl) <= length L)%nat; [|simpl; lia].
    apply IH. intros i Hi.
    destruct (decide (i = x)) as [->|Hne].
    + assert (x < length fl)%nat.
      { apply lookup_lt_Some in Hi. by rewrite length_insert in Hi. }
      rewrite list_lookup_insert_eq in Hi by done. discriminate.
    + rewrite list_lookup_insert_ne in Hi by done.
      apply Hin in Hi. apply elem_of_cons in Hi as [->|Hi]; [done|exact Hi].
Qed.

Lemma single_Close_succeeds h w :
  faults w = [] -> flags w !! h = Some false ->
  exists w', singleapp.Close h w = (None, w').
Proof.
  intros Hf Hh. unfold singleapp.Close. rewrite (fault_free w Hf).
  unfold flags in Hh. rewrite list_lookup_fmap in Hh.
  destruct (heap w !! h) as [a|]; [|discriminate].
  simpl in Hh. injection Hh as ->. eauto.
Qed.

(** *** Inserting into the cache and closing the ejected handle *)

(** The cache holds distinct keys and distinct, open handles, within its
    capacity. *)
Definition cache_ok (c : cache.LRUCache) (w : world) : Prop :=
  NoDup (map fst (cache.entries c))
  /\ NoDup (map snd (cache.entries c))
  /\ (forall e, e ∈ cache.entries c -> flags w !! snd e = Some false)
  /\ (length (cache.entries c) <= cache.size c)%nat
  /\ (0 < cache.size c)%nat.

Lemma find_None_of_key k l : k ∉ map fst l -> cache.find k l = None.
Proof.
  induction l as [|[k' v'] l IH]; simpl; [reflexivity|].
  intros Hn. apply not_elem_of_cons in Hn as [Hne Hn].
  destruct (k =? k') eqn:E; [apply Z.eqb_eq in E; congruence|auto].
Qed.

(** The effect of [Put k v] on a miss, followed by the closing of the
    ejected handle: the handles of the cache afterwards are [v] and the
    former ones but the ejected one, which is the only handle whose flag
    changes. *)
Lemma put_evict c w k v :
  faults w = [] -> cache_ok c w ->
  cache.find k (cache.entries c) = None ->
  flags w !! v = Some false -> v ∉ map snd (cache.entries c) ->
  exists ej c' w',
    cache.Put k v c = ((ej, None), c')
    /\ close_ejected ej w = (None, w')
    /\ cache_ok c' w' /\ cache.size c' = cache.size c
    /\ (exists kept, cache.entries c' = kept ++ [(k, v)]
        /\ cache.entries c = from_option (fun e => [e]) [] ej ++ kept)
    /\ flags w' = match ej with
                  | Some e => <[snd e := true]> (flags w)
                  | None => flags w
                  end
    /\ (peak w <= peak w' <= Nat.max (peak w) (open_count (heap w)))%nat
    /\ faults w' = []
    /\ (forall d, is_dir w d -> is_dir w' d).
Proof.
  intros Hf (Hk & Hv & Hopen & Hlen & Hpos) Hfind Hvo Hvn.
  assert (Hkn : k ∉ map fst (cache.entries c)) by (by apply find_None_key).
  unfold cache.Put. rewrite Hfind.
  destruct (length (cache.entries c) <? cache.size c)%nat eqn:Hlt.
  - apply Nat.ltb_lt in Hlt.
    exists None, (cache.MkLRU (cache.size c) (cache.entries c ++ [(k, v)])), w.
    simpl. split_and!; auto; try lia.
    + unfold cache_ok. simpl. rewrite !map_app, length_app. simpl.
      split_and!; try lia.
      * apply NoDup_app. split_and!; [done| |apply NoDup_singleton].
        intros x Hx Hx'. apply list_elem_of_singleton in Hx'. by subst.
      * apply NoDup_app. split_and!; [done| |apply NoDup_singleton].
        intros x Hx Hx'. apply list_elem_of_singleton in Hx'. by subst.
      * intros e He. apply elem_of_app in He as [He|He]; [auto|].
        apply list_elem_of_singleton in He. by subst.
    + by exists (cache.entries c).
  - apply Nat.ltb_ge in Hlt.
    destruct (cache.entries c) as [|[k0 v0] es] eqn:Hes; [simpl in *; lia|].
    assert (Hv0 : flags w !! v0 = Some false).
    { apply (Hopen (k0, v0)). left. }
    destruct (single_Close_succeeds v0 w Hf Hv0) as [w' Hc].
    exists (Some (k0, v0)), (cache.MkLRU (cache.size c) (es ++ [(k, v)])), w'.
    pose proof (single_Close_cases v0 w) as Hcc. rewrite Hc in Hcc.
    destruct Hcc as (_ & Hfl & Hp & Hfa & Hd).
    simpl in Hk, Hv, Hkn, Hvn, Hlen.
    apply NoDup_cons in Hk as [Hk0 Hk]. apply NoDup_cons in Hv as [Hv0n Hv].
    apply not_elem_of_cons in Hkn as [Hkk0 Hkn].
    apply not_elem_of_cons in Hvn as [Hvv0 Hvn].
    simpl. split_and!; auto; try lia.
    + unfold cache_ok. simpl. rewrite !map_app, length_app. simpl.
      split_and!; try lia.
      * apply NoDup_app. split_and!; [done| |apply NoDup_singleton].
        intros x Hx Hx'. apply list_elem_of_singleton in Hx'. by subst.
      * apply NoDup_app. split_and!; [done| |apply NoDup_singleton].
        intros x Hx Hx'. apply list_elem_of_singleton in Hx'. by subst.
      * intros e He. rewrite Hfl.
        assert (snd e <> v0).
        { apply elem_of_app in He as [He|He].
          - intros <-. apply Hv0n. apply list_elem_of_fmap. by exists e.
          - apply list_elem_of_singleton in He. subst. simpl. congruence. }
        rewrite list_lookup_insert_ne by done.
        apply elem_of_app in He as [He|He].
        -- apply Hopen. by right.
        -- apply list_elem_of_singleton in He. by subst.
    + by exists es.
Qed.

(** *** The invariant of stores that are only appended to and read below
    the tail *)

Lemma wrap64_id z : in_int64 z -> wrap64 z = z.
Proof.
  unfold in_int64, min_int64, max_int64, wrap64. intros Hz.
  rewrite Z.mod_small by lia. lia.
Qed.

Lemma open_count_count w : open_count (heap w) = count_open (flags w).
Proof. apply open_count_flags. Qed.

Lemma cache_ok_handle_lt c w v :
  cache_ok c w -> v ∈ map snd (cache.entries c) ->
  flags w !! v = Some false.
Proof.
  intros (_ & _ & Hopen & _) Hv.
  apply list_elem_of_fmap in Hv as (e & -> & He). by apply Hopen.
Qed.

Lemma cache_ok_extend c w w' l :
  cache_ok c w -> flags w' = flags w ++ l -> cache_ok c w'.
Proof.
  intros (Hk & Hv & Hopen & Hlen & Hpos) Hfl.
  unfold cache_ok. split_and!; auto.
  intros e He. rewrite Hfl. apply lookup_app_l_Some. by apply Hopen.
Qed.

Lemma cache_ok_quiet c w w' : cache_ok c w -> quiet w w' -> cache_ok c w'.
Proof.
  intros Hc (Hf & _). eapply cache_ok_extend; [exact Hc|].
  by rewrite Hf, app_nil_r.
Qed.

Record tidy (mf : MultiFileAppendable) (w : world) : Prop := Tidy {
  tidy_faults : faults w = [];
  tidy_dir : is_dir w (path mf);
  tidy_open : closed mf = false;
  tidy_cache : cache_ok (appendables mf) w;
  tidy_tail : flags w !! currApp mf = Some false;
  tidy_tail_out : currApp mf ∉ cache_handles mf;
  tidy_below : forall k, k ∈ cache_keys mf -> k < currAppID mf;
  tidy_owned : forall i, flags w !! i = Some false ->
                 i = currApp mf \/ i ∈ cache_handles mf;
  tidy_id : in_int64 (currAppID mf);
}.

Lemma tidy_quiet mf w w' : tidy mf w -> quiet w w' -> tidy mf w'.
Proof.
  intros [] Hq. pose proof Hq as (Hf & _ & Hfa & Hd).
  constructor; auto.
  - eapply cache_ok_quiet; eauto.
  - by rewrite Hf.
  - intros i. rewrite Hf. auto.
Qed.

(** In a tidy state at most one handle more than the cache holds is open. *)
Lemma tidy_open_count mf w :
  tidy mf w ->
  (open_count (heap w) <= S (length (cache.entries (appendables mf))))%nat.
Proof.
  intros []. rewrite open_count_count.
  pose proof (count_open_bound (currApp mf :: cache_handles mf) (flags w)) as Hb.
  simpl in Hb. unfold cache_handles in Hb at 2. rewrite length_map in Hb.
  apply Hb. intros i Hi. apply tidy_owned0 in Hi as [->|Hi]; [left|by right].
Qed.

Lemma allocates_lookup w w' h i :
  allocates w w' h ->
  flags w' !! i = Some false ->
  i = h \/ flags w !! i = Some false.
Proof.
  intros (-> & Hfl & _) Hi. rewrite Hfl in Hi.
  destruct (decide (i < length (flags w))%nat) as [Hlt|Hge].
  - right. by rewrite lookup_app_l in Hi.
  - left. apply lookup_lt_Some in Hi. rewrite length_app in Hi. simpl in Hi. lia.
Qed.

(** The rollover of a tidy, writable store succeeds and leaves it tidy,
    with the tail id incremented. *)
Lemma rollover_tidy mf w :
  tidy mf w -> readOnly mf = false -> currAppID mf < max_int64 ->
  exists mf' w',
    rollover mf w = (None, mf', w')
    /\ tidy mf' w'
    /\ currAppID mf' = currAppID mf + 1
    /\ cache.size (appendables mf') = cache.size (appendables mf)
    /\ (peak w <= peak w'
        <= Nat.max (peak w) (S (cache.size (appendables mf))))%nat.
Proof.
  intros Ht Hro Hmax. pose proof (tidy_open_count mf w Ht) as Hoc.
  destruct Ht as [Hfa Hdir Hop Hc Htail Hout Hbelow Hown Hid].
  assert (Hfind :
    cache.find (currAppID mf) (cache.entries (appendables mf)) = None).
  { apply find_None_of_key. intros Hin. apply Hbelow in Hin. lia. }
  destruct (put_evict (appendables mf) w (currAppID mf) (currApp mf)
              Hfa Hc Hfind Htail Hout)
    as (ej & c' & w1 & HPut & Hclose & Hc' & Hsz & (kept & Hent' & Hent)
        & Hfl1 & Hp1 & Hfa1 & Hd1).
  unfold rollover. rewrite HPut. lazy beta iota zeta.
  rewrite Hclose. lazy beta iota zeta.
  set (mf1 := set_currAppID (wrap64 (currAppID mf + 1))
                (set_appendables c' mf)).
  unfold openAppendable.
  match goal with
  | |- context [singleapp.Open ?d ?n ?o w1] =>
      destruct (single_Open_succeeds d n o w1 Hfa1) as (h & w2 & HO);
      [apply Hd1; exact Hdir|exact Hro|];
      pose proof (single_Open_cases d n o w1) as Halloc;
      rewrite HO in Halloc; rewrite HO
  end.
  lazy beta iota zeta.
  pose proof (single_SetOffset_quiet h 0 w2) as Hq.
  destruct (singleapp.SetOffset h 0 w2) as [x w3]. simpl in Hq.
  exists (set_currApp h mf1), w3.
  assert (Hw : wrap64 (currAppID mf + 1) = currAppID mf + 1).
  { apply wrap64_id. unfold in_int64 in *. lia. }
  pose proof Halloc as (Hh & Hfl2 & Hp2 & Hfa2 & Hd2).
  pose proof Hq as (Hfl3 & Hp3 & Hfa3 & Hd3).
  (* every handle open after the ejection is in the new cache *)
  assert (Hown1 : forall i, flags w1 !! i = Some false ->
                    i ∈ map snd (cache.entries c')).
  { intros i Hi. rewrite Hent', map_app. simpl.
    assert (Hi0 : flags w !! i = Some false
                  /\ (forall e, ej = Some e -> i <> snd e)).
    { rewrite Hfl1 in Hi. destruct ej as [e|]; [|split; [done|discriminate]].
      destruct (decide (i = snd e)) as [->|Hne].
      - assert (snd e < length (flags w))%nat.
        { apply lookup_lt_Some in Hi. by rewrite length_insert in Hi. }
        rewrite list_lookup_insert_eq in Hi by done. discriminate.
      - rewrite list_lookup_insert_ne in Hi by done.
        split; [done|]. by intros e' [= <-]. }
    destruct Hi0 as [Hi0 Hne]. apply Hown in Hi0 as [->|Hi0].
    - apply elem_of_app. right. left.
    - apply elem_of_app. left. unfold cache_handles in Hi0.
      rewrite Hent, map_app in Hi0. apply elem_of_app in Hi0 as [Hi0|Hi0]; [|done].
      destruct ej as [e|]; simpl in Hi0; [|inversion Hi0].
      apply list_elem_of_singleton in Hi0. exfalso. by eapply Hne. }
  assert (Hoc1 : (open_count (heap w1) <= cache.size (appendables mf))%nat).
  { rewrite open_count_count.
    pose proof (count_open_bound _ _ Hown1) as Hb. rewrite length_map in Hb.
    destruct Hc' as (_ & _ & _ & Hlen & _). lia. }
  pose proof (open_count_of_flags _ _ Hfl3) as Hoc3.
  assert (Hoc2 : open_count (heap w2) = S (open_count (heap w1))).
  { rewrite !open_count_count, Hfl2. unfold count_open.
    rewrite filter_app, length_app. simpl. lia. }
  destruct Hc as (_ & _ & _ & Hlen & Hpos).
  split; [reflexivity|]. split; [|simpl; split_and!; auto; lia].
  constructor; simpl; auto.
  - eapply cache_ok_quiet; [|exact Hq]. eapply cache_ok_extend; eauto.
  - rewrite Hfl3, Hfl2, Hh. rewrite lookup_app_r by lia.
    by rewrite Nat.sub_diag.
  - unfold cache_handles. simpl. intros Hin.
    apply (cache_ok_handle_lt _ _ _ Hc') in Hin.
    apply lookup_lt_Some in Hin. lia.
  - unfold cache_keys. simpl. rewrite Hent', map_app. simpl.
    intros k Hk. rewrite Hw. apply elem_of_app in Hk as [Hk|Hk].
    + assert (k < currAppID mf); [|lia]. apply Hbelow.
      unfold cache_keys. rewrite Hent, map_app. apply elem_of_app. by right.
    + apply list_elem_of_singleton in Hk. lia.
  - intros i Hi. rewrite Hfl3 in Hi.
    apply (allocates_lookup _ _ _ _ Halloc) in Hi as [->|Hi]; [by left|].
    right. by apply Hown1.
  - rewrite Hw. unfold in_int64 in *. unfold max_int64 in *. lia.
Qed.

Lemma tidy_quiet_peak mf w w' :
  tidy mf w -> quiet w w' ->
  (peak w <= peak w'
   <= Nat.max (peak w) (S (cache.size (appendables mf))))%nat.
Proof.
  intros Ht (_ & Hp & _). pose proof (tidy_open_count mf w Ht) as Hoc.
  destruct Ht as [_ _ _ (_ & _ & _ & Hlen & _) _ _ _ _ _]. lia.
Qed.

Lemma make_room_tidy mf w :
  tidy mf w -> readOnly mf = false -> currAppID mf < max_int64 ->
  exists av mf' w',
    make_room mf w = (None, av, mf', w')
    /\ tidy mf' w'
    /\ currAppID mf <= currAppID mf' <= currAppID mf + 1
    /\ cache.size (appendables mf') = cache.size (appendables mf)
    /\ (peak w <= peak w'
        <= Nat.max (peak w) (S (cache.size (appendables mf))))%nat.
Proof.
  intros Ht Hro Hmax. unfold make_room. destruct (_ <=? 0).
  - destruct (rollover_tidy mf w Ht Hro Hmax)
      as (mf' & w' & Hr & Ht' & Hid & Hsz & Hp).
    rewrite Hr. exists (fileSize mf'), mf', w'. split_and!; auto; lia.
  - eexists _, mf, w. split_and!; auto; lia.
Qed.

Lemma write_chunk_quiet bs n av mf w :
  quiet w (snd (write_chunk bs n av mf w)).
Proof.
  unfold write_chunk. destruct (_ || _); [apply quiet_refl|].
  match goal with
  | |- context [singleapp.Append ?h ?c w] =>
      pose proof (single_Append_quiet h c w) as Hq;
      destruct (singleapp.Append h c w) as [[[offn x]|e] w1]
  end; exact Hq.
Qed.

(** The loop of [Append] keeps a writable store tidy, as long as the tail
    id cannot overflow. *)
Lemma append_loop_tidy fuel bs off n mf w r mf' w' :
  tidy mf w -> readOnly mf = false ->
  currAppID mf + Z.of_nat fuel <= max_int64 ->
  append_loop fuel bs off n mf w = (r, mf', w') ->
  tidy mf' w'
  /\ cache.size (appendables mf') = cache.size (appendables mf)
  /\ (peak w <= peak w'
      <= Nat.max (peak w) (S (cache.size (appendables mf))))%nat.
Proof.
  revert off n mf w. induction fuel as [|fuel IH]; intros off n mf w Ht Hro Hb.
  - simpl. destruct (n <? _); simpl; intros [= <- <- <-];
      split_and!; auto; lia.
  - rewrite append_loop_S. destruct (n <? _); simpl negb; cbv iota;
      [|intros [= <- <- <-]; split_and!; auto; lia].
    destruct (make_room_tidy mf w Ht Hro ltac:(lia))
      as (av & mf1 & w1 & Hm & Ht1 & Hid1 & Hsz1 & Hp1).
    rewrite Hm. lazy beta iota zeta.
    pose proof (write_chunk_quiet bs n av mf1 w1) as Hq.
    destruct (write_chunk bs n av mf1 w1) as [[[[offn d]|e]| |] w2];
      simpl in Hq.
    all: pose proof (tidy_quiet _ _ _ Ht1 Hq) as Ht2.
    all: pose proof (tidy_quiet_peak _ _ _ Ht1 Hq) as Hp2.
    2,3,4: intros [= <- <- <-]; split_and!; auto; lia.
    intros Hl. apply IH in Hl as (Ht' & Hsz' & Hp'); auto.
    + split_and!; auto; try lia; congruence.
    + eapply make_room_config in Hm. destruct Hm as (_ & Hm & _). congruence.
    + lia.
Qed.

(** *** Reading below the tail *)

Lemma remove_not_key k l : k ∉ map fst l -> cache.remove k l = l.
Proof.
  induction l as [|[k' v'] l IH]; simpl; [reflexivity|].
  intros Hn. apply not_elem_of_cons in Hn as [Hne Hn].
  destruct (k =? k') eqn:E; [apply Z.eqb_eq in E; congruence|].
  by rewrite IH.
Qed.

(** [Get] on a hit only reorders the entries. *)
Lemma remove_find_perm k v l :
  NoDup (map fst l) -> cache.find k l = Some v ->
  cache.remove k l ++ [(k, v)] ≡ₚ l.
Proof.
  induction l as [|[k' v'] l IH]; simpl; [discriminate|].
  intros Hnd Hf. apply NoDup_cons in Hnd as [Hk' Hnd].
  destruct (k =? k') eqn:E.
  - apply Z.eqb_eq in E. subst k'. injection Hf as ->.
    rewrite remove_not_key by done.
    symmetry. apply Permutation_cons_append.
  - simpl. constructor. by apply IH.
Qed.

Lemma cache_ok_perm c c' w :
  cache.entries c' ≡ₚ cache.entries c -> cache.size c' = cache.size c ->
  cache_ok c w -> cache_ok c' w.
Proof.
  intros Hp Hs (Hk & Hv & Hopen & Hlen & Hpos). unfold cache_ok.
  rewrite Hp, Hs. split_and!; auto.
  intros e He. apply Hopen. by rewrite <- Hp.
Qed.

Lemma appendableFor_tidy off mf w r mf' w' k :
  tidy mf w -> appendableID off (fileSize mf) = Some k ->
  k < currAppID mf ->
  appendableFor off mf w = (r, mf', w') ->
  tidy mf' w'
  /\ cache.size (appendables mf') = cache.size (appendables mf)
  /\ currAppID mf' = currAppID mf
  /\ (peak w <= peak w'
      <= Nat.max (peak w) (S (S (cache.size (appendables mf)))))%nat.
Proof.
  intros Ht Hk Hlt. pose proof (tidy_open_count mf w Ht) as Hoc.
  pose proof Ht as [Hfa Hdir Hop Hc Htail Hout Hbelow Hown Hid].
  pose proof Hc as (Hnk & Hnv & Hopen & Hlen & Hpos).
  unfold appendableFor. rewrite Hop, Hk. unfold cache.Get.
  destruct (cache.find k (cache.entries (appendables mf))) as [v|] eqn:Hf.
  - (* hit *)
    intros [= <- <- <-]. simpl.
    pose proof (remove_find_perm _ _ _ Hnk Hf) as Hperm.
    split_and!; auto; try lia.
    constructor; simpl; auto.
    + eapply cache_ok_perm; [| |exact Hc]; simpl; auto.
    + unfold cache_handles. simpl. by rewrite Hperm.
    + unfold cache_keys. simpl. intros k'. rewrite Hperm. apply Hbelow.
    + unfold cache_handles. simpl. intros i. rewrite Hperm. apply Hown.
  - (* miss *)
    rewrite decide_True by reflexivity. simpl negb. cbv iota.
    assert (Hmf : set_appendables (appendables mf) mf = mf) by (by destruct mf).
    rewrite Hmf. unfold openAppendable.
    match goal with
    | |- context [singleapp.Open ?d ?n ?o w] =>
        pose proof (single_Open_cases d n o w) as Halloc;
        destruct (singleapp.Open d n o w) as [[h|e] w1]
    end.
    2: { intros [= <- <- <-].
         pose proof (tidy_quiet_peak _ _ _ Ht Halloc).
         split_and!; auto; try lia. eapply tidy_quiet; eauto. }
    pose proof Halloc as (Hh & Hfl1 & Hp1 & Hfa1 & Hd1).
    assert (Hc1 : cache_ok (appendables mf) w1)
      by (eapply cache_ok_extend; eauto).
    assert (Hh1 : flags w1 !! h = Some false).
    { rewrite Hfl1, Hh, lookup_app_r by lia. by rewrite Nat.sub_diag. }
    assert (Hhn : h ∉ map snd (cache.entries (appendables mf))).
    { intros Hin. apply (cache_ok_handle_lt _ _ _ Hc) in Hin.
      apply lookup_lt_Some in Hin. lia. }
    destruct (put_evict (appendables mf) w1 k h (Hfa1 Hfa) Hc1 Hf Hh1 Hhn)
      as (ej & c' & w2 & HPut & Hclose & Hc' & Hsz & (kept & Hent' & Hent)
          & Hfl2 & Hp2 & Hfa2 & Hd2).
    rewrite HPut. lazy beta iota zeta. rewrite Hclose.
    intros [= <- <- <-]. simpl.
    assert (Hoc1 : open_count (heap w1) = S (open_count (heap w))).
    { rewrite !open_count_count, Hfl1. unfold count_open.
      rewrite filter_app, length_app. simpl. lia. }
    assert (Hej : forall e, ej = Some e ->
              snd e ∈ cache_handles mf /\ snd e <> currApp mf
              /\ snd e ∉ map snd kept).
    { intros e ->. simpl in Hent. unfold cache_handles.
      rewrite Hent in Hnv |- *. simpl in *.
      apply NoDup_cons in Hnv as [Hne _]. split_and!; [left| |done].
      intros Heq. apply Hout. unfold cache_handles. rewrite Hent. simpl.
      rewrite <- Heq. left. }
    assert (Hflag : forall i, flags w2 !! i = Some false ->
              flags w1 !! i = Some false
              /\ forall e, ej = Some e -> i <> snd e).
    { intros i Hi. rewrite Hfl2 in Hi.
      destruct ej as [e|]; [|split; [done|discriminate]].
      destruct (decide (i = snd e)) as [->|Hne].
      - assert (snd e < length (flags w1))%nat.
        { apply lookup_lt_Some in Hi. by rewrite length_insert in Hi. }
        rewrite list_lookup_insert_eq in Hi by done. discriminate.
      - rewrite list_lookup_insert_ne in Hi by done.
        split; [done|]. by intros e' [= <-]. }
    split_and!; auto; try lia.
    constructor; simpl; auto.
    + rewrite Hfl2. destruct ej as [e|].
      * destruct (Hej e eq_refl) as (_ & Hne & _).
        rewrite list_lookup_insert_ne by done.
        rewrite Hfl1. by apply lookup_app_l_Some.
      * rewrite Hfl1. by apply lookup_app_l_Some.
    + unfold cache_handles. simpl. rewrite Hent', map_app. simpl.
      intros Hin. apply elem_of_app in Hin as [Hin|Hin].
      * apply Hout. unfold cache_handles. rewrite Hent, map_app.
        apply elem_of_app. by right.
      * apply list_elem_of_singleton in Hin.
        apply lookup_lt_Some in Htail. lia.
    + unfold cache_keys. simpl. rewrite Hent', map_app. simpl.
      intros k' Hk'. apply elem_of_app in Hk' as [Hk'|Hk'].
      * apply Hbelow. unfold cache_keys. rewrite Hent, map_app.
        apply elem_of_app. by right.
      * apply list_elem_of_singleton in Hk'. by subst.
    + unfold cache_handles. simpl. rewrite Hent', map_app. simpl.
      intros i Hi. apply Hflag in Hi as [Hi Hne].
      apply (allocates_lookup _ _ _ _ Halloc) in Hi as [->|Hi].
      * right. apply elem_of_app. right. left.
      * apply Hown in Hi as [->|Hi]; [by left|].
        right. apply elem_of_app. left.
        unfold cache_handles in Hi. rewrite Hent, map_app in Hi.
        apply elem_of_app in Hi as [Hi|Hi]; [|done].
        destruct ej as [e|]; simpl in Hi; [|inversion Hi].
        apply list_elem_of_singleton in Hi. exfalso. by eapply Hne.
Qed.

(** [ReadAt n off] touches only segments below the tail. *)
Definition reads_below (n : nat) (off : Z) (mf : MultiFileAppendable)
  : bool :=
  forallb
    (fun r => match appendableID (wrap64 (off + Z.of_nat r)) (fileSize mf) with
              | Some k => k <? currAppID mf
              | None => false
              end)
    (seq 0 n).

Lemma reads_below_at n off mf r :
  reads_below n off mf = true -> (r < n)%nat ->
  exists k, appendableID (wrap64 (off + Z.of_nat r)) (fileSize mf) = Some k
            /\ k < currAppID mf.
Proof.
  unfold reads_below. rewrite forallb_forall. intros Hall Hr.
  specialize (Hall r). rewrite in_seq in Hall. specialize (Hall ltac:(lia)).
  destruct (appendableID _ _) as [k|]; [|discriminate].
  exists k. split; [reflexivity|]. by apply Z.ltb_lt.
Qed.

Lemma read_loop_S fuel n off acc mf w :
  read_loop (S fuel) n off acc mf w
  = if negb (length acc <? n)%nat then (Ret (acc, None), mf, w) else
    let offr := wrap64 (off + Z.of_nat (length acc)) in
    let '(app, mf, w) := appendableFor offr mf w in
    match app with
    | Panic => (Panic, mf, w)
    | Timeout => (Timeout, mf, w)
    | Ret (Err e) => (Ret (acc, Some e), mf, w)
    | Ret (Ok app) =>
    match go_rem offr (fileSize mf) with
    | None => (Panic, mf, w)
    | Some x =>
    let '((out, err), w) := singleapp.ReadAt app (n - length acc) x w in
    let acc := acc ++ out in
    match err with
    | Some e =>
        if (if decide (e = EOF) then true else false)
           && (0 <? length out)%nat
        then read_loop fuel n off acc mf w
        else (Ret (acc, Some e), mf, w)
    | None => read_loop fuel n off acc mf w
    end end end.
Proof. reflexivity. Qed.

Lemma read_loop_tidy fuel n off acc mf w r mf' w' :
  tidy mf w -> reads_below n off mf = true ->
  read_loop fuel n off acc mf w = (r, mf', w') ->
  tidy mf' w'
  /\ cache.size (appendables mf') = cache.size (appendables mf)
  /\ currAppID mf' = currAppID mf
  /\ (peak w <= peak w'
      <= Nat.max (peak w) (S (S (cache.size (appendables mf)))))%nat.
Proof.
  revert acc mf w. induction fuel as [|fuel IH]; intros acc mf w Ht Hb.
  - simpl. destruct (_ <? _)%nat; simpl; intros [= <- <- <-];
      split_and!; auto; lia.
  - rewrite read_loop_S. destruct (length acc <? n)%nat eqn:Hlt;
      simpl negb; cbv iota;
      [|intros [= <- <- <-]; split_and!; auto; lia].
    apply Nat.ltb_lt in Hlt.
    destruct (reads_below_at _ _ _ _ Hb Hlt) as (k & Hk & Hkl).
    lazy zeta.
    destruct (appendableFor _ mf w) as [[app mf1] w1] eqn:Ha.
    pose proof (appendableFor_config _ _ _ _ _ _ Ha) as Hcfg.
    eapply appendableFor_tidy in Ha as (Ht1 & Hsz1 & Hid1 & Hp1); eauto.
    destruct app as [[app|e]| |];
      try (intros [= <- <- <-]; split_and!; auto; lia).
    destruct (go_rem _ _) as [x|];
      [|intros [= <- <- <-]; split_and!; auto; lia].
    match goal with
    | |- context [singleapp.ReadAt ?h ?m ?y w1] =>
        pose proof (single_ReadAt_quiet h m y w1) as Hq;
        destruct (singleapp.ReadAt h m y w1) as [[out err] w2]
    end.
    simpl in Hq.
    pose proof (tidy_quiet _ _ _ Ht1 Hq) as Ht2.
    pose proof (tidy_quiet_peak _ _ _ Ht1 Hq) as Hp2.
    assert (Hb1 : reads_below n off mf1 = true).
    { unfold reads_below in *. destruct Hcfg as (_ & _ & _ & _ & -> & _).
      by rewrite Hid1. }
    assert (Hrec : forall acc',
              read_loop fuel n off acc' mf1 w2 = (r, mf', w') ->
              tidy mf' w'
              /\ cache.size (appendables mf') = cache.size (appendables mf)
              /\ currAppID mf' = currAppID mf
              /\ (peak w <= peak w'
                  <= Nat.max (peak w)
                       (S (S (cache.size (appendables mf)))))%nat).
    { intros acc' Hl.
      apply IH in Hl as (Ht' & Hsz' & Hid' & Hp'); auto.
      split_and!; auto; try lia; congruence. }
    destruct err as [e|]; [|apply Hrec].
    destruct (_ && _); [apply Hrec|].
    intros [= <- <- <-]. split_and!; auto; lia.
Qed.

Lemma apply_entries_quiet fn es w :
  (forall k v w0, quiet w0 (snd (fn k v w0))) ->
  quiet w (snd (cache.apply_entries fn es w)).
Proof.
  intros Hfn. revert w. induction es as [|[k v] es IH]; intros w; simpl.
  - apply quiet_refl.
  - pose proof (Hfn k v w) as Hq.
    destruct (fn k v w) as [[e|] w1]; simpl in *; [exact Hq|].
    eapply quiet_trans; [exact Hq|apply IH].
Qed.

Lemma flush_quiet mf w : quiet w (snd (flush mf w)).
Proof.
  unfold flush. destruct (closed mf); [apply quiet_refl|].
  unfold cache.Apply.
  pose proof (apply_entries_quiet (fun _ v => singleapp.Flush v)
                (cache.entries (appendables mf)) w
                (fun _ v w0 => single_Flush_quiet v w0)) as Hq.
  destruct (cache.apply_entries _ _ w) as [[e|] w1]; simpl in *; [exact Hq|].
  eapply quiet_trans; [exact Hq|apply single_Flush_quiet].
Qed.

Lemma sync_quiet mf w : quiet w (snd (sync mf w)).
Proof.
  unfold sync. destruct (closed mf); [apply quiet_refl|].
  unfold cache.Apply.
  pose proof (apply_entries_quiet (fun _ v => singleapp.Sync v)
                (cache.entries (appendables mf)) w
                (fun _ v w0 => single_Sync_quiet v w0)) as Hq.
  destruct (cache.apply_entries _ _ w) as [[e|] w1]; simpl in *; [exact Hq|].
  eapply quiet_trans; [exact Hq|apply single_Sync_quiet].
Qed.

(** *** Runs that only append and read below the tail *)

(** The calls of such a run: [Append] (with a tail id that cannot
    overflow), [ReadAt] below the tail, [Flush] and [Sync]; no [SetOffset],
    no [Close], no file-system failure. *)
Definition gentle (o : op) (mf : MultiFileAppendable) : bool :=
  match o with
  | OpAppend bs => currAppID mf + Z.of_nat (length bs) <? max_int64
  | OpReadAt n off => reads_below n off mf
  | OpFlush | OpSync => true
  | OpSetOffset _ | OpClose | OpFaults _ => false
  end.

Fixpoint gentle_run (ops : list op) (s : MultiFileAppendable * world)
  : bool :=
  match ops with
  | [] => true
  | o :: ops' =>
      gentle o (fst s)
      && match step o s with
         | Some s' => gentle_run ops' s'
         | None => true
         end
  end.

Lemma step_tidy o mf w mf' w' :
  tidy mf w -> gentle o mf = true ->
  step o (mf, w) = Some (mf', w') ->
  tidy mf' w'
  /\ cache.size (appendables mf') = cache.size (appendables mf)
  /\ (peak w <= peak w'
      <= Nat.max (peak w) (S (S (cache.size (appendables mf)))))%nat.
Proof.
  intros Ht Hg. destruct o; simpl in Hg; try discriminate; unfold step.
  - destruct (Append bs mf w) as [[[r| |] mf1] w1] eqn:HA;
      intros [= <- <-].
    unfold Append in HA. destruct (closed mf);
      [injection HA as <- <- <-; split_and!; auto; lia|].
    destruct (readOnly mf) eqn:Hro;
      [injection HA as <- <- <-; split_and!; auto; lia|].
    destruct bs as [|b bs]; [injection HA as <- <- <-; split_and!; auto; lia|].
    apply Z.ltb_lt in Hg.
    apply append_loop_tidy in HA as (Ht' & Hsz & Hp); auto; [|lia].
    split_and!; auto; lia.
  - destruct (ReadAt n off mf w) as [[[r| |] mf1] w1] eqn:HR;
      intros [= <- <-].
    unfold ReadAt in HR. destruct n as [|n];
      [injection HR as <- <- <-; split_and!; auto; lia|].
    apply read_loop_tidy in HR as (Ht' & Hsz & _ & Hp); auto.
  - intros [= <- <-]. unfold Flush. pose proof (flush_quiet mf w) as Hq.
    pose proof (tidy_quiet_peak _ _ _ Ht Hq).
    split_and!; auto; try lia. eapply tidy_quiet; eauto.
  - intros [= <- <-]. unfold Sync. pose proof (sync_quiet mf w) as Hq.
    pose proof (tidy_quiet_peak _ _ _ Ht Hq).
    split_and!; auto; try lia. eapply tidy_quiet; eauto.
Qed.

Lemma gentle_run_cons o ops s :
  gentle_run (o :: ops) s
  = gentle o (fst s)
    && match step o s with
       | Some s' => gentle_run ops s'
       | None => true
       end.
Proof. reflexivity. Qed.

Lemma run_tidy ops mf w mf' w' :
  tidy mf w -> gentle_run ops (mf, w) = true ->
  run ops (mf, w) = Some (mf', w') ->
  tidy mf' w'
  /\ cache.size (appendables mf') = cache.size (appendables mf)
  /\ (peak w <= peak w'
      <= Nat.max (peak w) (S (S (cache.size (appendables mf)))))%nat.
Proof.
  revert mf w. induction ops as [|o ops IH]; intros mf w Ht Hg.
  - intros [= <- <-]. split_and!; auto; lia.
  - rewrite run_cons. rewrite gentle_run_cons in Hg.
    apply andb_prop in Hg as [Hg Hgr].
    destruct (step o (mf, w)) as [[mf1 w1]|] eqn:Hs; [|discriminate].
    intros Hr. destruct (step_tidy _ _ _ _ _ Ht Hg Hs) as (Ht1 & Hsz1 & Hp1).
    apply IH in Hr as (Ht' & Hsz' & Hp'); auto.
    split_and!; auto; try lia; congruence.
Qed.

Lemma digit_value_range c d : digit_value c = Some d -> 0 <= d <= 9.
Proof.
  unfold digit_value. destruct (_ && _) eqn:E; [|discriminate].
  intros [= <-]. apply andb_prop in E as [E1 E2].
  apply Z.leb_le in E1, E2. lia.
Qed.

Lemma parse_uint_nonneg cs acc z :
  0 <= acc -> parse_uint cs acc = Ok z -> 0 <= z.
Proof.
  revert acc. induction cs as [|c cs IH]; intros acc Hacc; simpl.
  - by intros [= <-].
  - destruct (digit_value c) as [d|] eqn:Hd; [|discriminate].
    apply digit_value_range in Hd.
    repeat case_match; try discriminate. apply IH. lia.
Qed.

Lemma ParseInt_range s z : ParseInt s = Ok z -> in_int64 z.
Proof.
  unfold ParseInt. destruct (chars_of_string s) as [|c cs]; [discriminate|].
  set (body := if _ || _ then cs else c :: cs).
  destruct body as [|c' cs'] eqn:Hb; [discriminate|].
  destruct (parse_uint (c' :: cs') 0) as [un|e] eqn:Hp; [|discriminate].
  apply parse_uint_nonneg in Hp; [|lia].
  unfold in_int64, min_int64, max_int64.
  destruct (Ascii.eqb c "-"); simpl.
  - destruct (2 ^ 63 <? un) eqn:E; [discriminate|].
    apply Z.ltb_ge in E. intros [= <-]. lia.
  - destruct (2 ^ 63 <=? un) eqn:E; [discriminate|].
    apply Z.leb_gt in E. intros [= <-]. lia.
Qed.

Lemma count_open_zero fl i : count_open fl = 0%nat -> fl !! i <> Some false.
Proof.
  unfold count_open. revert i. induction fl as [|b fl IH]; intros i; [done|].
  rewrite filter_cons. destruct b.
  - rewrite decide_False by discriminate. intros Hz.
    destruct i; simpl; [discriminate|by apply IH].
  - rewrite decide_True by reflexivity. discriminate.
Qed.

(** A store opened in a world without failures and without open handles
    is tidy. *)
Lemma Open_tidy p opts w0 mf w :
  Open p opts w0 = (Ret (Ok mf), w) ->
  faults w0 = [] -> open_count (heap w0) = 0%nat ->
  tidy mf w
  /\ cache.size (appendables mf) = Z.to_nat (multiapp.maxOpenedFiles opts)
  /\ (peak w0 <= peak w <= Nat.max (peak w0) 1)%nat.
Proof.
  intros HO Hfa Hoc.
  apply Open_inv in HO
    as (es & w2 & fn & Hv & Hes & Hd2 & Hh2 & Hp2 & Hfa2 & Hlast & Hso & Hc
        & _ & Hpath & _ & _ & _ & _ & Hcl).
  pose proof (single_Open_cases p fn (tail_options opts) w2) as Halloc.
  rewrite Hso in Halloc. pose proof Halloc as (Hh & Hfl & Hp & Hfa' & Hd).
  assert (Hfl2 : flags w2 = flags w0) by (unfold flags; by rewrite Hh2).
  rewrite open_count_count in Hoc.
  assert (Hoc2 : open_count (heap w2) = 0%nat).
  { by rewrite open_count_count, Hfl2. }
  unfold cache.NewLRUCache in Hc.
  destruct (multiapp.maxOpenedFiles opts <=? 0) eqn:Hm; [discriminate|].
  apply Z.leb_gt in Hm. injection Hc as Hc.
  split_and!; try lia; [|by rewrite <- Hc].
  constructor; auto.
  - rewrite Hpath. apply Hd. by exists es.
  - rewrite <- Hc. unfold cache_ok. simpl.
    split_and!; try apply NoDup_nil_2; try lia. intros e He. inversion He.
  - rewrite Hfl, Hh, lookup_app_r by lia. by rewrite Nat.sub_diag.
  - unfold cache_handles. rewrite <- Hc. simpl. apply not_elem_of_nil.
  - unfold cache_keys. rewrite <- Hc. simpl. intros k Hk. inversion Hk.
  - intros i Hi. apply (allocates_lookup _ _ _ _ Halloc) in Hi as [->|Hi];
      [by left|].
    rewrite Hfl2 in Hi. by apply count_open_zero in Hi.
  - destruct (last (sorted_names es)) as [fn'|].
    + destruct Hlast as [_ Hpi]. by apply ParseInt_range in Hpi.
    + destruct Hlast as [_ ->]. unfold in_int64, min_int64, max_int64. lia.
Qed.



(** *** How [ReadAt] finds the handle of a segment *)

Lemma close_ejected_answers ej w :
  same_answers w (snd (close_ejected ej w)).
Proof.
  destruct ej as [[k v]|]; simpl; [apply single_close_answers|].
  apply same_answers_refl.
Qed.


(** *** The offset and the length that [Append] returns *)


Lemma wrap64_range z : in_int64 (wrap64 z).
Proof.
  unfold in_int64, min_int64, max_int64, wrap64.
  pose proof (Z.mod_pos_bound (z + 2 ^ 63) (2 ^ 64) ltac:(lia)). lia.
Qed.





Lemma single_Append_offn h bs w offn x w' :
  singleapp.Append h bs w = (Ok (offn, x), w') ->
  offn = singleapp.Offset h w.
Proof.
  unfold singleapp.Append, singleapp.Offset.
  pose proof (fault_heap w) as Hh. destruct (fault w) as [b w1]. simpl in Hh.
  rewrite <- Hh. destruct b; [discriminate|].
  repeat case_match; try discriminate; by intros [= <- _ _].
Qed.

Lemma single_Append_nonempty h bs w r w' :
  singleapp.Append h bs w = (Ok r, w') -> bs <> [].
Proof.
  unfold singleapp.Append. intros HA ->.
  repeat case_match; discriminate.
Qed.

(** A chunk that was written is not empty, lies inside the buffer, and was
    written at the tail's offset. *)
Lemma write_chunk_offn bs n av mf w offn d w' :
  0 <= n -> Z.of_nat (length bs) <= max_int64 ->
  write_chunk bs n av mf w = (Ret (Ok (offn, d)), w') ->
  offn = singleapp.Offset (currApp mf) w
  /\ 0 < d /\ wrap64 (n + d) = n + d /\ n + d <= Z.of_nat (length bs).
Proof.
  intros Hn Hlen. unfold write_chunk.
  set (d0 := if _ =? NoCompression then _ else _).
  destruct (_ || _) eqn:Hp; [discriminate|].
  apply orb_false_elim in Hp as [Hp1 Hp2].
  apply Z.ltb_ge in Hp1, Hp2.
  match goal with
  | |- context [singleapp.Append ?h ?c w] =>
      destruct (singleapp.Append h c w) as [[[o x]|e] w1] eqn:HA
  end; [|discriminate].
  intros [= <- Hd <-]. split; [eapply single_Append_offn; eauto|].
  assert (Hd0 : 0 < d0).
  { apply single_Append_nonempty in HA.
    destruct (Z.to_nat d0) eqn:E; [by rewrite take_0 in HA|]. lia. }
  assert (Hdmax : d0 <= max_int64).
  { pose proof (wrap64_range (Z.of_nat (length bs) - n)) as Hr.
    unfold in_int64 in Hr. unfold d0, minInt.
    destruct (_ =? NoCompression); [|lia].
    destruct (av <=? _) eqn:E; [apply Z.leb_le in E|]; lia. }
  rewrite <- Hd.
  assert (Hw : wrap64 (n + d0) = n + d0).
  { unfold max_int64 in *.
    destruct (decide (n + d0 <= 2 ^ 63 - 1)) as [Hle|Hgt].
    - apply wrap64_id. unfold in_int64, min_int64, max_int64. lia.
    - exfalso. assert (wrap64 (n + d0) = n + d0 - 2 ^ 64); [|lia].
      unfold wrap64.
      replace (n + d0 + 2 ^ 63) with ((n + d0 - 2 ^ 63) + 1 * 2 ^ 64) by lia.
      rewrite Z_mod_plus_full, Z.mod_small; lia. }
  split_and!; auto; lia.
Qed.

Lemma close_ejected_cases ej w :
  match close_ejected ej w with
  | (Some _, w') => quiet w w'
  | (None, w') =>
      (faults w = [] -> faults w' = [])
      /\ fs w' = fs w /\ length (heap w') = length (heap w)
  end.
Proof.
  destruct ej as [[k v]|]; simpl; [|auto].
  unfold singleapp.Close.
  destruct (fault_cases w) as (b & w1 & Hf & Hfs & Hh & _ & Hfl). rewrite Hf.
  pose proof (fault_quiet w) as Hq. rewrite Hf in Hq. simpl in Hq.
  destruct b; [exact Hq|].
  destruct (heap w1 !! v) as [a|]; [|exact Hq].
  destruct (a_closed a); [exact Hq|]. simpl.
  rewrite length_insert. split_and!; auto; try congruence.
  intros E. apply Hfl in E. tauto.
Qed.

(** After a successful rollover the tail is a handle at offset 0 on the
    next segment. *)
Lemma rollover_fresh_offset mf w mf' w' :
  faults w = [] -> rollover mf w = (None, mf', w') ->
  singleapp.Offset (currApp mf') w' = 0
  /\ currAppID mf' = wrap64 (currAppID mf + 1).
Proof.
  intros Hfa. unfold rollover.
  destruct (cache.Put _ _ _) as [[ej err] c] eqn:HPut.
  destruct err; [discriminate|].
  pose proof (close_ejected_cases ej w) as Hce.
  destruct (close_ejected ej w) as [[e|] w1]; [discriminate|].
  destruct Hce as (Hfa1 & _ & _). specialize (Hfa1 Hfa).
  unfold openAppendable.
  match goal with
  | |- context [singleapp.Open ?d ?n ?o w1] =>
      pose proof (single_Open_cases d n o w1) as Halloc;
      destruct (singleapp.Open d n o w1) as [[h|e] w2] eqn:HO
  end; [|discriminate].
  destruct Halloc as (_ & _ & _ & Hfa2 & _). specialize (Hfa2 Hfa1).
  apply single_open_metadata in HO as (-> & a & Hheap & Hd & Hn & Hcl & Hcase).
  assert (Hfile : exists f, read_file w2 (a_dir a) (a_name a) = Some f).
  { rewrite Hd, Hn. destruct (read_file w1 _ _) as [f|] eqn:Hrf.
    - destruct Hcase as (_ & _ & _ & Hfs & _). exists f.
      unfold read_file in *. by rewrite Hfs.
    - destruct Hcase as (_ & _ & _ & _ & _ & _ & Hrf'). eauto. }
  destruct Hfile as [f Hf].
  unfold singleapp.SetOffset. rewrite (fault_free w2 Hfa2).
  rewrite Hheap, lookup_app_r, Nat.sub_diag by lia. simpl.
  rewrite Hcl, Hf. simpl.
  destruct (Z.of_nat (length (f_data f)) <? 0) eqn:E;
    [apply Z.ltb_lt in E; lia|].
  intros [= <- <-]. simpl. unfold singleapp.Offset. simpl.
  rewrite list_lookup_insert_eq by (rewrite length_app; simpl; lia).
  split; reflexivity.
Qed.

Lemma append_loop_later fuel bs off n mf w start n' mf' w' :
  0 < n <= Z.of_nat (length bs) -> Z.of_nat (length bs) <= max_int64 ->
  append_loop fuel bs off n mf w = (Ret (start, n', None), mf', w') ->
  start = off /\ n' = Z.of_nat (length bs).
Proof.
  revert off n mf w. induction fuel as [|fuel IH]; intros off n mf w Hn Hlen.
  - simpl. destruct (n <? _) eqn:E; simpl; [discriminate|].
    apply Z.ltb_ge in E. intros [= <- <- <- <-]. split; lia.
  - rewrite append_loop_S. destruct (n <? _) eqn:E; simpl negb; cbv iota.
    2: { apply Z.ltb_ge in E. intros [= <- <- <- <-]. split; lia. }
    destruct (make_room mf w) as [[[e av] mf1] w1].
    destruct e; [discriminate|].
    destruct (write_chunk bs n av mf1 w1) as [[[[offn d]|e]| |] w2] eqn:Hw;
      try discriminate.
    apply write_chunk_offn in Hw as (_ & Hd & Hwr & Hle); [|lia|lia].
    destruct (n =? 0) eqn:E0; [apply Z.eqb_eq in E0; lia|].
    rewrite Hwr. apply IH; lia.
Qed.


(** *** Segment names determine segment ids *)

Definition digit_of (c : ascii) : Z := Z.of_nat (nat_of_ascii c) - 48.

(** The number that a string of decimal digits denotes. *)
Definition value_be (cs : list ascii) : Z :=
  fold_left (fun acc c => acc * 10 + digit_of c) cs 0.

Lemma digit_of_digit_char d : 0 <= d <= 9 -> digit_of (digit_char d) = d.
Proof.
  intros Hd. unfold digit_of, digit_char.
  rewrite nat_ascii_embedding.
  - change (nat_of_ascii zero_char) with 48%nat. lia.
  - change (nat_of_ascii zero_char) with 48%nat. lia.
Qed.

Lemma value_be_snoc cs c : value_be (cs ++ [c]) = value_be cs * 10 + digit_of c.
Proof. unfold value_be. rewrite fold_left_app. reflexivity. Qed.

Lemma value_be_zeros m cs :
  value_be (repeat zero_char m ++ cs) = value_be cs.
Proof.
  unfold value_be. rewrite fold_left_app.
  assert (fold_left (fun acc c => acc * 10 + digit_of c)
            (repeat zero_char m) 0 = 0) as ->; [|reflexivity].
  induction m as [|m IH]; simpl; [reflexivity|exact IH].
Qed.

Lemma value_decimal_le fuel k :
  0 <= k < 10 ^ Z.of_nat fuel ->
  value_be (map digit_char (rev (digits_le fuel k))) = k.
Proof.
  revert k. induction fuel as [|fuel IH]; intros k Hk.
  - change (Z.of_nat 0) with 0 in Hk. rewrite Z.pow_0_r in Hk.
    assert (k = 0) as -> by lia. reflexivity.
  - simpl digits_le. destruct (k <? 10) eqn:E.
    + apply Z.ltb_lt in E. simpl. unfold value_be. simpl.
      rewrite digit_of_digit_char by lia. lia.
    + apply Z.ltb_ge in E. simpl rev. rewrite map_app. simpl map.
      pose proof (Z.mod_pos_bound k 10 ltac:(lia)) as Hm.
      rewrite value_be_snoc, IH.
      * rewrite digit_of_digit_char by lia.
        pose proof (Z.div_mod k 10 ltac:(lia)). lia.
      * rewrite Nat2Z.inj_succ, Z.pow_succ_r in Hk by lia.
        split; [apply Z.div_pos; lia|].
        apply Z.div_lt_upper_bound; lia.
Qed.

Lemma value_sprintf_08d k :
  0 <= k <= max_int64 -> value_be (sprintf_08d k) = k.
Proof.
  intros Hk. unfold sprintf_08d.
  destruct (k <? 0) eqn:E; [apply Z.ltb_lt in E; lia|].
  unfold pad_zeros. rewrite value_be_zeros. unfold decimal.
  apply value_decimal_le. unfold max_int64 in Hk.
  change (Z.of_nat 20) with 20. lia.
Qed.

Lemma chars_of_string_of_chars cs : chars_of_string (string_of_chars cs) = cs.
Proof. apply list_ascii_of_string_of_list_ascii. Qed.

(** Distinct segment ids have distinct file names. *)
Lemma appendableName_inj k1 k2 ext :
  0 <= k1 <= max_int64 -> 0 <= k2 <= max_int64 ->
  appendableName k1 ext = appendableName k2 ext -> k1 = k2.
Proof.
  intros H1 H2 Heq. unfold appendableName in Heq.
  apply (f_equal chars_of_string) in Heq.
  rewrite !chars_of_string_of_chars in Heq.
  apply app_inv_tail in Heq.
  rewrite <- (value_sprintf_08d k1 H1), <- (value_sprintf_08d k2 H2).
  by rewrite Heq.
Qed.

(** *** Writing into a file *)

Lemma write_at_length off bs data :
  (off <= length data)%nat ->
  length (write_at off bs data)
  = Nat.max (off + length bs) (length data).
Proof.
  intros Hoff. unfold write_at.
  rewrite !length_app, length_take, length_drop. lia.
Qed.

Lemma write_at_lookup_new off bs data i :
  (off <= length data)%nat -> (i < length bs)%nat ->
  write_at off bs data !! (off + i)%nat = bs !! i.
Proof.
  intros Hoff Hi. unfold write_at.
  rewrite lookup_app_r by (rewrite length_take; lia).
  rewrite length_take, Nat.min_l by lia.
  replace (off + i - off)%nat with i by lia.
  by rewrite lookup_app_l.
Qed.

Lemma write_at_lookup_old off bs data i :
  (i < off)%nat -> (off <= length data)%nat ->
  write_at off bs data !! i = data !! i.
Proof.
  intros Hi Hoff. unfold write_at.
  rewrite lookup_app_l by (rewrite length_take; lia).
  by rewrite lookup_take_lt.
Qed.

(** *** Exact effects of the calls of a handle *)

Lemma read_write_file d n f w d' n' :
  is_dir w d ->
  read_file (write_file d n f w) d' n'
  = if decide (d' = d /\ n' = n) then Some f else read_file w d' n'.
Proof.
  intros [es Hd]. unfold write_file, read_file. rewrite Hd. simpl.
  destruct (decide (d' = d)) as [->|Hne].
  - rewrite lookup_insert_eq, Hd.
    destruct (decide (n' = n)) as [->|Hnn].
    + rewrite lookup_insert_eq, decide_True by done. reflexivity.
    + rewrite lookup_insert_ne by done. rewrite decide_False by tauto.
      reflexivity.
  - rewrite lookup_insert_ne by done. rewrite decide_False by tauto.
    reflexivity.
Qed.

Lemma read_file_is_dir w d n f : read_file w d n = Some f -> is_dir w d.
Proof.
  unfold read_file, is_dir. destruct (fs w !! d) as [[es|f0]|]; try discriminate.
  eauto.
Qed.

Lemma fault_read_file w d n : read_file (snd (fault w)) d n = read_file w d n.
Proof. unfold read_file. by rewrite fault_fs. Qed.

(** A successful [Append] on an uncompressed handle writes the bytes at the
    handle's offset and advances the offset by their number. *)
Lemma single_Append_effect h bs w offn x w' :
  singleapp.Append h bs w = (Ok (offn, x), w') ->
  singleapp.CompressionFormat h w = NoCompression ->
  exists a f,
    heap w !! h = Some a /\ a_closed a = false
    /\ read_file w (a_dir a) (a_name a) = Some f
    /\ offn = a_offset a
    /\ heap w' = <[h := set_a_offset (a_offset a + Z.of_nat (length bs)) a]>
                   (heap w)
    /\ (forall d n,
          read_file w' d n
          = if decide (d = a_dir a /\ n = a_name a)
            then Some (File (f_meta f) (f_cf f) (f_cl f)
                         (write_at (Z.to_nat (a_offset a)) bs (f_data f)))
            else read_file w d n)
    /\ (faults w = [] -> faults w' = []).
Proof.
  unfold singleapp.Append, singleapp.CompressionFormat.
  destruct (fault_cases w) as (b & w1 & Hf & Hfs & Hh & _ & Hfl). rewrite Hf.
  destruct b; [discriminate|]. rewrite <- Hh.
  destruct (heap w1 !! h) as [a|] eqn:Ha; [|discriminate].
  destruct (a_closed a) eqn:Hc; [discriminate|].
  destruct (a_readOnly a); [discriminate|].
  destruct bs as [|b0 bs0] eqn:Hbs; [discriminate|]. rewrite <- Hbs.
  destruct (read_file w1 (a_dir a) (a_name a)) as [f|] eqn:Hrf; [|discriminate].
  intros HA Hcf. rewrite Hcf in HA. simpl in HA.
  injection HA as <- _ <-.
  assert (Hrf' : read_file w (a_dir a) (a_name a) = Some f).
  { unfold read_file in *. by rewrite <- Hfs. }
  exists a, f. split_and!; auto.
  - simpl. by rewrite write_file_heap.
  - intros d n. unfold read_file at 1. simpl.
    change (match fs (write_file (a_dir a) (a_name a) ?f' w1) !! d with
            | Some (Dir es) => es !! n
            | _ => None
            end) with (read_file (write_file (a_dir a) (a_name a) f' w1) d n).
    rewrite read_write_file by (eapply read_file_is_dir; eauto).
    case_decide; [reflexivity|]. unfold read_file. by rewrite Hfs.
  - intros E. simpl. rewrite write_file_faults. apply Hfl in E. tauto.
Qed.

(** A successful [Close] only sets the flag of the handle. *)
Lemma single_Close_effect h w w' :
  singleapp.Close h w = (None, w') ->
  exists a,
    heap w !! h = Some a /\ a_closed a = false
    /\ heap w' = <[h := set_a_closed a]> (heap w)
    /\ fs w' = fs w /\ (faults w = [] -> faults w' = []).
Proof.
  unfold singleapp.Close.
  destruct (fault_cases w) as (b & w1 & Hf & Hfs & Hh & _ & Hfl). rewrite Hf.
  destruct b; [discriminate|]. rewrite <- Hh.
  destruct (heap w1 !! h) as [a|] eqn:Ha; [|discriminate].
  destruct (a_closed a) eqn:Hc; [discriminate|].
  intros [= <-]. exists a. simpl. split_and!; auto.
  intros E. apply Hfl in E. tauto.
Qed.

(** [SetOffset] changes nothing but the offset of the handle. *)
Lemma single_SetOffset_effect h x w :
  let w' := snd (singleapp.SetOffset h x w) in
  fs w' = fs w /\ (faults w = [] -> faults w' = [])
  /\ (heap w' = heap w
      \/ exists a, heap w !! h = Some a
                   /\ heap w' = <[h := set_a_offset x a]> (heap w)).
Proof.
  unfold singleapp.SetOffset.
  destruct (fault_cases w) as (b & w1 & Hf & Hfs & Hh & _ & Hfl). rewrite Hf.
  assert (Hfl' : faults w = [] -> faults w1 = []).
  { intros E. apply Hfl in E. tauto. }
  destruct b; [simpl; auto|].
  destruct (heap w1 !! h) as [a|] eqn:Ha; [|simpl; auto].
  destruct (a_closed a); [simpl; auto|].
  destruct (read_file w1 _ _); [|simpl; auto].
  destruct (_ || _); simpl; [auto|].
  split_and!; auto. right. exists a. rewrite <- Hh. auto.
Qed.

Lemma single_Open_effect d n o w h w' :
  singleapp.Open d n o w = (Ok h, w') ->
  h = length (heap w)
  /\ exists a,
       heap w' = heap w ++ [a] /\ a_dir a = d /\ a_name a = n
       /\ a_closed a = false /\ (faults w = [] -> faults w' = [])
       /\ match read_file w d n with
          | Some f =>
              a_cf a = f_cf f
              /\ a_offset a = Z.of_nat (length (f_data f))
              /\ forall d' n', read_file w' d' n' = read_file w d' n'
          | None =>
              a_cf a = singleapp.compressionFormat o /\ a_offset a = 0
              /\ forall d' n',
                   read_file w' d' n'
                   = if decide (d' = d /\ n' = n)
                     then Some (File (singleapp.metadata o)
                                  (singleapp.compressionFormat o)
                                  (singleapp.compressionLevel o) [])
                     else read_file w d' n'
          end.
Proof.
  unfold singleapp.Open.
  destruct (fault_cases w) as (b & w1 & Hf & Hfs & Hh & _ & Hfl). rewrite Hf.
  assert (Hfl' : faults w = [] -> faults w1 = []).
  { intros E. apply Hfl in E. tauto. }
  assert (Hrf : forall d' n', read_file w1 d' n' = read_file w d' n').
  { intros d' n'. unfold read_file. by rewrite Hfs. }
  destruct b; [discriminate|]. rewrite <- Hh, <- (Hrf d n).
  unfold read_file at 1.
  destruct (fs w1 !! d) as [[es|f0]|] eqn:Hd; try discriminate.
  destruct (es !! n) as [f|] eqn:Hn.
  - intros [= <- <-]. split; [reflexivity|]. eexists. simpl.
    split_and!; try reflexivity; auto.
  - destruct (singleapp.readOnly o); [discriminate|].
    intros [= <- <-]. rewrite write_file_heap. split; [reflexivity|].
    eexists. split; [reflexivity|]. simpl.
    split_and!; try reflexivity.
    + rewrite write_file_faults. auto.
    + intros d' n'. rewrite <- Hrf.
      rewrite <- (read_write_file d n _ w1 d' n') by (by exists es).
      reflexivity.
Qed.

(** *** Stores whose handles and files are consistent *)

(** Handle [v] is an open, uncompressed handle on the file of segment [k]. *)
Definition serves (mf : MultiFileAppendable) (w : world) (k : Z) (v : nat)
  : Prop :=
  exists a,
    heap w !! v = Some a /\ a_closed a = false /\ a_dir a = path mf
    /\ a_name a = appendableName k (fileExt mf) /\ a_cf a = NoCompression.

Definition servesb (mf : MultiFileAppendable) (w : world) (k : Z) (v : nat)
  : bool :=
  match heap w !! v with
  | Some a =>
      negb (a_closed a) && String.eqb (a_dir a) (path mf)
      && String.eqb (a_name a) (appendableName k (fileExt mf))
      && (a_cf a =? NoCompression)
  | None => false
  end.

(** The byte stored at logical offset [p]. *)
Definition stored (mf : MultiFileAppendable) (w : world) (p : Z)
  : option byte :=
  match read_file w (path mf)
          (appendableName (p / fileSize mf) (fileExt mf)) with
  | Some f => f_data f !! Z.to_nat (p mod fileSize mf)
  | None => None
  end.

(** The state in which [Append] and [ReadAt] agree: no failure is pending,
    the tail is an open uncompressed handle on the file of segment
    [currAppID] with its offset inside that file, every file of the
    directory is uncompressed, and every cache entry is an open handle on
    the file of its key. *)
Record sound (mf : MultiFileAppendable) (w : world) : Prop := Sound {
  sound_faults : faults w = [];
  sound_size : 0 < fileSize mf;
  sound_id : 0 <= currAppID mf;
  sound_tail : serves mf w (currAppID mf) (currApp mf);
  sound_tail_off :
    exists f,
      read_file w (path mf) (appendableName (currAppID mf) (fileExt mf))
      = Some f
      /\ 0 <= singleapp.Offset (currApp mf) w <= Z.of_nat (length (f_data f))
      /\ singleapp.Offset (currApp mf) w <= max_int64;
  sound_files :
    forall n f, read_file w (path mf) n = Some f -> f_cf f = NoCompression;
  sound_cache :
    forall k v, (k, v) ∈ cache.entries (appendables mf) ->
      0 <= k <= max_int64 /\ serves mf w k v;
  sound_keys : NoDup (cache_keys mf);
}.

Definition files_uncompressed (mf : MultiFileAppendable) (w : world)
  : bool :=
  match fs w !! path mf with
  | Some (Dir es) =>
      forallb (fun nf => f_cf (snd nf) =? NoCompression) (map_to_list es)
  | _ => false
  end.

Definition tail_in_file (mf : MultiFileAppendable) (w : world) : bool :=
  match read_file w (path mf)
          (appendableName (currAppID mf) (fileExt mf)) with
  | Some f =>
      (0 <=? singleapp.Offset (currApp mf) w)
      && (singleapp.Offset (currApp mf) w <=? Z.of_nat (length (f_data f)))
      && (singleapp.Offset (currApp mf) w <=? max_int64)
  | None => false
  end.

(** The same, as a check that can be run. *)
Definition consistent (mf : MultiFileAppendable) (w : world) : bool :=
  match faults w with [] => true | _ => false end
  && (0 <? fileSize mf) && (0 <=? currAppID mf)
  && servesb mf w (currAppID mf) (currApp mf)
  && tail_in_file mf w
  && files_uncompressed mf w
  && forallb (fun e => (0 <=? fst e) && (fst e <=? max_int64)
                       && servesb mf w (fst e) (snd e))
       (cache.entries (appendables mf))
  && bool_decide (NoDup (cache_keys mf)).

Lemma servesb_serves mf w k v : servesb mf w k v = true -> serves mf w k v.
Proof.
  unfold servesb, serves. destruct (heap w !! v) as [a|]; [|discriminate].
  intros Hb. repeat (apply andb_prop in Hb as [Hb ?]).
  exists a. split_and!; auto.
  - by destruct (a_closed a).
  - by apply String.eqb_eq.
  - by apply String.eqb_eq.
  - by apply Z.eqb_eq.
Qed.

Lemma consistent_sound mf w : consistent mf w = true -> sound mf w.
Proof.
  unfold consistent. intros Hb.
  apply andb_prop in Hb as [Hb Hkeys]. apply andb_prop in Hb as [Hb Hcache].
  apply andb_prop in Hb as [Hb Hfiles]. apply andb_prop in Hb as [Hb Htoff].
  apply andb_prop in Hb as [Hb Htail]. apply andb_prop in Hb as [Hb Hid].
  apply andb_prop in Hb as [Hfa Hsz].
  constructor.
  - by destruct (faults w).
  - by apply Z.ltb_lt.
  - by apply Z.leb_le.
  - by apply servesb_serves.
  - unfold tail_in_file in Htoff.
    destruct (read_file _ _ _) as [f|]; [|discriminate].
    apply andb_prop in Htoff as [Htoff H3].
    apply andb_prop in Htoff as [H1 H2].
    apply Z.leb_le in H1, H2, H3. exists f. auto.
  - intros n f Hrf. unfold files_uncompressed, read_file in *.
    destruct (fs w !! path mf) as [[es|f0]|]; try discriminate.
    rewrite forallb_forall in Hfiles. specialize (Hfiles (n, f)).
    apply Z.eqb_eq. apply Hfiles. apply list_elem_of_In.
    by apply elem_of_map_to_list.
  - intros k v Hin. rewrite forallb_forall in Hcache.
    apply list_elem_of_In in Hin. apply Hcache in Hin. simpl in Hin.
    apply andb_prop in Hin as [Hin Hs]. apply andb_prop in Hin as [H1 H2].
    apply Z.leb_le in H1, H2. split; [lia|by apply servesb_serves].
  - by apply bool_decide_eq_true in Hkeys.
Qed.

Lemma keys_remove_subset k l x :
  x ∈ map fst (cache.remove k l) -> x ∈ map fst l /\ x <> k.
Proof.
  intros Hx. apply list_elem_of_fmap in Hx as (e & -> & He).
  apply elem_remove in He as [He Hne]. split; [|exact Hne].
  apply list_elem_of_fmap. by exists e.
Qed.

Lemma keys_remove_NoDup k l :
  NoDup (map fst l) -> NoDup (map fst (cache.remove k l)).
Proof.
  induction l as [|[k' v'] l IH]; simpl; [done|].
  intros Hnd. apply NoDup_cons in Hnd as [Hk' Hnd].
  destruct (k =? k'); [auto|]. simpl. apply NoDup_cons. split; [|auto].
  intros Hin. apply keys_remove_subset in Hin as [Hin _]. done.
Qed.

Lemma Put_keys_NoDup k v c r c' :
  cache.Put k v c = (r, c') ->
  NoDup (map fst (cache.entries c)) -> NoDup (map fst (cache.entries c')).
Proof.
  unfold cache.Put. intros HP Hnd.
  destruct (cache.find k (cache.entries c)) as [v0|] eqn:Hf.
  - injection HP as _ <-. simpl. rewrite map_app. simpl.
    apply NoDup_app. split_and!; [by apply keys_remove_NoDup| |apply NoDup_singleton].
    intros x Hx Hx'. apply list_elem_of_singleton in Hx'. subst.
    apply keys_remove_subset in Hx as [_ Hx]. done.
  - apply find_None_key in Hf.
    assert (Hsnoc : forall es, NoDup (map fst es) -> k ∉ map fst es ->
              NoDup (map fst (es ++ [(k, v)]))).
    { intros es Hes Hk. rewrite map_app. simpl.
      apply NoDup_app. split_and!; [done| |apply NoDup_singleton].
      intros x Hx Hx'. apply list_elem_of_singleton in Hx'. by subst. }
    destruct (_ <? _)%nat.
    + injection HP as _ <-. simpl. by apply Hsnoc.
    + destruct (cache.entries c) as [|e0 es] eqn:Hes.
      * injection HP as _ <-. simpl. apply NoDup_singleton.
      * injection HP as _ <-. simpl. simpl in Hnd, Hf.
        apply NoDup_cons in Hnd as [_ Hnd].
        apply not_elem_of_cons in Hf as [_ Hf]. by apply Hsnoc.
Qed.

Lemma close_ejected_effect ej w w1 :
  close_ejected ej w = (None, w1) ->
  fs w1 = fs w /\ (faults w = [] -> faults w1 = [])
  /\ length (heap w1) = length (heap w)
  /\ (forall v, (forall e, ej = Some e -> v <> snd e) ->
        heap w1 !! v = heap w !! v).
Proof.
  destruct ej as [[k0 v0]|]; simpl.
  - intros Hc. apply single_Close_effect in Hc as (a & Ha & _ & Hh & Hfs & Hfa).
    rewrite Hh, length_insert. split_and!; auto.
    intros v Hv. apply list_lookup_insert_ne. intros Heq.
    apply (Hv (k0, v0)); [reflexivity|]. simpl. congruence.
  - intros [= <-]. split_and!; auto.
Qed.

(** What matters of a handle for serving a segment. *)
Definition ident (a : AppendableFile) : bool * string * string * Z :=
  (a_closed a, a_dir a, a_name a, a_cf a).

Lemma serves_transfer mf mf' w w' k v :
  serves mf w k v ->
  path mf' = path mf -> fileExt mf' = fileExt mf ->
  ident <$> (heap w' !! v) = ident <$> (heap w !! v) ->
  serves mf' w' k v.
Proof.
  intros (a & Ha & Hc & Hd & Hn & Hcf) Hp He Hid.
  rewrite Ha in Hid. destruct (heap w' !! v) as [a'|] eqn:Ha'; [|discriminate].
  simpl in Hid. unfold ident in Hid. injection Hid as H1 H2 H3 H4.
  exists a'. rewrite Hp, He. split_and!; congruence.
Qed.

Lemma serves_lt mf w k v : serves mf w k v -> (v < length (heap w))%nat.
Proof. intros (a & Ha & _). by apply lookup_lt_Some in Ha. Qed.

(** Two handles that serve segments of the same store are distinct when
    the segments are. *)
Lemma serves_inj mf w k1 k2 v :
  serves mf w k1 v -> serves mf w k2 v ->
  0 <= k1 <= max_int64 -> 0 <= k2 <= max_int64 -> k1 = k2.
Proof.
  intros (a1 & Ha1 & _ & _ & Hn1 & _) (a2 & Ha2 & _ & _ & Hn2 & _) H1 H2.
  rewrite Ha1 in Ha2. injection Ha2 as <-.
  apply (appendableName_inj k1 k2 (fileExt mf)); auto. congruence.
Qed.

Lemma read_file_fs w w' d n : fs w' = fs w -> read_file w' d n = read_file w d n.
Proof. unfold read_file. by intros ->. Qed.

Lemma single_CompressionFormat_serves mf w k v :
  serves mf w k v -> singleapp.CompressionFormat v w = NoCompression.
Proof.
  intros (a & Ha & _ & _ & _ & Hcf). unfold singleapp.CompressionFormat.
  by rewrite Ha.
Qed.

(** A successful rollover of a sound store leaves it sound, on the next
    segment, at offset 0, and writes no byte. *)
Lemma rollover_sound mf w mf' w' :
  sound mf w -> currAppID mf < max_int64 ->
  rollover mf w = (None, mf', w') ->
  sound mf' w'
  /\ currAppID mf' = currAppID mf + 1
  /\ singleapp.Offset (currApp mf') w' = 0
  /\ (forall p, stored mf' w' p = stored mf w p).
Proof.
  intros Hs Hmax Hr.
  pose proof (rollover_config _ _ _ _ _ Hr) as (Hpath & _ & _ & _ & HfS & Hext).
  pose proof (rollover_fresh_offset mf w mf' w' (sound_faults _ _ Hs) Hr)
    as [Hoff Hid].
  destruct Hs as [Hfa Hsz Hid0 Htail Htoff Hfiles Hcache Hkeys].
  rewrite wrap64_id in Hid
    by (unfold in_int64, min_int64, max_int64 in *; lia).
  unfold rollover in Hr.
  destruct (cache.Put _ _ _) as [[ej err] c] eqn:HPut.
  pose proof (Put_spec _ _ _ _ _ _ HPut) as (-> & _ & Hfind & Hsub & Hej & _).
  pose proof (Put_keys_NoDup _ _ _ _ _ HPut Hkeys) as Hkeys'.
  destruct (close_ejected ej w) as [[e|] w1] eqn:Hce; [discriminate|].
  apply close_ejected_effect in Hce as (Hfs1 & Hfa1 & Hlen1 & Hheap1).
  unfold openAppendable in Hr. simpl in Hr.
  match type of Hr with
  | context [singleapp.Open ?d ?n ?o w1] =>
      destruct (singleapp.Open d n o w1) as [[h|e] w2] eqn:HO;
      [|discriminate]; set (opts := o) in *
  end.
  apply single_Open_effect in HO
    as (-> & a & Hheap2 & Hd & Hn & Hcl & Hfa2 & Hcase).
  pose proof (single_SetOffset_effect (length (heap w1)) 0 w2) as Hso.
  destruct (singleapp.SetOffset _ 0 w2) as [x w3].
  simpl in Hso. destruct Hso as (Hfs3 & Hfa3 & Hheap3).
  injection Hr as <- <-. simpl in *.
  (* the entries of the new cache serve their keys in the old world *)
  assert (F1 : forall k v, (k, v) ∈ cache.entries c ->
                 0 <= k <= max_int64 /\ serves mf w k v).
  { intros k v Hin. apply Hsub in Hin as [[= -> ->]|Hin]; [|by apply Hcache].
    split; [lia|exact Htail]. }
  (* none of them is the ejected handle *)
  assert (F2 : forall k v e, (k, v) ∈ cache.entries c -> ej = Some e ->
                 v <> snd e).
  { intros k v [k0 v0] Hin -> Heq. simpl in Heq. subst v0.
    destruct (Hej _ eq_refl) as (Hf0 & rest & Hold & Hnew).
    assert (Hk0 : 0 <= k0 <= max_int64 /\ serves mf w k0 v).
    { apply Hcache. rewrite Hold. left. }
    destruct (F1 _ _ Hin) as [Hk Hsv].
    assert (k = k0) as -> by (eapply serves_inj; eauto; tauto).
    rewrite Hnew in Hin. apply elem_of_app in Hin as [Hin|Hin].
    - unfold cache_keys in Hkeys. rewrite Hold in Hkeys. simpl in Hkeys.
      apply NoDup_cons in Hkeys as [Hnin _]. apply Hnin.
      apply list_elem_of_fmap. by exists (k0, v).
    - apply list_elem_of_singleton in Hin. injection Hin as -> _.
      apply find_None_key in Hf0. apply Hf0. rewrite Hold. simpl. left. }
  (* handles other than the ejected one are what they were *)
  assert (F3 : forall v, (v < length (heap w))%nat ->
                 (forall e, ej = Some e -> v <> snd e) ->
                 ident <$> (heap w3 !! v) = ident <$> (heap w !! v)).
  { intros v Hv Hne. rewrite <- (Hheap1 v Hne).
    assert (heap w2 !! v = heap w1 !! v) as <-.
    { rewrite Hheap2. apply lookup_app_l. lia. }
    destruct Hheap3 as [->|(a0 & Ha0 & ->)]; [done|].
    rewrite list_lookup_insert_ne by lia. done. }
  assert (F4 : exists a', heap w3 !! length (heap w1) = Some a'
                          /\ ident a' = ident a).
  { assert (Ha : heap w2 !! length (heap w1) = Some a).
    { rewrite Hheap2, lookup_app_r, Nat.sub_diag by lia. done. }
    destruct Hheap3 as [->|(a0 & Ha0 & ->)]; [eauto|].
    rewrite list_lookup_insert_eq by (by apply lookup_lt_Some in Ha0).
    eexists. split; [reflexivity|]. rewrite Ha in Ha0. by injection Ha0 as ->. }
  assert (Hrf1 : forall d n, read_file w1 d n = read_file w d n)
    by (intros; by apply read_file_fs).
  assert (Hrf3 : forall d n, read_file w3 d n = read_file w2 d n)
    by (intros; by apply read_file_fs).
  rewrite Hid in Hcase, Hn.
  set (name := appendableName (currAppID mf + 1) (fileExt mf)) in *.
  (* the file of the next segment: there already, or created empty *)
  assert (Hnext :
    (exists f, read_file w (path mf) name = Some f /\ a_cf a = f_cf f
               /\ forall d n, read_file w3 d n = read_file w d n)
    \/ (exists f0, read_file w (path mf) name = None
         /\ a_cf a = singleapp.CompressionFormat (currApp mf) w1
         /\ f_cf f0 = a_cf a /\ f_data f0 = []
         /\ forall d n, read_file w3 d n
                         = if decide (d = path mf /\ n = name)
                           then Some f0 else read_file w d n)).
  { rewrite (Hrf1 (path mf) name) in Hcase.
    destruct (read_file w (path mf) name) as [f|] eqn:Hrf.
    - left. destruct Hcase as (Hcf & _ & Hrf2). exists f.
      split_and!; auto. intros d n. by rewrite Hrf3, Hrf2, Hrf1.
    - right. destruct Hcase as (Hcf & _ & Hrf2). eexists.
      split_and!; [reflexivity|exact Hcf| | |].
      3: { intros d n. rewrite Hrf3, Hrf2. case_decide; [reflexivity|].
           apply Hrf1. }
      + simpl. by rewrite Hcf.
      + reflexivity. }
  clear Hcase.
  (* the tail of before still is what it was after the ejection *)
  assert (Htail1 : heap w1 !! currApp mf = heap w !! currApp mf).
  { apply Hheap1. intros e He. eapply F2; eauto.
    by apply find_Some_elem. }
  assert (Hacf : a_cf a = NoCompression).
  { destruct Hnext as [(f & Hrf & -> & _)|(f0 & _ & -> & _)].
    - by eapply Hfiles.
    - unfold singleapp.CompressionFormat. rewrite Htail1.
      destruct Htail as (a0 & -> & _ & _ & _ & Hcf). exact Hcf. }
  destruct F4 as (a' & Ha' & Hida').
  unfold ident in Hida'. injection Hida' as Hi1 Hi2 Hi3 Hi4.
  split_and!; auto.
  2: { (* no byte is written *)
       intros p. unfold stored. simpl.
       destruct Hnext as [(f & Hrf & _ & ->)|(f0 & Hrf & _ & _ & Hd0 & ->)];
         [reflexivity|].
       case_decide as Hdec; [|reflexivity].
       destruct Hdec as [_ ->]. rewrite Hrf, Hd0. by rewrite lookup_nil. }
  constructor; simpl; rewrite ?Hid; auto.
  - lia.
  - unfold serves. simpl. exists a'. unfold name in *.
    split_and!; congruence.
  - fold name. rewrite Hoff.
    destruct Hnext as [(f & Hrf & _ & ->)|(f0 & Hrf & _ & _ & Hd0 & ->)].
    + exists f. unfold max_int64. split_and!; auto; lia.
    + rewrite decide_True by done. exists f0. rewrite Hd0. simpl.
      unfold max_int64. split_and!; auto; lia.
  - intros n f.
    destruct Hnext as [(f1 & Hrf & _ & ->)|(f0 & Hrf & _ & Hcf0 & _ & ->)];
      [apply Hfiles|].
    case_decide; [|apply Hfiles]. intros [= <-]. congruence.
  - intros k v Hin. destruct (F1 _ _ Hin) as [Hk Hsv]. split; [exact Hk|].
    eapply serves_transfer; eauto. apply F3.
    + by apply serves_lt in Hsv.
    + intros e He. eapply F2; eauto.
Qed.

(** The logical offset at which [Append] will store its next byte. *)
Definition write_position (mf : MultiFileAppendable) (w : world) : Z :=
  if fileSize mf - singleapp.Offset (currApp mf) w <=? 0
  then (currAppID mf + 1) * fileSize mf
  else currAppID mf * fileSize mf + singleapp.Offset (currApp mf) w.

Lemma stored_config mf mf' w p :
  same_config mf mf' -> stored mf' w p = stored mf w p.
Proof.
  intros (Hp & _ & _ & _ & Hs & He). unfold stored. by rewrite Hp, Hs, He.
Qed.

Lemma segment_of_position k r S :
  0 < S -> 0 <= r < S -> (k * S + r) / S = k /\ (k * S + r) mod S = r.
Proof.
  intros HS Hr. split.
  - rewrite Z.add_comm, Z.div_add by lia. rewrite Z.div_small by lia. lia.
  - rewrite Z.add_comm, Z.mod_add by lia. apply Z.mod_small. lia.
Qed.

Lemma make_room_sound mf w av mf1 w1 :
  sound mf w -> (currAppID mf + 2) * fileSize mf <= max_int64 ->
  make_room mf w = (None, av, mf1, w1) ->
  sound mf1 w1
  /\ 0 < av /\ av = fileSize mf - singleapp.Offset (currApp mf1) w1
  /\ currAppID mf1 * fileSize mf + singleapp.Offset (currApp mf1) w1
     = write_position mf w
  /\ currAppID mf <= currAppID mf1 <= currAppID mf + 1
  /\ same_config mf mf1
  /\ (forall p, stored mf1 w1 p = stored mf w p).
Proof.
  intros Hs Hb Hm.
  pose proof (make_room_config _ _ _ _ _ _ Hm) as Hcfg.
  pose proof Hs as [Hfa Hsz Hid Htail (f & Hrf & Hoff & Hoffmax) _ _ _].
  assert (HS : fileSize mf <= max_int64) by nia.
  unfold make_room in Hm. unfold write_position.
  rewrite wrap64_id in Hm
    by (unfold in_int64, min_int64, max_int64 in *; lia).
  destruct (fileSize mf - singleapp.Offset (currApp mf) w <=? 0) eqn:E.
  - apply Z.leb_le in E.
    destruct (rollover mf w) as [[e mf2] w2] eqn:Hr.
    injection Hm as -> <- -> ->.
    apply rollover_sound in Hr as (Hs1 & Hid1 & Hoff1 & Hst); auto; [|nia].
    pose proof Hcfg as (_ & _ & _ & _ & HfS & _).
    rewrite Hoff1, Hid1, HfS. split_and!; auto; try lia; apply Hcfg.
  - apply Z.leb_gt in E. injection Hm as <- <- <-.
    split_and!; auto; try lia.
Qed.

Lemma ident_insert_offset (hp : list AppendableFile) (h : nat) a x (v : nat) :
  hp !! h = Some a ->
  ident <$> (<[h := set_a_offset x a]> hp !! v) = ident <$> (hp !! v).
Proof.
  intros Ha. destruct (decide (v = h)) as [->|Hne].
  - rewrite list_lookup_insert_eq by (by apply lookup_lt_Some in Ha).
    by rewrite Ha.
  - by rewrite list_lookup_insert_ne.
Qed.

(** Writing one chunk to the tail of a sound store that has room. *)
Lemma write_chunk_sound bs n av mf w offn d w' :
  sound mf w -> 0 <= n < Z.of_nat (length bs) ->
  Z.of_nat (length bs) <= max_int64 ->
  (currAppID mf + 1) * fileSize mf <= max_int64 ->
  av = fileSize mf - singleapp.Offset (currApp mf) w -> 0 < av ->
  write_chunk bs n av mf w = (Ret (Ok (offn, d)), w') ->
  let off := singleapp.Offset (currApp mf) w in
  let pos := currAppID mf * fileSize mf + off in
  sound mf w' /\ offn = off /\ 0 < d /\ n + d <= Z.of_nat (length bs)
  /\ wrap64 (n + d) = n + d
  /\ singleapp.Offset (currApp mf) w' = off + d
  /\ off + d <= fileSize mf
  /\ (forall i, 0 <= i < d ->
        stored mf w' (pos + i) = bs !! Z.to_nat (n + i))
  /\ (forall p, 0 <= p < pos -> stored mf w' p = stored mf w p).
Proof.
  intros Hs Hn Hlen Hb Hav Hpos Hw off pos.
  pose proof (write_chunk_offn bs n av mf w offn d w' ltac:(lia) Hlen Hw)
    as (Hoffn & Hd & Hwr & Hle).
  destruct Hs as [Hfa Hsz Hid Htail (f & Hrf & Hoff & Hoffmax) Hfiles Hcache
                  Hkeys].
  pose proof (single_CompressionFormat_serves _ _ _ _ Htail) as Hcf.
  unfold write_chunk in Hw. rewrite Hcf in Hw. simpl in Hw.
  rewrite (wrap64_id (Z.of_nat (length bs) - n)) in Hw
    by (unfold in_int64, min_int64, max_int64 in *; lia).
  destruct (_ || _); [discriminate|].
  match type of Hw with
  | context [singleapp.Append ?h ?c w] =>
      destruct (singleapp.Append h c w) as [[[o x]|e] w1] eqn:HA;
      [|discriminate]; set (chunk := c) in *
  end.
  injection Hw as <- Hdd <-.
  assert (Hdmin : d <= av) by (rewrite <- Hdd; unfold minInt; case_match; lia).
  apply single_Append_effect in HA
    as (a & f' & Ha & Hcl & Hrf' & _ & Hheap & Hfiles' & Hfa'); [|exact Hcf].
  destruct Htail as (a0 & Ha0 & _ & Hdir & Hname & Hacf).
  rewrite Ha in Ha0. injection Ha0 as <-.
  rewrite Hdir, Hname, Hrf in Hrf'. injection Hrf' as <-.
  assert (Hoffa : off = a_offset a).
  { unfold off, singleapp.Offset. by rewrite Ha. }
  assert (Hchunk : length chunk = Z.to_nat d).
  { unfold chunk. rewrite Hdd, length_take, length_drop. lia. }
  assert (Hid' : forall v,
            ident <$> (heap w1 !! v) = ident <$> (heap w !! v)).
  { intros v. rewrite Hheap. by apply ident_insert_offset. }
  assert (Hoff' : singleapp.Offset (currApp mf) w1 = off + d).
  { unfold singleapp.Offset. rewrite Hheap.
    rewrite list_lookup_insert_eq by (by apply lookup_lt_Some in Ha).
    simpl. rewrite Hchunk. lia. }
  fold off in Hoff, Hoffmax, Hav.
  split_and!; auto; try lia.
  - constructor; auto.
    + eapply serves_transfer; eauto. exists a. split_and!; auto.
    + rewrite Hfiles', Hdir, Hname, decide_True by done.
      eexists. split; [reflexivity|]. rewrite Hoff'. simpl.
      rewrite write_at_length by lia. rewrite Hchunk. lia.
    + intros n0 f0. rewrite Hfiles'. case_decide; [|apply Hfiles].
      intros [= <-]. simpl. by eapply Hfiles.
    + intros k v Hin. destruct (Hcache _ _ Hin) as [Hk Hsv].
      split; [exact Hk|]. eapply serves_transfer; eauto.
  - intros i Hi. unfold stored, pos.
    destruct (segment_of_position (currAppID mf) (off + i) (fileSize mf))
      as [Hq Hr]; [lia|lia|].
    rewrite Z.add_assoc in Hq, Hr. rewrite Hq, Hr.
    rewrite Hfiles', Hdir, Hname, decide_True by done. simpl.
    rewrite <- Hoffa.
    replace (Z.to_nat (off + i)) with (Z.to_nat off + Z.to_nat i)%nat by lia.
    rewrite write_at_lookup_new by lia.
    unfold chunk. rewrite lookup_take_lt by lia. rewrite lookup_drop.
    f_equal. lia.
  - intros p Hp. unfold stored, pos in *.
    assert (Hq : 0 <= p / fileSize mf <= currAppID mf).
    { split; [apply Z.div_pos; lia|].
      apply Z.lt_succ_r. apply Z.div_lt_upper_bound; nia. }
    rewrite Hfiles'. case_decide as Hdec.
    + destruct Hdec as [_ Hnm]. rewrite Hname in Hnm.
      apply appendableName_inj in Hnm; [|nia|nia].
      rewrite Hnm, Hrf. simpl. rewrite <- Hoffa.
      apply write_at_lookup_old; [|lia].
      pose proof (Z.div_mod p (fileSize mf) ltac:(lia)) as Hdm.
      pose proof (Z.mod_pos_bound p (fileSize mf) ltac:(lia)).
      rewrite Hnm in Hdm. nia.
    + reflexivity.
Qed.

(** The loop of [Append] on a sound store: the bytes not yet written end
    up at consecutive logical offsets from the write position on, and
    nothing below the write position changes. *)
Lemma append_loop_sound fuel bs off n mf w start n' mf' w' :
  sound mf w -> 0 <= n <= Z.of_nat (length bs) ->
  Z.of_nat (length bs) <= max_int64 ->
  (currAppID mf + (Z.of_nat (length bs) - n) + 2) * fileSize mf
  <= max_int64 ->
  append_loop fuel bs off n mf w = (Ret (start, n', None), mf', w') ->
  sound mf' w' /\ same_config mf mf' /\ n' = Z.of_nat (length bs)
  /\ (n = 0 -> n < Z.of_nat (length bs) -> start = write_position mf w)
  /\ (forall j, n <= j < Z.of_nat (length bs) ->
        stored mf' w' (write_position mf w + (j - n)) = bs !! Z.to_nat j)
  /\ (forall p, 0 <= p < write_position mf w ->
        stored mf' w' p = stored mf w p).
Proof.
  revert off n mf w.
  induction fuel as [|fuel IH]; intros off n mf w Hs Hn Hlen Hb.
  - simpl. destruct (n <? _) eqn:E; simpl; [discriminate|].
    apply Z.ltb_ge in E. intros [= <- <- <- <-].
    split_and!; auto; try lia. apply same_config_refl.
  - rewrite append_loop_S. destruct (n <? _) eqn:E; simpl negb; cbv iota.
    2: { apply Z.ltb_ge in E. intros [= <- <- <- <-].
         split_and!; auto; try lia. apply same_config_refl. }
    apply Z.ltb_lt in E.
    pose proof (sound_size _ _ Hs) as HS. pose proof (sound_id _ _ Hs) as Hid.
    destruct (make_room mf w) as [[[e av] mf1] w1] eqn:Hm.
    destruct e; [discriminate|].
    apply make_room_sound in Hm
      as (Hs1 & Hav & Havq & Hpos1 & Hid1 & Hcfg1 & Hst1); auto; [|nia].
    pose proof Hcfg1 as (_ & _ & _ & _ & HfS & _).
    destruct (write_chunk bs n av mf1 w1) as [[[[offn d]|e]| |] w2] eqn:Hw;
      try discriminate.
    apply write_chunk_sound in Hw
      as (Hs2 & Hoffn & Hd & Hle & Hwr & Hoff2 & HoffS & Hnew & Hold);
      auto; try lia; [|rewrite HfS; nia].
    rewrite HfS in *. rewrite Hpos1 in Hnew, Hold.
    rewrite Hwr. lazy zeta. intros Hl.
    assert (Hwp2 : write_position mf1 w2 = write_position mf w + d).
    { unfold write_position at 1. rewrite HfS, Hoff2.
      destruct (_ <=? 0) eqn:E2; [apply Z.leb_le in E2|]; lia. }
    pose proof Hl as Hl'.
    apply IH in Hl
      as (Hs' & Hcfg' & Hn' & _ & Hnew' & Hold'); auto; try lia;
      [|rewrite HfS; nia].
    rewrite Hwp2 in Hnew', Hold'.
    pose proof (sound_tail_off _ _ Hs1) as (f1 & _ & Hoff1 & _).
    assert (0 <= currAppID mf1 * fileSize mf) by nia.
    assert (Hwp0 : 0 <= write_position mf w) by lia.
    split_and!; auto.
    + eapply same_config_trans; eauto.
    + intros Hn0 _. subst n. rewrite Z.eqb_refl in Hl'.
      apply append_loop_later in Hl' as [-> _]; [|lia|lia].
      assert (currAppID mf1 * fileSize mf + fileSize mf <= max_int64) by nia.
      rewrite Hoffn. rewrite (wrap64_id (currAppID mf1 * fileSize mf))
        by (unfold in_int64, min_int64, max_int64 in *; lia).
      rewrite wrap64_id; [lia|].
      unfold in_int64, min_int64, max_int64 in *. lia.
    + intros j Hj. destruct (decide (j < n + d)) as [Hlt|Hge].
      * rewrite Hold' by lia. rewrite Hnew by lia. f_equal. lia.
      * replace (write_position mf w + (j - n))
          with (write_position mf w + d + (j - (n + d))) by lia.
        apply Hnew'. lia.
    + intros p Hp. rewrite Hold' by lia.
      rewrite Hold by lia. apply Hst1.
Qed.

(** *** Reading a byte back *)

Lemma take_one_drop {A} (l : list A) i b :
  l !! i = Some b -> take 1 (drop i l) = [b].
Proof.
  revert i. induction l as [|x l IH]; intros i Hl; [by destruct i|].
  destruct i as [|i]; simpl in *.
  - injection Hl as ->. by rewrite take_0.
  - by apply IH.
Qed.

Lemma single_ReadAt_byte mf w k v f x b :
  faults w = [] -> serves mf w k v ->
  read_file w (path mf) (appendableName k (fileExt mf)) = Some f ->
  0 <= x -> f_data f !! Z.to_nat x = Some b ->
  singleapp.ReadAt v 1 x w = (([b], None), w).
Proof.
  intros Hfa (a & Ha & Hcl & Hd & Hn & Hcf) Hrf Hx Hb.
  unfold singleapp.ReadAt. rewrite (fault_free w Hfa), Ha, Hcl.
  destruct (x <? 0) eqn:E; [apply Z.ltb_lt in E; lia|].
  rewrite Hd, Hn, Hrf, Hcf. simpl.
  rewrite (take_one_drop _ _ _ Hb). reflexivity.
Qed.

Lemma serves_flag mf w k v : serves mf w k v -> flags w !! v = Some false.
Proof.
  intros (a & Ha & Hcl & _). unfold flags.
  rewrite list_lookup_fmap, Ha. simpl. by rewrite Hcl.
Qed.

(** In a sound store the handle of an existing segment is found or
    opened, and serves that segment. *)
Lemma appendableFor_sound off mf w k f :
  sound mf w -> closed mf = false ->
  appendableID off (fileSize mf) = Some k -> 0 <= k <= max_int64 ->
  read_file w (path mf) (appendableName k (fileExt mf)) = Some f ->
  exists app mf' w',
    appendableFor off mf w = (Ret (Ok app), mf', w')
    /\ serves mf w' k app /\ faults w' = []
    /\ (forall d n, read_file w' d n = read_file w d n)
    /\ same_config mf mf'.
Proof.
  intros Hs Hcl Hid Hk Hrf.
  destruct Hs as [Hfa Hsz _ _ _ Hfiles Hcache Hkeys].
  unfold appendableFor. rewrite Hcl, Hid. unfold cache.Get.
  destruct (cache.find k (cache.entries (appendables mf))) as [v|] eqn:Hf.
  - eexists _, _, _. split; [reflexivity|]. split_and!; auto.
    + apply Hcache. by apply find_Some_elem.
    + repeat split.
  - rewrite decide_True by reflexivity. simpl negb. cbv iota.
    assert (Hmf : set_appendables (appendables mf) mf = mf) by (by destruct mf).
    rewrite Hmf. unfold openAppendable.
    match goal with
    | |- context [singleapp.Open ?d ?n ?o w] =>
        assert (HO : exists h w1, singleapp.Open d n o w = (Ok h, w1))
    end.
    { unfold singleapp.Open. rewrite (fault_free w Hfa).
      unfold read_file in Hrf.
      destruct (fs w !! path mf) as [[es|f0]|]; try discriminate.
      rewrite Hrf. eauto. }
    destruct HO as (h & w1 & HO). rewrite HO.
    apply single_Open_effect in HO
      as (-> & a & Hheap & Hd & Hn & Hacl & Hfa1 & Hcase).
    rewrite Hrf in Hcase. destruct Hcase as (Hacf & _ & Hrf1).
    destruct (cache.Put k (length (heap w)) (appendables mf))
      as [[ej err] c'] eqn:HPut.
    apply Put_spec in HPut as (-> & _ & _ & _ & Hej & _).
    assert (Hne : forall e, ej = Some e -> snd e <> length (heap w)
                            /\ flags w1 !! snd e = Some false).
    { intros [k0 v0] He. destruct (Hej _ He) as (_ & rest & Hold & _).
      assert (Hsv : serves mf w k0 v0).
      { apply Hcache. rewrite Hold. left. }
      pose proof (serves_lt _ _ _ _ Hsv). simpl. split; [lia|].
      apply serves_flag in Hsv. unfold flags in *.
      rewrite Hheap, map_app. by apply lookup_app_l_Some. }
    assert (Hce : exists w2, close_ejected ej w1 = (None, w2)).
    { destruct ej as [[k0 v0]|]; simpl; [|eauto].
      apply single_Close_succeeds; [auto|]. by apply (Hne (k0, v0)). }
    destruct Hce as (w2 & Hce). rewrite Hce.
    apply close_ejected_effect in Hce as (Hfs2 & Hfa2 & _ & Hheap2).
    eexists _, _, _. split; [reflexivity|]. split_and!; auto.
    + exists a. split_and!; auto.
      * rewrite Hheap2 by (intros e He; symmetry; apply Hne; exact He || eauto;
                           destruct (Hne e He); congruence).
        rewrite Hheap, lookup_app_r, Nat.sub_diag by lia. reflexivity.
      * rewrite Hacf. by eapply Hfiles.
    + intros d n. rewrite (read_file_fs _ _ _ _ Hfs2). apply Hrf1.
    + repeat split.
Qed.

Lemma rollover_closed mf w e mf' w' :
  rollover mf w = (e, mf', w') -> closed mf' = closed mf.
Proof.
  unfold rollover. intros Hr.
  repeat case_match; simplify_eq; reflexivity.
Qed.

Lemma append_loop_closed fuel bs off n mf w r mf' w' :
  append_loop fuel bs off n mf w = (r, mf', w') -> closed mf' = closed mf.
Proof.
  revert off n mf w. induction fuel as [|fuel IH]; intros off n mf w.
  - simpl. destruct (n <? _); simpl; by intros [= <- <- <-].
  - rewrite append_loop_S. destruct (n <? _); simpl;
      [|by intros [= <- <- <-]].
    assert (Hm : closed (snd (fst (make_room mf w))) = closed mf).
    { unfold make_room. destruct (_ <=? 0); [|reflexivity].
      destruct (rollover mf w) as [[e1 mf1] w1] eqn:Hr. simpl.
      eapply rollover_closed; eauto. }
    destruct (make_room mf w) as [[[e av] mf1] w1]. simpl in Hm.
    destruct e; [by intros [= <- <- <-]|].
    destruct (write_chunk bs n av mf1 w1) as [[[[offn d]|e]| |] w2];
      try (by intros [= <- <- <-]).
    intros Hl. apply IH in Hl. congruence.
Qed.

(** Reading one byte of a sound store at an offset where a byte is
    stored. *)
Lemma ReadAt_byte mf w p b :
  sound mf w -> closed mf = false -> 0 <= p <= max_int64 ->
  stored mf w p = Some b ->
  fst (fst (ReadAt 1 p mf w)) = Ret ([b], None).
Proof.
  intros Hs Hcl Hp Hst. pose proof (sound_size _ _ Hs) as HS.
  unfold stored in Hst.
  destruct (read_file w (path mf) _) as [f|] eqn:Hrf; [|discriminate].
  assert (Hk : 0 <= p / fileSize mf <= max_int64).
  { split; [apply Z.div_pos; lia|].
    transitivity p; [|lia]. apply Z.div_le_upper_bound; nia. }
  assert (Hid : appendableID p (fileSize mf) = Some (p / fileSize mf)).
  { unfold appendableID.
    destruct (fileSize mf =? 0) eqn:E; [apply Z.eqb_eq in E; lia|].
    rewrite Z.quot_div_nonneg by lia. rewrite wrap64_id; [reflexivity|].
    unfold in_int64, min_int64, max_int64 in *. lia. }
  assert (Hrem : go_rem p (fileSize mf) = Some (p mod fileSize mf)).
  { unfold go_rem.
    destruct (fileSize mf =? 0) eqn:E; [apply Z.eqb_eq in E; lia|].
    by rewrite Z.rem_mod_nonneg by lia. }
  destruct (appendableFor_sound p mf w _ f Hs Hcl Hid Hk Hrf)
    as (app & mf1 & w1 & Ha & Hsv & Hfa1 & Hrf1 & Hcfg).
  unfold ReadAt. rewrite read_loop_S. simpl length. simpl negb. cbv iota.
  change (Z.of_nat 0) with 0. rewrite Z.add_0_r.
  rewrite (wrap64_id p)
    by (unfold in_int64, min_int64, max_int64 in *; lia).
  lazy zeta. rewrite Ha.
  destruct Hcfg as (Hpath & _ & _ & _ & HfS & Hext).
  rewrite HfS, Hrem.
  assert (Hsv1 : serves mf1 w1 (p / fileSize mf) app).
  { destruct Hsv as (a & ?). exists a. by rewrite Hpath, Hext. }
  change (1 - 0)%nat with 1%nat.
  assert (HR : singleapp.ReadAt app 1 (p mod fileSize mf) w1
               = (([b], None), w1)).
  { apply (single_ReadAt_byte mf1 w1 (p / fileSize mf) app f); auto.
    - by rewrite Hpath, Hext, Hrf1.
    - apply Z.mod_pos_bound. lia. }
  rewrite HR. reflexivity.
Qed.


(** Consistency is where a store starts, in an absent or empty directory
    and without compression, and what a successful [Append] maintains. *)
Lemma Open_sound p opts w0 mf w :
  Open p opts w0 = (Ret (Ok mf), w) ->
  faults w0 = [] ->
  fs w0 !! p = None \/ fs w0 !! p = Some (Dir ∅) ->
  multiapp.compressionFormat opts = NoCompression ->
  sound mf w.
Proof.
  intros HO Hfa Hempty Hcf0.
  apply Open_inv in HO
    as (es & w2 & fn & Hv & Hes & Hd2 & Hh2 & _ & Hfa2 & Hlast & Hso & Hc
        & HfS & Hpath & _ & _ & _ & Hext & _).
  assert (es = ∅) as ->.
  { destruct Hes as [Hes|(_ & -> & _)]; [|reflexivity].
    destruct Hempty; congruence. }
  rewrite sorted_names_empty in Hlast. destruct Hlast as [-> Hid].
  assert (Hpos : 0 < fileSize mf).
  { rewrite HfS, (single_open_answers _ _ _ _ _ _ Hso).
    unfold read_file. rewrite Hd2, lookup_empty, fresh_envelope_fileSize.
    unfold validOptions in Hv. repeat (apply andb_prop in Hv as [Hv ?]).
    by apply Z.ltb_lt. }
  apply single_Open_effect in Hso
    as (Hh & a & Hheap & Hd & Hn & Hcl & Hfa' & Hcase).
  assert (Hnone : forall n, read_file w2 p n = None).
  { intros n. unfold read_file. by rewrite Hd2, lookup_empty. }
  rewrite Hnone in Hcase. destruct Hcase as (Hacf & Haoff & Hrf).
  assert (Ha : heap w !! currApp mf = Some a).
  { rewrite Hh, Hheap, lookup_app_r, Nat.sub_diag by lia. reflexivity. }
  unfold cache.NewLRUCache in Hc.
  destruct (_ <=? 0); [discriminate|]. injection Hc as Hc.
  constructor; auto.
  - lia.
  - exists a. rewrite Hpath, Hext, Hid. split_and!; auto.
    rewrite Hacf. exact Hcf0.
  - rewrite Hpath, Hext, Hid, Hrf, decide_True by done.
    eexists. split; [reflexivity|].
    unfold singleapp.Offset. rewrite Ha, Haoff. simpl.
    unfold max_int64. lia.
  - intros n f. rewrite Hpath, Hrf. case_decide; [|by rewrite Hnone].
    intros [= <-]. exact Hcf0.
  - rewrite <- Hc. simpl. intros k v Hin. inversion Hin.
  - unfold cache_keys. rewrite <- Hc. simpl. apply NoDup_nil_2.
Qed.

Lemma Append_keeps_sound bs mf w start n mf' w' :
  sound mf w ->
  (currAppID mf + Z.of_nat (length bs) + 2) * fileSize mf <= max_int64 ->
  Append bs mf w = (Ret (start, n, None), mf', w') ->
  sound mf' w'.
Proof.
  intros Hs Hb HA.
  pose proof (sound_size _ _ Hs) as HS. pose proof (sound_id _ _ Hs) as Hid.
  assert (Hlen : Z.of_nat (length bs) <= max_int64) by nia.
  unfold Append in HA.
  destruct (closed mf); [discriminate|].
  destruct (readOnly mf); [discriminate|].
  destruct bs as [|b0 bs0] eqn:Hbs; [discriminate|]. rewrite <- Hbs in *.
  apply append_loop_sound in HA as (Hs' & _); auto; lia.
Qed.

End Theory.

(** * Further properties *)

Section Further.
Context `{BlockCodec}.

(** *** Segment names are parsed back to their ids *)

Definition is_digit (c : ascii) : Prop :=
  exists d, 0 <= d <= 9 /\ c = digit_char d.

Lemma digit_value_digit_char d : 0 <= d <= 9 -> digit_value (digit_char d) = Some d.
Proof.
  intros Hd. unfold digit_value, digit_char.
  rewrite nat_ascii_embedding;
    change (nat_of_ascii zero_char) with 48%nat; [|lia].
  destruct (_ && _) eqn:E; [f_equal; lia|].
  apply andb_false_iff in E as [E|E];
    [apply Z.leb_gt in E|apply Z.leb_gt in E]; lia.
Qed.

Lemma fold_digits_ge cs acc :
  Forall is_digit cs -> 0 <= acc ->
  acc <= fold_left (fun a c => a * 10 + digit_of c) cs acc.
Proof.
  intros Hcs. revert acc. induction Hcs as [|c cs (d & Hd & ->) _ IH];
    intros acc Hacc; simpl; [lia|].
  rewrite digit_of_digit_char by exact Hd.
  specialize (IH (acc * 10 + d) ltac:(lia)). lia.
Qed.

Lemma parse_uint_digits cs acc :
  Forall is_digit cs -> 0 <= acc ->
  fold_left (fun a c => a * 10 + digit_of c) cs acc <= max_uint64 ->
  parse_uint cs acc
  = Ok (fold_left (fun a c => a * 10 + digit_of c) cs acc).
Proof.
  intros Hcs. revert acc. induction Hcs as [|c cs Hc Hcs IH];
    intros acc Hacc Hmax; simpl; [reflexivity|].
  pose proof Hc as (d & Hd & ->).
  simpl in Hmax. rewrite digit_of_digit_char in * by exact Hd.
  rewrite digit_value_digit_char by exact Hd.
  pose proof (fold_digits_ge cs (acc * 10 + d) Hcs ltac:(lia)) as Hge.
  unfold max_uint64 in *.
  destruct (_ <=? acc) eqn:E1.
  { apply Z.leb_le in E1. change ((2 ^ 64 - 1) / 10 + 1) with 1844674407370955162 in E1. lia. }
  destruct (_ <? acc * 10 + d) eqn:E2; [apply Z.ltb_lt in E2; lia|].
  apply IH; [lia|exact Hmax].
Qed.

Lemma digits_le_range fuel n :
  0 <= n -> Forall (fun d => 0 <= d <= 9) (digits_le fuel n).
Proof.
  revert n. induction fuel as [|fuel IH]; intros n Hn; simpl; [constructor|].
  destruct (n <? 10) eqn:E.
  - apply Z.ltb_lt in E. repeat constructor; lia.
  - constructor.
    + pose proof (Z.mod_pos_bound n 10 ltac:(lia)). lia.
    + apply IH. apply Z.div_pos; lia.
Qed.

Lemma decimal_digits n : 0 <= n -> Forall is_digit (decimal n).
Proof.
  intros Hn. unfold decimal. apply Forall_forall. intros c Hc.
  apply list_elem_of_In, in_map_iff in Hc as (d & <- & Hd).
  apply in_rev, list_elem_of_In in Hd.
  pose proof (digits_le_range 20 n Hn) as Hr.
  rewrite Forall_forall in Hr. exists d. split; [apply Hr, Hd|reflexivity].
Qed.

Lemma pad_zeros_digits m cs : Forall is_digit cs -> Forall is_digit (pad_zeros m cs).
Proof.
  intros Hcs. unfold pad_zeros. apply Forall_app. split; [|exact Hcs].
  apply Forall_forall. intros c Hc. apply list_elem_of_In, repeat_spec in Hc.
  subst c. exists 0. split; [lia|reflexivity].
Qed.

Lemma pad_zeros_nonempty m cs : (0 < m)%nat -> pad_zeros m cs <> [].
Proof.
  intros Hm. unfold pad_zeros. destruct cs as [|c cs].
  - rewrite app_nil_r. simpl. rewrite Nat.sub_0_r.
    destruct m; [lia|discriminate].
  - intros E. apply app_eq_nil in E as [_ E]. discriminate.
Qed.

Lemma value_pad_decimal m n :
  0 <= n <= 2 ^ 63 -> value_be (pad_zeros m (decimal n)) = n.
Proof.
  intros Hn. unfold pad_zeros. rewrite value_be_zeros. unfold decimal.
  apply value_decimal_le. change (Z.of_nat 20) with 20. lia.
Qed.

Lemma trim_ext_rev_app r1 r2 :
  Forall (fun c => c <> "."%char /\ c <> "/"%char) r1 ->
  trim_ext_rev (r1 ++ "."%char :: r2) = Some r2.
Proof.
  induction 1 as [|c r1 [Hd Hs] _ IH]; simpl; [reflexivity|].
  destruct (Ascii.eqb c ".") eqn:E1; [apply Ascii.eqb_eq in E1; contradiction|].
  destruct (Ascii.eqb c "/") eqn:E2; [apply Ascii.eqb_eq in E2; contradiction|].
  exact IH.
Qed.

Lemma stem_appendableName k ext :
  Forall (fun c => c <> "."%char /\ c <> "/"%char) (chars_of_string ext) ->
  stem (appendableName k ext) = string_of_chars (sprintf_08d k).
Proof.
  intros Hext. unfold stem, appendableName.
  rewrite chars_of_string_of_chars, rev_app_distr. simpl rev.
  rewrite <- app_assoc. simpl app.
  rewrite trim_ext_rev_app.
  - by rewrite rev_involutive.
  - apply Forall_forall. intros c Hc. rewrite Forall_forall in Hext.
    apply Hext. apply list_elem_of_In. apply in_rev.
    by apply list_elem_of_In.
Qed.

Lemma ParseInt_sprintf_08d k :
  in_int64 k -> ParseInt (string_of_chars (sprintf_08d k)) = Ok k.
Proof.
  intros [Hlo Hhi]. unfold min_int64, max_int64 in *.
  unfold ParseInt. rewrite chars_of_string_of_chars. unfold sprintf_08d.
  destruct (k <? 0) eqn:E.
  - apply Z.ltb_lt in E. simpl.
    pose proof (pad_zeros_nonempty 7 (decimal (- k)) ltac:(lia)) as Hne.
    pose proof (pad_zeros_digits 7 _ (decimal_digits (- k) ltac:(lia))) as Hd.
    pose proof (value_pad_decimal 7 (- k) ltac:(lia)) as Hv.
    unfold value_be in Hv.
    rewrite (parse_uint_digits _ 0 Hd ltac:(lia)), Hv
      by (rewrite Hv; unfold max_uint64; lia).
    destruct (pad_zeros 7 (decimal (- k))); [congruence|].
    destruct (2 ^ 63 <? - k) eqn:E2; [apply Z.ltb_lt in E2; lia|].
    f_equal. lia.
  - apply Z.ltb_ge in E.
    pose proof (pad_zeros_nonempty 8 (decimal k) ltac:(lia)) as Hne.
    pose proof (pad_zeros_digits 8 _ (decimal_digits k ltac:(lia))) as Hd.
    pose proof (value_pad_decimal 8 k ltac:(lia)) as Hv.
    unfold value_be in Hv.
    destruct (pad_zeros 8 (decimal k)) as [|c cs] eqn:Hp; [congruence|].
    pose proof (Forall_inv Hd) as (d & Hd0 & ->).
    assert (Ascii.eqb (digit_char d) "-" = false) as ->.
    { unfold digit_char. change (nat_of_ascii zero_char) with 48%nat.
      apply Ascii.eqb_neq. intros Hc. apply (f_equal nat_of_ascii) in Hc.
      rewrite nat_ascii_embedding in Hc by lia.
      change (nat_of_ascii "-") with 45%nat in Hc. lia. }
    assert (Ascii.eqb (digit_char d) "+" = false) as ->.
    { unfold digit_char. change (nat_of_ascii zero_char) with 48%nat.
      apply Ascii.eqb_neq. intros Hc. apply (f_equal nat_of_ascii) in Hc.
      rewrite nat_ascii_embedding in Hc by lia.
      change (nat_of_ascii "+") with 43%nat in Hc. lia. }
    simpl orb. cbv iota.
    rewrite (parse_uint_digits _ 0 Hd ltac:(lia)), Hv
      by (rewrite Hv; unfold max_uint64; lia).
    simpl negb. simpl andb.
    destruct (2 ^ 63 <=? k) eqn:E2; [apply Z.leb_le in E2; lia|].
    reflexivity.
Qed.

(** X1: the name that [appendableName] gives to a segment id is parsed
    back to that id by [Open] (the stem of the name, read as a base-10
    64-bit integer), for every 64-bit id, negative ones included, and
    every extension without a dot or a slash. *)
Theorem appendableName_parsed_back (k : Z) (ext : string) :
  in_int64 k ->
  Forall (fun c => c <> "."%char /\ c <> "/"%char) (chars_of_string ext) ->
  ParseInt (stem (appendableName k ext)) = Ok k.
Proof.
  intros Hk Hext. rewrite stem_appendableName by exact Hext.
  by apply ParseInt_sprintf_08d.
Qed.

(** *** [SetOffset] and [Offset] *)

Lemma single_SetOffset_ok h x w w' :
  singleapp.SetOffset h x w = (None, w') ->
  singleapp.Offset h w' = x /\ 0 <= x.
Proof.
  unfold singleapp.SetOffset, singleapp.Offset.
  pose proof (fault_heap w) as Hh. destruct (fault w) as [b w1]. simpl in Hh.
  destruct b; [discriminate|].
  destruct (heap w1 !! h) as [a|] eqn:Ha; [|discriminate].
  destruct (a_closed a); [discriminate|].
  destruct (read_file _ _ _); [|discriminate].
  destruct (_ || _) eqn:E; [discriminate|]. intros [= <-].
  apply orb_false_iff in E as [E _]. apply Z.ltb_ge in E.
  simpl heap. rewrite list_lookup_insert_eq; [done|].
  by eapply lookup_lt_Some.
Qed.



(** *** How many bytes [ReadAt] returns *)

Lemma single_ReadAt_count h m x w out err w' :
  singleapp.ReadAt h m x w = ((out, err), w') ->
  (length out <= m)%nat /\ (err = None -> length out = m).
Proof.
  unfold singleapp.ReadAt. destruct (fault w) as [b w1].
  destruct b; [intros [= <- <- _]; split; [simpl; lia|discriminate]|].
  repeat case_match; intros [= <- <- _]; simplify_eq;
    try (split; [simpl; lia|discriminate]).
  all: rewrite length_take; split; try lia.
  all: try discriminate.
  all: intros _; match goal with
       | Hlt : (_ <? _)%nat = false |- _ =>
           apply Nat.ltb_ge in Hlt; rewrite length_take in Hlt; lia
       end.
Qed.

Lemma appendableFor_returns off mf w :
  fst (fst (appendableFor off mf w)) <> Timeout.
Proof.
  unfold appendableFor. repeat case_match; simpl; discriminate.
Qed.

Lemma read_loop_count fuel n off acc mf w r mf' w' :
  (length acc <= n)%nat -> (n - length acc < fuel)%nat ->
  read_loop fuel n off acc mf w = (r, mf', w') ->
  r <> Timeout
  /\ forall out err, r = Ret (out, err) ->
       (length out <= n)%nat /\ (err = None -> length out = n).
Proof.
  revert acc mf w. induction fuel as [|fuel IH]; intros acc mf w Hle Hfuel;
    [lia|].
  rewrite read_loop_S.
  destruct (length acc <? n)%nat eqn:E; simpl negb; cbv iota.
  2: { apply Nat.ltb_ge in E. intros [= <- _ _]. split; [discriminate|].
       intros out err [= <- <-]. split; [lia|intros _; lia]. }
  apply Nat.ltb_lt in E. cbv zeta.
  pose proof (appendableFor_returns (wrap64 (off + Z.of_nat (length acc))) mf w)
    as Hret.
  destruct (appendableFor _ mf w) as [[app mf1] w1]. simpl in Hret.
  destruct app as [[app|e]| |]; [| | |congruence].
  2: { intros [= <- _ _]. split; [discriminate|].
       intros out err [= <- <-]. split; [lia|discriminate]. }
  2: { intros [= <- _ _]. split; [discriminate|]. discriminate. }
  destruct (go_rem _ _) as [x|].
  2: { intros [= <- _ _]. split; discriminate. }
  destruct (singleapp.ReadAt _ _ _ _) as [[out err] w2] eqn:HR.
  apply single_ReadAt_count in HR as [Hout Hfull].
  assert (Hstep : (0 < length out)%nat ->
            read_loop fuel n off (acc ++ out) mf1 w2 = (r, mf', w') ->
            r <> Timeout
            /\ forall out0 err0, r = Ret (out0, err0) ->
                 (length out0 <= n)%nat /\ (err0 = None -> length out0 = n)).
  { intros Hpos. apply IH; rewrite length_app; lia. }
  destruct err as [e|].
  - destruct (decide (e = EOF)) as [->|Hne]; simpl andb.
    + destruct (0 <? length out)%nat eqn:Ep.
      * apply Nat.ltb_lt in Ep. by apply Hstep.
      * intros [= <- _ _]. split; [discriminate|].
        intros out0 err0 [= <- <-]. rewrite length_app.
        split; [lia|discriminate].
    + intros [= <- _ _]. split; [discriminate|].
      intros out0 err0 [= <- <-]. rewrite length_app.
      split; [lia|discriminate].
  - apply Hstep. specialize (Hfull eq_refl). lia.
Qed.

(** X3: [ReadAt] on a buffer of [n] bytes always returns or panics (the
    loop ends: every iteration that goes on has stored at least one byte);
    it never returns more than [n] bytes, and when it returns no error it
    has filled the buffer, which is then not empty. *)
Theorem ReadAt_count (n : nat) (off : Z) (mf : MultiFileAppendable)
    (w : world) :
  fst (fst (ReadAt n off mf w)) <> Timeout
  /\ forall out err mf' w',
       ReadAt n off mf w = (Ret (out, err), mf', w') ->
       (length out <= n)%nat
       /\ (err = None -> length out = n /\ n <> 0%nat).
Proof.
  unfold ReadAt. destruct n as [|n].
  { split; [discriminate|]. intros out err mf' w' [= <- <- _ _].
    split; [simpl; lia|discriminate]. }
  destruct (read_loop (S (S n)) (S n) off [] mf w) as [[r mf1] w1] eqn:HL.
  apply read_loop_count in HL as [Hnt Hc]; simpl; try lia.
  split; [exact Hnt|]. intros out err mf' w' [= -> _ _].
  destruct (Hc out err eq_refl) as [Hle Hfull].
  split; [exact Hle|]. intros He. split; [by apply Hfull|lia].
Qed.

(** *** A read-only store never writes *)

Lemma single_Open_fs_ro d n o w :
  singleapp.readOnly o = true -> fs (snd (singleapp.Open d n o w)) = fs w.
Proof.
  intros Hro. unfold singleapp.Open.
  pose proof (fault_fs w) as Hf. destruct (fault w) as [b w1]. simpl in Hf.
  rewrite Hro. repeat case_match; simpl; exact Hf.
Qed.

Lemma single_Close_fs h w : fs (snd (singleapp.Close h w)) = fs w.
Proof.
  unfold singleapp.Close.
  pose proof (fault_fs w) as Hf. destruct (fault w) as [b w1]. simpl in Hf.
  repeat case_match; simpl; exact Hf.
Qed.

Lemma single_ReadAt_fs h n x w : fs (snd (singleapp.ReadAt h n x w)) = fs w.
Proof.
  unfold singleapp.ReadAt.
  pose proof (fault_fs w) as Hf. destruct (fault w) as [b w1]. simpl in Hf.
  repeat case_match; simpl; exact Hf.
Qed.

Lemma single_SetOffset_fs h x w :
  fs (snd (singleapp.SetOffset h x w)) = fs w.
Proof.
  unfold singleapp.SetOffset.
  pose proof (fault_fs w) as Hf. destruct (fault w) as [b w1]. simpl in Hf.
  repeat case_match; simpl; exact Hf.
Qed.

Lemma single_Flush_fs h w : fs (snd (singleapp.Flush h w)) = fs w.
Proof.
  unfold singleapp.Flush.
  pose proof (fault_fs w) as Hf. destruct (fault w) as [b w1]. simpl in Hf.
  repeat case_match; simpl; exact Hf.
Qed.

Lemma single_Sync_fs h w : fs (snd (singleapp.Sync h w)) = fs w.
Proof.
  unfold singleapp.Sync.
  pose proof (fault_fs w) as Hf. destruct (fault w) as [b w1]. simpl in Hf.
  repeat case_match; simpl; exact Hf.
Qed.

Lemma close_ejected_fs ej w : fs (snd (close_ejected ej w)) = fs w.
Proof.
  destruct ej as [[k v]|]; simpl; [apply single_Close_fs|reflexivity].
Qed.

Lemma apply_entries_fs fn es w :
  (forall k v w0, fs (snd (fn k v w0)) = fs w0) ->
  fs (snd (cache.apply_entries fn es w)) = fs w.
Proof.
  intros Hfn. revert w. induction es as [|[k v] es IH]; intros w; simpl;
    [reflexivity|].
  pose proof (Hfn k v w) as Hs. destruct (fn k v w) as [[e|] w1]; simpl in *;
    [exact Hs|]. by rewrite IH.
Qed.

Lemma openAppendable_fs_ro mf nm w :
  readOnly mf = true -> fs (snd (openAppendable mf nm w)) = fs w.
Proof. intros Hro. unfold openAppendable. by apply single_Open_fs_ro. Qed.

Lemma appendableFor_fs_ro off mf w :
  readOnly mf = true -> fs (snd (appendableFor off mf w)) = fs w.
Proof.
  intros Hro. unfold appendableFor.
  destruct (closed mf); [reflexivity|].
  destruct (appendableID _ _); [|reflexivity].
  destruct (cache.Get _ _) as [[app|e] c]; [reflexivity|].
  destruct (negb _); [reflexivity|].
  pose proof (openAppendable_fs_ro (set_appendables c mf)
                (appendableName z (fileExt (set_appendables c mf))) w Hro)
    as Ho.
  destruct (openAppendable _ _ _) as [[app|e1] w1]; simpl in Ho;
    [|exact Ho].
  destruct (cache.Put _ _ _) as [[ej e2] c2]. destruct e2; [exact Ho|].
  pose proof (close_ejected_fs ej w1) as Hc.
  destruct (close_ejected ej w1) as [[e3|] w2]; simpl in *; congruence.
Qed.

Lemma read_loop_fs_ro fuel n off acc mf w :
  readOnly mf = true -> fs (snd (read_loop fuel n off acc mf w)) = fs w.
Proof.
  revert acc mf w. induction fuel as [|fuel IH]; intros acc mf w Hro.
  - simpl. destruct (_ <? _)%nat; reflexivity.
  - rewrite read_loop_S. destruct (_ <? _)%nat; simpl negb; cbv iota;
      [|reflexivity]. cbv zeta.
    pose proof (appendableFor_fs_ro (wrap64 (off + Z.of_nat (length acc)))
                  mf w Hro) as Ha.
    destruct (appendableFor _ mf w) as [[app mf1] w1] eqn:HA. simpl in Ha.
    apply appendableFor_config in HA as (_ & Hro1 & _).
    rewrite Hro in Hro1.
    destruct app as [[app|e]| |]; try exact Ha.
    destruct (go_rem _ _) as [x|]; [|exact Ha].
    pose proof (single_ReadAt_fs app (n - length acc) x w1) as Hr.
    destruct (singleapp.ReadAt _ _ _ _) as [[out err] w2]. simpl in Hr.
    destruct err as [e|].
    + destruct (_ && _); [rewrite IH by exact Hro1|simpl]; congruence.
    + rewrite IH by exact Hro1. congruence.
Qed.

Lemma SetOffset_fs_ro off mf w :
  readOnly mf = true -> fs (snd (SetOffset off mf w)) = fs w.
Proof.
  intros Hro. unfold SetOffset.
  destruct (closed mf); [reflexivity|].
  destruct (appendableID _ _) as [appID|]; [|reflexivity].
  destruct (if negb (currAppID mf =? appID) then _ else _)
    as [[err mf1] w1] eqn:Hmid.
  assert (Hfs : fs w1 = fs w).
  { destruct (negb _); [|by injection Hmid as _ _ <-].
    pose proof (openAppendable_fs_ro mf
                  (appendableName appID (fileExt mf)) w Hro) as Ho.
    destruct (openAppendable _ _ _) as [[app|e1] w2]; simpl in Ho;
      [|by injection Hmid as _ _ <-].
    destruct (cache.Put _ _ _) as [[ej e2] c2].
    destruct e2; [by injection Hmid as _ _ <-|].
    pose proof (close_ejected_fs ej w2) as Hc.
    destruct (close_ejected ej w2) as [[e3|] w3]; simpl in Hc;
      injection Hmid as _ _ <-; congruence. }
  destruct err; [exact Hfs|].
  destruct (go_rem _ _) as [x|]; [|exact Hfs].
  pose proof (single_SetOffset_fs (currApp mf1) x w1) as Hs.
  destruct (singleapp.SetOffset _ _ _) as [e w2]. simpl in *. congruence.
Qed.

Lemma flush_fs mf w : fs (snd (flush mf w)) = fs w.
Proof.
  unfold flush. destruct (closed mf); [reflexivity|]. unfold cache.Apply.
  pose proof (apply_entries_fs (fun _ v => singleapp.Flush v)
                (cache.entries (appendables mf)) w
                (fun _ v w0 => single_Flush_fs v w0)) as Ha.
  destruct (cache.apply_entries _ _ _) as [[e|] w1]; simpl in Ha;
    [exact Ha|].
  rewrite single_Flush_fs. exact Ha.
Qed.

Lemma sync_fs mf w : fs (snd (sync mf w)) = fs w.
Proof.
  unfold sync. destruct (closed mf); [reflexivity|]. unfold cache.Apply.
  pose proof (apply_entries_fs (fun _ v => singleapp.Sync v)
                (cache.entries (appendables mf)) w
                (fun _ v w0 => single_Sync_fs v w0)) as Ha.
  destruct (cache.apply_entries _ _ _) as [[e|] w1]; simpl in Ha;
    [exact Ha|].
  rewrite single_Sync_fs. exact Ha.
Qed.

Lemma Close_fs mf w : fs (snd (Close mf w)) = fs w.
Proof.
  unfold Close. destruct (closed mf); [reflexivity|]. unfold cache.Apply.
  pose proof (apply_entries_fs (fun _ v => singleapp.Close v)
                (cache.entries (appendables (set_closed mf))) w
                (fun _ v w0 => single_Close_fs v w0)) as Ha.
  destruct (cache.apply_entries _ _ _) as [[e|] w1]; simpl in Ha;
    [exact Ha|].
  pose proof (single_Close_fs (currApp (set_closed mf)) w1) as Hc.
  destruct (singleapp.Close _ _) as [e w2]. simpl in *. congruence.
Qed.

Lemma step_fs_ro o mf w mf' w' :
  readOnly mf = true -> step o (mf, w) = Some (mf', w') ->
  fs w' = fs w /\ readOnly mf' = true.
Proof.
  intros Hro Hs. pose proof (step_config _ _ _ _ _ Hs) as (_ & Hro' & _).
  split; [|congruence]. unfold step in Hs. destruct o as [bs|n off|off| | | |sc].
  - unfold Append in Hs. rewrite Hro in Hs.
    destruct (closed mf); by injection Hs as _ <-.
  - pose proof (read_loop_fs_ro (S n) n off [] mf w Hro) as Hr.
    unfold ReadAt in Hs. destruct n as [|n]; [by injection Hs as _ <-|].
    destruct (read_loop _ _ _ _ _ _) as [[r mf1] w1]. simpl in Hr.
    destruct r; simplify_eq. exact Hr.
  - pose proof (SetOffset_fs_ro off mf w Hro) as Hr.
    destruct (SetOffset off mf w) as [[r mf1] w1]. simpl in Hr.
    destruct r; simplify_eq. exact Hr.
  - injection Hs as _ <-. apply flush_fs.
  - injection Hs as _ <-. apply sync_fs.
  - pose proof (Close_fs mf w) as Hr.
    destruct (Close mf w) as [[r mf1] w1]. simpl in Hr. by simplify_eq.
  - by injection Hs as _ <-.
Qed.

Lemma run_fs_ro ops mf mf' w w' :
  readOnly mf = true ->
  run ops (mf, w) = Some (mf', w') ->
  fs w' = fs w /\ readOnly mf' = true.
Proof.
  revert mf w. induction ops as [|o ops IH]; intros mf w Hro.
  - intros [= <- <-]. by split.
  - rewrite run_cons. destruct (step o (mf, w)) as [[mf1 w1]|] eqn:Hs;
      [|discriminate].
    apply step_fs_ro in Hs as [Hfs Hro1]; [|exact Hro].
    intros Hr. apply IH in Hr as [Hfs' Hro']; [|exact Hro1].
    split; congruence.
Qed.

Lemma Open_fs_ro p opts w :
  multiapp.readOnly opts = true ->
  fs (snd (Open p opts w)) = fs w
  /\ forall mf, fst (Open p opts w) = Ret (Ok mf) -> readOnly mf = true.
Proof.
  intros Hro. unfold Open. destruct (negb _); [by split|].
  assert (Hst : fs (snd (stat_or_mkdir p opts w)) = fs w).
  { unfold stat_or_mkdir, os.Stat.
    pose proof (fault_fs w) as Hf. destruct (fault w) as [b w1].
    simpl in Hf. repeat case_match; simplify_eq; simpl; try exact Hf.
    all: match goal with
         | E : _ || _ = false |- _ =>
             rewrite Hro, orb_true_r in E; discriminate
         end. }
  destruct (stat_or_mkdir p opts w) as [[e|] w1]; simpl in Hst;
    [by split|].
  assert (Hrd : fs (snd (os.ReadDir p w1)) = fs w1).
  { unfold os.ReadDir. pose proof (fault_fs w1) as Hf.
    destruct (fault w1) as [b w2]. simpl in Hf.
    repeat case_match; simpl; exact Hf. }
  destruct (os.ReadDir p w1) as [[fis|e] w2]; simpl in Hrd;
    [|split; [simpl; congruence|discriminate]].
  cbv zeta.
  destruct (match last fis with Some _ => _ | None => _ end)
    as [[[id fn]|e]| |]; try (split; [simpl; congruence|discriminate]).
  pose proof (single_Open_fs_ro p fn (tail_options opts) w2 Hro) as Ho.
  destruct (singleapp.Open _ _ _ _) as [[h|e] w3]; simpl in Ho;
    [|split; [simpl; congruence|discriminate]].
  destruct (cache.NewLRUCache _);
    [|split; [simpl; congruence|discriminate]].
  destruct (Meta.GetInt _ _) as [fS ok]. simpl.
  split; [congruence|]. intros mf [= <-]. exact Hro.
Qed.

(** X4: a store opened read-only never modifies the file system.  [Open]
    itself creates neither the directory nor a segment file, and whatever
    calls are then issued on the store ([Append], [ReadAt], [SetOffset],
    [Flush], [Sync], [Close]) and whichever of them fail, every directory
    and every file is afterwards as it was: reading or seeking past the
    end creates no segment. *)
Theorem read_only_store_never_writes (p : string) (opts : multiapp.Options)
    (w w1 : world) (r : outcome (res MultiFileAppendable)) :
  multiapp.readOnly opts = true ->
  Open p opts w = (r, w1) ->
  fs w1 = fs w
  /\ forall mf ops mf' w',
       r = Ret (Ok mf) -> run ops (mf, w1) = Some (mf', w') ->
       fs w' = fs w.
Proof.
  intros Hro HO. destruct (Open_fs_ro p opts w Hro) as [Hfs Hmf].
  rewrite HO in Hfs, Hmf. simpl in Hfs, Hmf. split; [exact Hfs|].
  intros mf ops mf' w' -> Hr.
  apply run_fs_ro in Hr as [Hfs' _]; [congruence|by apply Hmf].
Qed.

(** *** [ReadAt] changes nothing but the cache *)














(** *** Where [Append] leaves the write position *)

Lemma append_loop_done fuel bs off n mf w :
  Z.of_nat (length bs) <= n ->
  append_loop fuel bs off n mf w = (Ret (off, n, None), mf, w).
Proof.
  intros Hn. destruct fuel; simpl;
    (destruct (n <? _) eqn:E; [apply Z.ltb_lt in E; lia|reflexivity]).
Qed.

Lemma append_loop_end fuel bs off n mf w start n' mf' w' :
  sound mf w -> 0 <= n < Z.of_nat (length bs) ->
  Z.of_nat (length bs) <= max_int64 ->
  (currAppID mf + (Z.of_nat (length bs) - n) + 2) * fileSize mf
  <= max_int64 ->
  append_loop fuel bs off n mf w = (Ret (start, n', None), mf', w') ->
  currAppID mf' * fileSize mf + singleapp.Offset (currApp mf') w'
  = write_position mf w + (Z.of_nat (length bs) - n)
  /\ 0 < singleapp.Offset (currApp mf') w' <= fileSize mf.
Proof.
  revert off n mf w.
  induction fuel as [|fuel IH]; intros off n mf w Hs Hn Hlen Hb.
  - simpl. destruct (n <? _) eqn:E; simpl; [discriminate|].
    apply Z.ltb_ge in E. lia.
  - rewrite append_loop_S. destruct (n <? _) eqn:E; simpl negb; cbv iota.
    2: { apply Z.ltb_ge in E. lia. }
    pose proof (sound_size _ _ Hs) as HS. pose proof (sound_id _ _ Hs) as Hid.
    destruct (make_room mf w) as [[[e av] mf1] w1] eqn:Hm.
    destruct e; [discriminate|].
    apply make_room_sound in Hm
      as (Hs1 & Hav & Havq & Hpos1 & Hid1 & Hcfg1 & Hst1); auto; [|nia].
    pose proof Hcfg1 as (_ & _ & _ & _ & HfS & _).
    destruct (write_chunk bs n av mf1 w1) as [[[[offn d]|e]| |] w2] eqn:Hw;
      try discriminate.
    apply write_chunk_sound in Hw
      as (Hs2 & Hoffn & Hd & Hle & Hwr & Hoff2 & HoffS & Hnew & Hold);
      auto; try lia; [|rewrite HfS; nia].
    rewrite HfS in *. rewrite Hwr. lazy zeta. intros Hl.
    pose proof (sound_tail_off _ _ Hs1) as (f1 & _ & Hoff1 & _).
    assert (Hwp2 : write_position mf1 w2 = write_position mf w + d).
    { unfold write_position at 1. rewrite HfS, Hoff2.
      destruct (_ <=? 0) eqn:E2; [apply Z.leb_le in E2|]; lia. }
    destruct (decide (n + d < Z.of_nat (length bs))) as [Hlt|Hge].
    + assert (Hb2 : (currAppID mf1 + (Z.of_nat (length bs) - (n + d)) + 2)
                    * fileSize mf1 <= max_int64) by (rewrite HfS; nia).
      apply IH in Hl as [Hend Hrange]; auto; try lia.
    + rewrite append_loop_done in Hl by lia.
      injection Hl as _ _ <- <-. rewrite Hoff2. split; lia.
Qed.

(** What a successful [Append] on a sound store does. *)
Lemma Append_effect bs mf w start n mf' w' :
  sound mf w ->
  (currAppID mf + Z.of_nat (length bs) + 2) * fileSize mf <= max_int64 ->
  Append bs mf w = (Ret (start, n, None), mf', w') ->
  sound mf' w' /\ same_config mf mf' /\ closed mf' = false
  /\ n = Z.of_nat (length bs) /\ 0 < n
  /\ start = write_position mf w
  /\ (forall j, 0 <= j < n -> stored mf' w' (start + j) = bs !! Z.to_nat j)
  /\ (forall p, 0 <= p < start -> stored mf' w' p = stored mf w p)
  /\ currAppID mf' * fileSize mf + singleapp.Offset (currApp mf') w'
     = start + n
  /\ 0 < singleapp.Offset (currApp mf') w' <= fileSize mf.
Proof.
  intros Hs Hb HA.
  pose proof (sound_size _ _ Hs) as HS. pose proof (sound_id _ _ Hs) as Hid.
  assert (Hlen : Z.of_nat (length bs) <= max_int64) by nia.
  unfold Append in HA.
  destruct (closed mf) eqn:Hcl; [discriminate|].
  destruct (readOnly mf); [discriminate|].
  destruct bs as [|b0 bs0] eqn:Hbs; [discriminate|]. rewrite <- Hbs in *.
  assert (Hpos : 0 < Z.of_nat (length bs)) by (subst bs; simpl; lia).
  pose proof (append_loop_closed _ _ _ _ _ _ _ _ _ HA) as Hcl'.
  pose proof HA as HA2.
  apply append_loop_end in HA2 as [Hend Hrange]; auto; try lia.
  apply append_loop_sound in HA
    as (Hs' & Hcfg & -> & Hstart & Hnew & Hold); auto; try lia.
  rewrite (Hstart eq_refl Hpos) in *.
  split_and!; auto; try lia; try congruence.
  intros j Hj. rewrite <- Hnew by lia. f_equal. lia.
Qed.

(** X6: on a consistent store without compression, a successful [Append]
    of [bs] leaves [Offset()] at [start + len(bs)], and the next
    successful [Append] starts there: consecutive appends are contiguous
    in the logical stream, also across segment boundaries. *)
Theorem Append_advances_Offset (bs bs2 : list byte)
    (mf mf' mf2 : MultiFileAppendable) (w w' w2 : world)
    (start n start2 n2 : Z) :
  consistent mf w = true ->
  (currAppID mf + Z.of_nat (length bs) + Z.of_nat (length bs2) + 3)
  * fileSize mf <= max_int64 ->
  Append bs mf w = (Ret (start, n, None), mf', w') ->
  Append bs2 mf' w' = (Ret (start2, n2, None), mf2, w2) ->
  Offset mf' w' = start + Z.of_nat (length bs)
  /\ start2 = start + Z.of_nat (length bs)
  /\ Offset mf2 w2 = start + Z.of_nat (length bs) + Z.of_nat (length bs2).
Proof.
  intros Hc Hb HA HA2. apply consistent_sound in Hc.
  pose proof (sound_size _ _ Hc) as HS. pose proof (sound_id _ _ Hc) as Hid.
  apply Append_effect in HA
    as (Hs' & Hcfg & _ & -> & Hpos & Hst & _ & _ & Hend & Hoff); auto;
    [|nia].
  pose proof Hcfg as (_ & _ & _ & _ & HfS & _).
  pose proof (sound_id _ _ Hs') as Hid'.
  pose proof (sound_tail_off _ _ Hc) as (f0 & _ & Hoff0 & _).
  assert (Hwp : 0 <= start <= (currAppID mf + 1) * fileSize mf).
  { rewrite Hst. unfold write_position.
    destruct (_ <=? 0) eqn:E; [apply Z.leb_le in E|apply Z.leb_gt in E];
      nia. }
  assert (Hidb : currAppID mf' * fileSize mf
                 <= start + Z.of_nat (length bs)) by nia.
  assert (Hid'' : currAppID mf' <= currAppID mf + Z.of_nat (length bs) + 1).
  { assert (currAppID mf' * fileSize mf
            < (currAppID mf + Z.of_nat (length bs) + 2) * fileSize mf)
      by nia.
    nia. }
  assert (Hwp' : write_position mf' w' = start + Z.of_nat (length bs)).
  { unfold write_position. rewrite HfS.
    destruct (_ <=? 0) eqn:E; [apply Z.leb_le in E|apply Z.leb_gt in E];
      nia. }
  apply Append_effect in HA2
    as (Hs2 & Hcfg2 & _ & -> & Hpos2 & Hst2 & _ & _ & Hend2 & Hoff2); auto;
    [|rewrite HfS; nia].
  pose proof Hcfg2 as (_ & _ & _ & _ & HfS2 & _).
  pose proof (sound_id _ _ Hs2) as Hid2.
  rewrite HfS in Hend2, Hoff2. rewrite Hwp' in Hst2.
  assert (Hmax : start + Z.of_nat (length bs) + Z.of_nat (length bs2)
                 <= max_int64) by nia.
  split_and!; [|exact Hst2|].
  - unfold Offset. rewrite HfS.
    rewrite (wrap64_id (currAppID mf' * fileSize mf))
      by (unfold in_int64, min_int64, max_int64 in *; nia).
    rewrite Hend. apply wrap64_id.
    unfold in_int64, min_int64, max_int64 in *. lia.
  - unfold Offset. rewrite HfS2, HfS.
    assert (0 <= currAppID mf2 * fileSize mf) by nia.
    rewrite (wrap64_id (currAppID mf2 * fileSize mf))
      by (unfold in_int64, min_int64, max_int64 in *; lia).
    rewrite Hend2, Hst2. apply wrap64_id.
    unfold in_int64, min_int64, max_int64 in *. lia.
Qed.

(** X7: [Append] only adds: on a consistent store without compression,
    after a successful [Append] every byte that was stored below the
    offset the call returned is still read back by [ReadAt] at the same
    logical offset. *)
Theorem Append_keeps_earlier_bytes (bs : list byte)
    (mf mf' : MultiFileAppendable) (w w' : world) (start n p : Z)
    (b : byte) :
  consistent mf w = true ->
  (currAppID mf + Z.of_nat (length bs) + 2) * fileSize mf <= max_int64 ->
  Append bs mf w = (Ret (start, n, None), mf', w') ->
  0 <= p < start ->
  stored mf w p = Some b ->
  stored mf' w' p = Some b
  /\ fst (fst (ReadAt 1 p mf' w')) = Ret ([b], None).
Proof.
  intros Hc Hb HA Hp Hst. apply consistent_sound in Hc.
  pose proof (sound_size _ _ Hc) as HS. pose proof (sound_id _ _ Hc) as Hid.
  pose proof (sound_tail_off _ _ Hc) as (f0 & _ & Hoff0 & _).
  apply Append_effect in HA
    as (Hs' & Hcfg & Hcl & -> & Hpos & Hstart & _ & Hold & _); auto.
  assert (Hwp : start <= (currAppID mf + 1) * fileSize mf).
  { rewrite Hstart. unfold write_position.
    destruct (_ <=? 0) eqn:E; [apply Z.leb_le in E|apply Z.leb_gt in E];
      nia. }
  assert (Hst' : stored mf' w' p = Some b) by (rewrite Hold; auto).
  split; [exact Hst'|].
  apply ReadAt_byte; auto. nia.
Qed.

(** *** [Copy] *)

(** The file that [os.Create] leaves: no header, no payload. *)
Definition created_file : file := File nil_blob 0 0 [].

Lemma copyFile_effect src dst name w w' :
  copyFile src dst name w = (None, w') ->
  read_file w' dst name
  = (if decide (src = dst) then Some created_file
     else read_file w src name)
  /\ is_Some (read_file w' dst name)
  /\ (forall d n, ~ (d = dst /\ n = name) ->
        read_file w' d n = read_file w d n)
  /\ heap w' = heap w.
Proof.
  unfold copyFile.
  pose proof (fault_fs w) as Hf1. pose proof (fault_heap w) as Hh1.
  destruct (fault w) as [b1 w1]. simpl in Hf1, Hh1.
  destruct b1; [discriminate|].
  destruct (fs w1 !! dst) as [[es|f0]|] eqn:Hd; try discriminate.
  assert (Hdir1 : is_dir w1 dst) by (by exists es).
  set (wt := write_file dst name (File nil_blob 0 0 []) w1).
  pose proof (fault_fs wt) as Hf2. pose proof (fault_heap wt) as Hh2.
  destruct (fault wt) as [b2 w2]. simpl in Hf2, Hh2.
  destruct b2; [discriminate|].
  assert (Hr2 : forall d n, read_file w2 d n = read_file wt d n).
  { intros d n. unfold read_file. by rewrite Hf2. }
  assert (Hr1 : forall d n, read_file w1 d n = read_file w d n).
  { intros d n. unfold read_file. by rewrite Hf1. }
  destruct (read_file w2 src name) as [f|] eqn:Hsrc; [|discriminate].
  pose proof (fault_fs w2) as Hf3. pose proof (fault_heap w2) as Hh3.
  destruct (fault w2) as [b3 w3]. simpl in Hf3, Hh3.
  destruct b3; [discriminate|]. intros [= <-].
  assert (Hr3 : forall d n, read_file w3 d n = read_file w2 d n).
  { intros d n. unfold read_file. by rewrite Hf3. }
  assert (Hdir3 : is_dir w3 dst).
  { unfold is_dir. rewrite Hf3, Hf2. subst wt.
    apply (write_file_is_dir dst name _ w1 dst Hdir1). }
  assert (Hcopy : read_file (write_file dst name f w3) dst name = Some f).
  { rewrite read_write_file by exact Hdir3. by rewrite decide_True. }
  rewrite Hr2 in Hsrc. subst wt.
  rewrite read_write_file in Hsrc by exact Hdir1.
  split_and!.
  - rewrite Hcopy. destruct (decide (src = dst)) as [->|Hne].
    + rewrite decide_True in Hsrc by done. exact (eq_sym Hsrc).
    + rewrite decide_False in Hsrc by tauto. by rewrite <- Hr1.
  - rewrite Hcopy. eauto.
  - intros d n Hne. rewrite read_write_file by exact Hdir3.
    rewrite decide_False by exact Hne. rewrite Hr3, Hr2.
    rewrite read_write_file by exact Hdir1.
    rewrite decide_False by exact Hne. apply Hr1.
  - rewrite write_file_heap, Hh3, Hh2, write_file_heap. exact Hh1.
Qed.

Lemma copy_files_effect src dst fis w w' :
  copy_files src dst fis w = (None, w') ->
  (forall n, n ∈ fis ->
     read_file w' dst n
     = (if decide (src = dst) then Some created_file
        else read_file w src n)
     /\ is_Some (read_file w' dst n))
  /\ (forall d n, ~ (d = dst /\ n ∈ fis) ->
        read_file w' d n = read_file w d n)
  /\ heap w' = heap w.
Proof.
  revert w. induction fis as [|fd fis IH]; intros w; simpl.
  - intros [= <-]. split_and!; [|done..]. intros n Hn. inversion Hn.
  - destruct (copyFile src dst fd w) as [[e|] w1] eqn:Hc; [discriminate|].
    apply copyFile_effect in Hc as (Hfd & Hsome & Hother & Hheap).
    intros Hrest. apply IH in Hrest as (Hin & Hout & Hheap').
    split_and!; [| |congruence].
    + intros n Hn. destruct (decide (n ∈ fis)) as [Hi|Hni].
      * destruct (Hin n Hi) as [Heq Hs]. split; [|exact Hs].
        rewrite Heq. destruct (decide (src = dst)) as [->|Hne];
          [reflexivity|]. apply Hother. tauto.
      * apply elem_of_cons in Hn as [->|Hn]; [|contradiction].
        rewrite Hout by tauto. by split.
    + intros d n Hne. rewrite Hout.
      * apply Hother. intros [-> ->]. apply Hne. split; [done|left].
      * intros [-> Hn]. apply Hne. split; [done|by right].
Qed.

Lemma ReadDir_names p w es :
  fs w !! p = Some (Dir es) ->
  forall fis w', os.ReadDir p w = (Ok fis, w') ->
    fs w' = fs w /\ heap w' = heap w
    /\ forall n, n ∈ fis <-> is_Some (es !! n).
Proof.
  intros Hd fis w'. unfold os.ReadDir.
  pose proof (fault_fs w) as Hf. pose proof (fault_heap w) as Hh.
  destruct (fault w) as [b w1]. simpl in Hf, Hh.
  destruct b; [discriminate|]. rewrite Hf, Hd. intros [= <- <-].
  split_and!; auto. intros n. rewrite merge_sort_Permutation.
  rewrite list_elem_of_fmap. split.
  - intros ([n' f] & -> & Hin). apply elem_of_map_to_list in Hin. eauto.
  - intros [f Hf']. exists (n, f). split; [done|].
    by apply elem_of_map_to_list.
Qed.

Lemma MkdirAll_effect p w w' :
  os.MkdirAll p w = (None, w') ->
  is_dir w' p /\ heap w' = heap w
  /\ (forall d n, read_file w' d n = read_file w d n)
  /\ (forall d, d <> p -> fs w' !! d = fs w !! d).
Proof.
  unfold os.MkdirAll.
  pose proof (fault_fs w) as Hf. pose proof (fault_heap w) as Hh.
  destruct (fault w) as [b w1]. simpl in Hf, Hh.
  destruct b; [discriminate|].
  destruct (fs w1 !! p) as [[es|f0]|] eqn:Hd; [| discriminate|];
    intros [= <-].
  - split_and!; auto; [by exists es| |intros; by rewrite Hf].
    intros d n. unfold read_file. by rewrite Hf.
  - split_and!; auto.
    + exists ∅. simpl. by rewrite lookup_insert_eq.
    + intros d n. unfold read_file. simpl.
      destruct (decide (d = p)) as [->|Hne].
      * rewrite lookup_insert_eq. rewrite <- Hf, Hd. by rewrite lookup_empty.
      * rewrite lookup_insert_ne by done. by rewrite Hf.
    + intros d Hne. simpl. rewrite lookup_insert_ne by done. by rewrite Hf.
Qed.

(** What a successful [Copy] has done, whatever the destination. *)
Lemma Copy_effect dst mf w w' :
  Copy dst mf w = (None, w') ->
  closed mf = false
  /\ (forall n f, read_file w (path mf) n = Some f ->
        read_file w' dst n
        = (if decide (path mf = dst) then Some created_file else Some f))
  /\ (forall d n, ~ (d = dst /\ is_Some (read_file w (path mf) n)) ->
        read_file w' d n = read_file w d n).
Proof.
  unfold Copy. destruct (closed mf) eqn:Hcl; [discriminate|].
  pose proof (flush_fs mf w) as Hf1.
  destruct (flush mf w) as [[e|] w1]; [discriminate|]. simpl in Hf1.
  pose proof (sync_fs mf w1) as Hf2.
  destruct (sync mf w1) as [[e|] w2] eqn:Hsy; [discriminate|]. simpl in Hf2.
  destruct (os.MkdirAll dst w2) as [[e|] w3] eqn:Hmk; [discriminate|].
  apply MkdirAll_effect in Hmk as (Hdir3 & Hh3 & Hr3 & Hfs3).
  destruct (os.ReadDir (path mf) w3) as [[fis|e] w4] eqn:Hrd;
    [|discriminate].
  intros Hcp.
  assert (Hr0 : forall d n, read_file w3 d n = read_file w d n).
  { intros d n. rewrite Hr3. unfold read_file. by rewrite Hf2, Hf1. }
  assert (Hsrc : exists es, fs w3 !! path mf = Some (Dir es)).
  { unfold os.ReadDir in Hrd. destruct (fault w3) as [b w3'] eqn:Hfl.
    pose proof (fault_fs w3) as Hf. rewrite Hfl in Hf. simpl in Hf.
    destruct b; [discriminate|]. rewrite Hf in Hrd.
    destruct (fs w3 !! path mf) as [[es|f0]|]; try discriminate. eauto. }
  destruct Hsrc as [es Hes].
  destruct (ReadDir_names _ _ _ Hes _ _ Hrd) as (Hfs4 & Hh4 & Hnames).
  assert (Hr4 : forall d n, read_file w4 d n = read_file w d n).
  { intros d n. rewrite <- Hr0. unfold read_file. by rewrite Hfs4. }
  assert (Hin : forall n, n ∈ fis <-> is_Some (read_file w (path mf) n)).
  { intros n. rewrite Hnames, <- Hr0. unfold read_file. by rewrite Hes. }
  apply copy_files_effect in Hcp as (Hcopied & Hother & Hh5).
  split_and!; auto.
  - intros n f Hf. destruct (Hcopied n) as [Heq _]; [apply Hin; eauto|].
    rewrite Heq. destruct (decide _); [reflexivity|]. by rewrite Hr4.
  - intros d n Hne. rewrite Hother, Hr4; [reflexivity|].
    intros [-> Hn]. apply Hne. split; [done|]. by apply Hin.
Qed.


(** X9: [Copy] onto the store's own directory destroys the store: each
    file is truncated by [os.Create] before it is opened as the source,
    so when the call returns without error every file of the directory is
    empty. *)
Theorem Copy_onto_own_directory_truncates (mf : MultiFileAppendable)
    (w w' : world) (n : string) (f : file) :
  Copy (path mf) mf w = (None, w') ->
  read_file w (path mf) n = Some f ->
  read_file w' (path mf) n = Some created_file.
Proof.
  intros HC Hf. apply Copy_effect in HC as (_ & Hcopied & _).
  rewrite (Hcopied n f Hf). by rewrite decide_True.
Qed.

(** *** [Open] on a fresh directory *)

(** The header of the segments of a store created with [opts]. *)
Definition fresh_header (opts : multiapp.Options) : blob :=
  Envelope [(metaFileSize, MInt (multiapp.fileSize opts));
            (metaWrappedMeta, MBytes (multiapp.metadata opts))].

Definition fresh_segment (opts : multiapp.Options) : file :=
  File (fresh_header opts) (multiapp.compressionFormat opts)
       (multiapp.compressionLevel opts) [].

(** X10: with valid options and no file-system failure, [Open] in writable
    mode on a path that is absent, or an empty directory, succeeds.  The
    directory then holds the single empty segment [00000000.ext], whose
    header carries the segment size and the caller's metadata; the store
    is open with tail id 0, an empty cache, the segment size and the
    compression settings of the options, [Offset() = 0], and [Metadata()]
    returns the caller's metadata. *)
Theorem Open_fresh_directory (p : string) (opts : multiapp.Options)
    (w : world) :
  validOptions opts = true ->
  multiapp.readOnly opts = false ->
  faults w = [] ->
  fs w !! p = None \/ fs w !! p = Some (Dir ∅) ->
  exists mf w',
    Open p opts w = (Ret (Ok mf), w')
    /\ fs w'
       = <[p := Dir {[appendableName 0 (multiapp.fileExt opts)
                      := fresh_segment opts]}]> (fs w)
    /\ currAppID mf = 0 /\ closed mf = false /\ cache_keys mf = []
    /\ path mf = p /\ fileExt mf = multiapp.fileExt opts
    /\ fileSize mf = multiapp.fileSize opts
    /\ Offset mf w' = 0
    /\ Metadata mf w' = multiapp.metadata opts
    /\ CompressionFormat mf w' = multiapp.compressionFormat opts
    /\ CompressionLevel mf w' = multiapp.compressionLevel opts.
Proof.
  intros Hv Hro Hfa Hp.
  pose proof Hv as Hv'. unfold validOptions in Hv'.
  repeat (apply andb_prop in Hv' as [Hv' ?]).
  assert (HS : 0 < multiapp.fileSize opts) by (by apply Z.ltb_lt).
  assert (HC : 0 < multiapp.maxOpenedFiles opts) by (by apply Z.ltb_lt).
  assert (Hst : exists w1,
            stat_or_mkdir p opts w = (None, w1) /\ faults w1 = []
            /\ heap w1 = heap w
            /\ fs w1 = <[p := Dir ∅]> (fs w)).
  { unfold stat_or_mkdir, os.Stat. rewrite (fault_free w Hfa).
    destruct Hp as [Hp|Hp]; rewrite Hp.
    - simpl. rewrite Hro. unfold os.Mkdir. rewrite (fault_free w Hfa), Hp.
      eexists. split_and!; simpl; auto.
    - exists w. split_and!; auto. by rewrite insert_id. }
  destruct Hst as (w1 & Hst & Hfa1 & Hh1 & Hfs1).
  unfold Open. rewrite Hv, Hst. simpl negb. cbv iota.
  unfold os.ReadDir. rewrite (fault_free w1 Hfa1), Hfs1, lookup_insert_eq.
  rewrite map_to_list_empty. cbn [map merge_sort last].
  change (merge_sort os.name_le []) with (@nil string). cbn [last].
  unfold appendableID.
  destruct (multiapp.fileSize opts =? 0) eqn:Ez;
    [apply Z.eqb_eq in Ez; lia|].
  change (wrap64 (Z.quot 0 (multiapp.fileSize opts))) with 0.
  unfold singleapp.Open. rewrite (fault_free w1 Hfa1), Hfs1, lookup_insert_eq.
  rewrite lookup_empty.
  change (singleapp.readOnly (tail_options opts))
    with (multiapp.readOnly opts). rewrite Hro.
  unfold cache.NewLRUCache.
  destruct (multiapp.maxOpenedFiles opts <=? 0) eqn:Ec;
    [apply Z.leb_le in Ec; lia|].
  rewrite write_file_heap.
  set (a := Handle _ _ _ _ _ _ _ _ _).
  set (w2 := set_heap _ _).
  assert (Hlk : heap w2 !! length (heap w1) = Some a).
  { subst w2. simpl. rewrite lookup_app_r by lia. by rewrite Nat.sub_diag. }
  assert (Hm : singleapp.Metadata (length (heap w1)) w2 = fresh_header opts).
  { unfold singleapp.Metadata. rewrite Hlk. reflexivity. }
  rewrite Hm.
  change (Meta.GetInt metaFileSize (Meta.NewMetadata (fresh_header opts)))
    with (multiapp.fileSize opts, true). cbv iota beta.
  eexists _, _. split; [reflexivity|].
  unfold Offset, Metadata, CompressionFormat, CompressionLevel,
    singleapp.Offset, singleapp.CompressionFormat,
    singleapp.CompressionLevel.
  cbn [currAppID currApp closed path fileExt fileSize].
  rewrite Hm, Hlk.
  split_and!; try reflexivity.
  subst w2. unfold write_file. rewrite Hfs1, lookup_insert_eq. simpl.
  rewrite insert_insert_eq, insert_empty. reflexivity.
Qed.

(** X11: with valid options and no file-system failure, [Open] fails and
    leaves the world as it is when the path names a regular file
    ([ErrorPathIsNotADirectory]), and, in read-only mode, when the path is
    absent or is an empty directory (the error of the missing file): a
    read-only [Open] creates neither the directory nor the first
    segment. *)
Theorem Open_refuses (p : string) (opts : multiapp.Options) (w : world) :
  validOptions opts = true ->
  faults w = [] ->
  (forall f, fs w !! p = Some (Reg f) ->
     Open p opts w = (Ret (Err ErrorPathIsNotADirectory), w))
  /\ (multiapp.readOnly opts = true ->
      fs w !! p = None \/ fs w !! p = Some (Dir ∅) ->
      Open p opts w = (Ret (Err ErrNotExist), w)).
Proof.
  intros Hv Hfa.
  pose proof Hv as Hv'. unfold validOptions in Hv'.
  repeat (apply andb_prop in Hv' as [Hv' ?]).
  assert (HS : 0 < multiapp.fileSize opts) by (by apply Z.ltb_lt).
  split.
  - intros f Hp. unfold Open, stat_or_mkdir, os.Stat.
    rewrite Hv, (fault_free w Hfa), Hp. reflexivity.
  - intros Hro [Hp|Hp].
    + unfold Open, stat_or_mkdir, os.Stat.
      rewrite Hv, (fault_free w Hfa), Hp, Hro. reflexivity.
    + unfold Open, stat_or_mkdir, os.Stat, os.ReadDir.
      rewrite Hv, (fault_free w Hfa), Hp. simpl negb. cbv iota.
      rewrite (fault_free w Hfa), Hp, map_to_list_empty.
      change (merge_sort os.name_le (map fst [])) with (@nil string).
      cbn [last]. unfold appendableID.
      destruct (multiapp.fileSize opts =? 0) eqn:Ez;
        [apply Z.eqb_eq in Ez; lia|].
      unfold singleapp.Open. rewrite (fault_free w Hfa), Hp, lookup_empty.
      change (singleapp.readOnly (tail_options opts))
        with (multiapp.readOnly opts). rewrite Hro. reflexivity.
Qed.

(** *** [Flush], [Sync] and [Close] on a tidy store *)




Lemma apply_close_all es w :
  faults w = [] -> NoDup (map snd es) ->
  (forall e, e ∈ es -> flags w !! snd e = Some false) ->
  exists w',
    cache.apply_entries (fun _ v => singleapp.Close v) es w = (None, w')
    /\ faults w' = []
    /\ forall i, flags w' !! i
                 = if decide (i ∈ map snd es) then Some true
                   else flags w !! i.
Proof.
  revert w. induction es as [|[k v] es IH]; intros w Hf Hnd Hopen.
  - exists w. simpl. split_and!; auto.
  - simpl in Hnd. apply NoDup_cons in Hnd as [Hv Hnd].
    destruct (single_Close_succeeds v w Hf) as [w1 Hc];
      [apply (Hopen (k, v)); left|].
    pose proof (single_Close_cases v w) as Hcases. rewrite Hc in Hcases.
    destruct Hcases as (Hfv & Hfl & _ & Hfa & _).
    destruct (IH w1) as (w' & Hap & Hf' & Hfl'); auto.
    { intros e He. rewrite Hfl, list_lookup_insert_ne.
      - apply Hopen. by right.
      - intros ->. apply Hv. apply list_elem_of_fmap. eauto. }
    exists w'. simpl. rewrite Hc. split_and!; auto.
    intros i. rewrite Hfl', Hfl.
    destruct (decide (i ∈ map snd es)) as [Hi|Hi].
    + rewrite decide_True by (by right). reflexivity.
    + destruct (decide (i = v)) as [->|Hne].
      * rewrite decide_True by left.
        apply list_lookup_insert_eq. by eapply lookup_lt_Some.
      * rewrite list_lookup_insert_ne by done.
        rewrite decide_False; [reflexivity|].
        intros Hin. apply elem_of_cons in Hin as [?|?]; contradiction.
Qed.

Lemma tidy_Close mf w :
  tidy mf w ->
  exists w',
    Close mf w = (None, set_closed mf, w')
    /\ open_count (heap w') = 0%nat /\ fs w' = fs w /\ faults w' = [].
Proof.
  intros Ht. pose proof (tidy_cache _ _ Ht) as (_ & Hnd & Hopen & _).
  pose proof (Close_fs mf w) as Hfs.
  unfold Close in *. rewrite (tidy_open _ _ Ht) in *. unfold cache.Apply in *.
  destruct (apply_close_all (cache.entries (appendables mf)) w)
    as (w1 & Hap & Hf1 & Hfl1); auto; [apply Ht|].
  change (appendables (set_closed mf)) with (appendables mf) in *.
  change (currApp (set_closed mf)) with (currApp mf) in *.
  rewrite Hap in *.
  assert (Htail : flags w1 !! currApp mf = Some false).
  { rewrite Hfl1, decide_False; [apply (tidy_tail _ _ Ht)|].
    apply (tidy_tail_out _ _ Ht). }
  destruct (single_Close_succeeds (currApp mf) w1 Hf1 Htail) as [w2 Hc].
  pose proof (single_Close_cases (currApp mf) w1) as Hcases.
  rewrite Hc in *. destruct Hcases as (_ & Hfl2 & _ & Hfa2 & _).
  exists w2. split_and!; auto.
  rewrite open_count_count. apply count_open_none. intros i.
  rewrite Hfl2. destruct (decide (i = currApp mf)) as [->|Hne].
  - rewrite list_lookup_insert_eq by (by eapply lookup_lt_Some).
    discriminate.
  - rewrite list_lookup_insert_ne by done. rewrite Hfl1.
    destruct (decide _) as [Hi|Hi]; [discriminate|].
    intros Hopen'. apply (tidy_owned _ _ Ht) in Hopen' as [?|?]; auto.
Qed.


(** X13: after [Open] (in a world without open handles) and any run of
    [Append], [Flush], [Sync] and [ReadAt] below the tail, absent
    file-system failures, [Close] succeeds and releases every handle: the
    cached ones and the tail are closed, none is left open, and no file
    is modified. *)
Theorem Close_releases_every_handle (p : string) (opts : multiapp.Options)
    (w0 w w' : world) (mf mf' : MultiFileAppendable) (ops : list op) :
  Open p opts w0 = (Ret (Ok mf), w) ->
  faults w0 = [] -> open_count (heap w0) = 0%nat ->
  gentle_run ops (mf, w) = true ->
  run ops (mf, w) = Some (mf', w') ->
  exists w'',
    Close mf' w' = (None, set_closed mf', w'')
    /\ open_count (heap w'') = 0%nat /\ fs w'' = fs w'.
Proof.
  intros HO Hfa Hoc Hg Hr.
  apply Open_tidy in HO as (Ht & _ & _); auto.
  eapply run_tidy in Hr as (Ht' & _ & _); eauto.
  destruct (tidy_Close _ _ Ht') as (w'' & HC & Hz & Hfs & _). eauto.
Qed.


(** *** [SetOffset] on a consistent store *)

Lemma single_SetOffset_success h x w w' :
  singleapp.SetOffset h x w = (None, w') ->
  exists a f,
    heap w !! h = Some a /\ a_closed a = false
    /\ read_file w (a_dir a) (a_name a) = Some f
    /\ 0 <= x <= Z.of_nat (length (f_data f))
    /\ heap w' = <[h := set_a_offset x a]> (heap w)
    /\ fs w' = fs w /\ (faults w = [] -> faults w' = []).
Proof.
  unfold singleapp.SetOffset.
  destruct (fault_cases w) as (b & w1 & Hf & Hfs & Hh & _ & Hfl). rewrite Hf.
  destruct b; [discriminate|]. cbv beta iota.
  assert (Hrf : forall d n, read_file w1 d n = read_file w d n)
    by (intros; by apply read_file_fs).
  rewrite Hh. destruct (heap w !! h) as [a|] eqn:Ha; [|discriminate].
  destruct (a_closed a) eqn:Hc; [discriminate|]. rewrite Hrf.
  destruct (read_file w _ _) as [f|] eqn:Hr; [|discriminate].
  destruct (_ || _) eqn:E; [discriminate|]. intros [= <-].
  apply orb_false_iff in E as [E1 E2].
  apply Z.ltb_ge in E1. apply Z.ltb_ge in E2.
  exists a, f. simpl. split_and!; auto.
  intros Hfa. apply Hfl in Hfa. tauto.
Qed.

(** A sound store but for the position of the tail's write offset. *)
Definition seated (mf : MultiFileAppendable) (w : world) : Prop :=
  faults w = [] /\ 0 < fileSize mf /\ 0 <= currAppID mf
  /\ serves mf w (currAppID mf) (currApp mf)
  /\ (forall n f, read_file w (path mf) n = Some f -> f_cf f = NoCompression)
  /\ (forall k v, (k, v) ∈ cache.entries (appendables mf) ->
        0 <= k <= max_int64 /\ serves mf w k v)
  /\ NoDup (cache_keys mf).

Lemma sound_seated mf w : sound mf w -> seated mf w.
Proof. intros []. unfold seated. split_and!; auto. Qed.

Lemma seated_SetOffset mf w x w' :
  seated mf w -> x <= max_int64 ->
  singleapp.SetOffset (currApp mf) x w = (None, w') ->
  sound mf w' /\ singleapp.Offset (currApp mf) w' = x /\ 0 <= x
  /\ fs w' = fs w.
Proof.
  intros (Hfa & HS & Hid & Htail & Hfiles & Hcache & Hkeys) Hx Hso.
  pose proof (single_SetOffset_ok _ _ _ _ Hso) as [Hoff Hx0].
  apply single_SetOffset_success in Hso
    as (a & f & Ha & Hcl & Hrf & Hxr & Hheap & Hfs & Hfa').
  assert (Hrf' : forall d n, read_file w' d n = read_file w d n)
    by (intros; by apply read_file_fs).
  assert (Hident : forall v, ident <$> (heap w' !! v) = ident <$> (heap w !! v)).
  { intros v. rewrite Hheap. destruct (decide (v = currApp mf)) as [->|Hne].
    - rewrite list_lookup_insert_eq by (by eapply lookup_lt_Some).
      rewrite Ha. reflexivity.
    - by rewrite list_lookup_insert_ne. }
  split_and!; auto. constructor; auto.
  - eapply serves_transfer; eauto.
  - destruct Htail as (a0 & Ha0 & _ & Hd & Hn & _).
    rewrite Ha in Ha0. injection Ha0 as <-.
    exists f. rewrite Hrf', <- Hd, <- Hn, Hoff. split_and!; auto; lia.
  - intros n f0. rewrite Hrf'. apply Hfiles.
  - intros k v Hin. destruct (Hcache _ _ Hin) as [Hk Hsv].
    split; [exact Hk|]. eapply serves_transfer; eauto.
Qed.

Lemma switch_seated appID mf w app w1 ej c w2 :
  sound mf w -> 0 <= appID <= max_int64 ->
  openAppendable mf (appendableName appID (fileExt mf)) w = (Ok app, w1) ->
  cache.Put appID app (appendables mf) = ((ej, None), c) ->
  close_ejected ej w1 = (None, w2) ->
  seated (set_currApp app (set_currAppID appID (set_appendables c mf))) w2
  /\ (forall p, stored mf w2 p = stored mf w p).
Proof.
  intros Hs HappID HO HPut Hce.
  destruct Hs as [Hfa Hsz Hid0 Htail Htoff Hfiles Hcache Hkeys].
  pose proof (Put_spec _ _ _ _ _ _ HPut) as (_ & _ & Hfind & Hsub & Hej & _).
  pose proof (Put_keys_NoDup _ _ _ _ _ HPut Hkeys) as Hkeys'.
  apply close_ejected_effect in Hce as (Hfs2 & Hfa2 & Hlen2 & Hheap2).
  unfold openAppendable in HO.
  set (name := appendableName appID (fileExt mf)) in *.
  apply single_Open_effect in HO
    as (-> & a & Hheap1 & Hd & Hn & Hcl & Hfa1 & Hcase).
  simpl in Hcase.
  assert (Ha1 : heap w1 !! length (heap w) = Some a).
  { rewrite Hheap1, lookup_app_r, Nat.sub_diag by lia. done. }
  assert (Hold1 : forall v, (v < length (heap w))%nat ->
                    heap w1 !! v = heap w !! v).
  { intros v Hv. rewrite Hheap1. by apply lookup_app_l. }
  assert (Hrf2 : forall d n, read_file w2 d n = read_file w1 d n)
    by (intros; by apply read_file_fs).
  (* the file of the segment: there already, or created empty *)
  assert (Hnext :
    a_cf a = NoCompression
    /\ ((exists f, read_file w (path mf) name = Some f
                   /\ forall d n, read_file w1 d n = read_file w d n)
        \/ (exists f0, read_file w (path mf) name = None
              /\ f_cf f0 = NoCompression /\ f_data f0 = []
              /\ forall d n, read_file w1 d n
                              = if decide (d = path mf /\ n = name)
                                then Some f0 else read_file w d n))).
  { destruct (read_file w (path mf) name) as [f|] eqn:Hrf.
    - destruct Hcase as (Hcf & _ & Hrf1). split.
      + rewrite Hcf. by eapply Hfiles.
      + left. eauto.
    - destruct Hcase as (Hcf & _ & Hrf1).
      assert (Hnc : singleapp.CompressionFormat (currApp mf) w
                    = NoCompression)
        by (eapply single_CompressionFormat_serves; eauto).
      split; [congruence|]. right. eexists. split_and!; [reflexivity| | |].
      3: { intros d n. apply Hrf1. }
      + simpl. exact Hnc.
      + reflexivity. }
  destruct Hnext as [Hacf Hnext]. clear Hcase.
  set (mf1 := set_currApp (length (heap w))
                (set_currAppID appID (set_appendables c mf))) in *.
  assert (Hnew : serves mf w1 appID (length (heap w))).
  { exists a. split_and!; auto. }
  assert (F1 : forall k v, (k, v) ∈ cache.entries c ->
                 0 <= k <= max_int64 /\ serves mf w1 k v).
  { intros k v Hin. apply Hsub in Hin as [[= -> ->]|Hin]; [by split|].
    destruct (Hcache _ _ Hin) as [Hk Hsv]. split; [exact Hk|].
    eapply serves_transfer; eauto.
    rewrite Hold1; [done|]. by apply serves_lt in Hsv. }
  assert (F2 : forall k v e, (k, v) ∈ cache.entries c -> ej = Some e ->
                 v <> snd e).
  { intros k v [k0 v0] Hin -> Heq. simpl in Heq. subst v0.
    destruct (Hej _ eq_refl) as (Hf0 & rest & Hold & Hnewc).
    assert (Hk0 : 0 <= k0 <= max_int64 /\ serves mf w1 k0 v).
    { destruct (Hcache k0 v) as [Hk Hsv]; [rewrite Hold; left|].
      split; [exact Hk|]. eapply serves_transfer; eauto.
      rewrite Hold1; [done|]. by apply serves_lt in Hsv. }
    destruct (F1 _ _ Hin) as [Hk Hsv].
    assert (k = k0) as -> by (eapply serves_inj; eauto; tauto).
    rewrite Hnewc in Hin. apply elem_of_app in Hin as [Hin|Hin].
    - unfold cache_keys in Hkeys. rewrite Hold in Hkeys. simpl in Hkeys.
      apply NoDup_cons in Hkeys as [Hnin _]. apply Hnin.
      apply list_elem_of_fmap. by exists (k0, v).
    - apply list_elem_of_singleton in Hin. injection Hin as -> _.
      apply find_None_key in Hf0. apply Hf0. rewrite Hold. simpl. left. }
  assert (F3 : forall k v, (k, v) ∈ cache.entries c ->
                 serves mf1 w2 k v).
  { intros k v Hin. destruct (F1 _ _ Hin) as [_ Hsv].
    eapply serves_transfer; eauto.
    rewrite Hheap2; [done|]. intros e He. eapply F2; eauto. }
  split.
  - unfold seated. split_and!; auto.
    + tauto.
    + apply F3. by apply find_Some_elem.
    + intros n f. change (path mf1) with (path mf). rewrite Hrf2.
      destruct Hnext as [(f1 & Hrf & ->)|(f0 & Hrf & Hcf0 & _ & ->)];
        [apply Hfiles|].
      case_decide; [|apply Hfiles]. intros [= <-]. exact Hcf0.
    + intros k v Hin. split; [apply (F1 _ _ Hin)|by apply F3].
  - intros p. unfold stored. rewrite Hrf2.
    destruct Hnext as [(f & Hrf & ->)|(f0 & Hrf & _ & Hd0 & ->)];
      [reflexivity|].
    case_decide as Hdec; [|reflexivity].
    destruct Hdec as [_ Hdec]. rewrite Hdec. fold name. rewrite Hrf, Hd0.
    by rewrite lookup_nil.
Qed.

Lemma SetOffset_sound off mf w mf' w' :
  sound mf w -> 0 <= off <= max_int64 ->
  SetOffset off mf w = (Ret None, mf', w') ->
  sound mf' w' /\ same_config mf mf' /\ closed mf' = false
  /\ currAppID mf' = off / fileSize mf
  /\ singleapp.Offset (currApp mf') w' = off mod fileSize mf
  /\ (forall p, stored mf' w' p = stored mf w p).
Proof.
  intros Hs Hoff HS. pose proof (SetOffset_config _ _ _ _ _ _ HS) as Hcfg.
  pose proof (sound_size _ _ Hs) as Hsz.
  unfold SetOffset in HS. destruct (closed mf) eqn:Hcl; [discriminate|].
  unfold appendableID, go_rem in HS.
  destruct (fileSize mf =? 0) eqn:Ez; [apply Z.eqb_eq in Ez; lia|].
  rewrite Z.quot_div_nonneg in HS by lia.
  assert (Hq : 0 <= off / fileSize mf <= max_int64).
  { split; [apply Z.div_pos; lia|].
    assert (off / fileSize mf <= off); [|lia].
    apply Z.div_le_upper_bound; nia. }
  rewrite (wrap64_id (off / fileSize mf)) in HS
    by (unfold in_int64, min_int64, max_int64 in *; lia).
  set (appID := off / fileSize mf) in *.
  pose proof (Z.mod_pos_bound off (fileSize mf) Hsz) as Hm.
  assert (Hmid : exists mf1 w1,
            seated mf1 w1 /\ same_config mf mf1 /\ closed mf1 = false
            /\ currAppID mf1 = appID
            /\ (forall p, stored mf1 w1 p = stored mf w p)
            /\ (let '(err, w2) :=
                  singleapp.SetOffset (currApp mf1)
                    (Z.rem off (fileSize mf)) w1 in
                (Ret err, mf1, w2)) = (Ret None, mf', w')).
  { destruct (currAppID mf =? appID) eqn:Eid; simpl negb in HS;
      cbv iota in HS.
    - apply Z.eqb_eq in Eid. rewrite Ez in HS. exists mf, w.
      split_and!; auto using sound_seated, same_config_refl.
    - destruct (openAppendable _ _ _) as [[app|e] w1] eqn:HO;
        [|discriminate].
      destruct (cache.Put _ _ _) as [[ej e] c] eqn:HPut.
      pose proof (Put_spec _ _ _ _ _ _ HPut) as (-> & _).
      destruct (close_ejected ej w1) as [[e|] w2] eqn:Hce; [discriminate|].
      destruct (switch_seated _ _ _ _ _ _ _ _ Hs Hq HO HPut Hce)
        as [Hse Hst].
      cbn [fileSize set_currApp set_currAppID set_appendables] in HS.
      rewrite Ez in HS. eexists _, _. split_and!; [exact Hse|..]; auto.
      repeat split. }
  destruct Hmid as (mf1 & w1 & Hse & Hcfg1 & Hcl1 & Hid1 & Hst1 & HS').
  destruct (singleapp.SetOffset _ _ _) as [err w2] eqn:Hso.
  injection HS' as -> <- <-.
  rewrite Z.rem_mod_nonneg in Hso by lia.
  pose proof (Z.mod_le off (fileSize mf) ltac:(lia) Hsz) as Hml.
  apply seated_SetOffset in Hso as (Hs' & Ho & _ & Hfs); auto; [|lia].
  split_and!; auto. intros p.
  rewrite <- Hst1. unfold stored. by rewrite (read_file_fs w2 w1).
Qed.

(** X15: [SetOffset] positions the next [Append].  On a consistent store
    without compression, after [SetOffset(off)] has returned without
    error a successful [Append] of [bs] starts at [off]: it returns
    [(off, len(bs))], [ReadAt] then gives [bs[j]] at logical offset
    [off + j], and every byte that was stored below [off] is still read
    back. *)
Theorem SetOffset_then_Append (off : Z) (bs : list byte)
    (mf mf1 mf' : MultiFileAppendable) (w w1 w' : world) (start n : Z) :
  consistent mf w = true ->
  0 <= off ->
  (off / fileSize mf + Z.of_nat (length bs) + 2) * fileSize mf
  <= max_int64 ->
  SetOffset off mf w = (Ret None, mf1, w1) ->
  Append bs mf1 w1 = (Ret (start, n, None), mf', w') ->
  start = off /\ n = Z.of_nat (length bs)
  /\ (forall j b, bs !! j = Some b ->
        fst (fst (ReadAt 1 (off + Z.of_nat j) mf' w')) = Ret ([b], None))
  /\ (forall p b, 0 <= p < off -> stored mf w p = Some b ->
        fst (fst (ReadAt 1 p mf' w')) = Ret ([b], None)).
Proof.
  intros Hc Hoff Hb HS HA. apply consistent_sound in Hc.
  pose proof (sound_size _ _ Hc) as Hsz.
  pose proof (Z.div_pos off (fileSize mf) Hoff Hsz) as Hq.
  pose proof (Z.mod_pos_bound off (fileSize mf) Hsz) as Hm.
  pose proof (Z.div_mod off (fileSize mf) ltac:(lia)) as Hdm.
  assert (Hmax : off + Z.of_nat (length bs) <= max_int64) by nia.
  apply SetOffset_sound in HS
    as (Hs1 & Hcfg1 & Hcl1 & Hid1 & Ho1 & Hst1); auto; [|lia].
  pose proof Hcfg1 as (_ & _ & _ & _ & HfS & _).
  apply Append_effect in HA
    as (Hs' & Hcfg & Hcl & -> & Hpos & Hstart & Hnew & Hold & _); auto;
    [|rewrite Hid1, HfS; exact Hb].
  assert (Hwp : write_position mf1 w1 = off).
  { unfold write_position. rewrite HfS, Ho1, Hid1.
    destruct (_ <=? 0) eqn:E; [apply Z.leb_le in E|]; lia. }
  rewrite Hwp in Hstart. subst start.
  split_and!; auto.
  - intros j b Hj. pose proof (lookup_lt_Some _ _ _ Hj) as Hlt.
    apply ReadAt_byte; auto; [lia|].
    rewrite Hnew by lia. by rewrite Nat2Z.id.
  - intros p b Hp Hst. apply ReadAt_byte; auto; [lia|].
    rewrite Hold by lia. by rewrite Hst1.
Qed.

(** *** [Append] always returns *)

Lemma write_chunk_returns bs n av mf w :
  fst (write_chunk bs n av mf w) <> Timeout.
Proof.
  unfold write_chunk. repeat case_match; simpl; discriminate.
Qed.

Lemma append_loop_count fuel bs off n mf w r mf' w' :
  0 <= n <= Z.of_nat (length bs) -> Z.of_nat (length bs) <= max_int64 ->
  Z.of_nat (length bs) - n < Z.of_nat fuel ->
  append_loop fuel bs off n mf w = (r, mf', w') ->
  r <> Timeout
  /\ forall off' n' err, r = Ret (off', n', err) ->
       n <= n' <= Z.of_nat (length bs)
       /\ (err = None -> n' = Z.of_nat (length bs))
       /\ (err <> None -> n' < Z.of_nat (length bs)).
Proof.
  revert off n mf w.
  induction fuel as [|fuel IH]; intros off n mf w Hn Hlen Hfuel; [lia|].
  rewrite append_loop_S. destruct (n <? _) eqn:E; simpl negb; cbv iota.
  2: { apply Z.ltb_ge in E. intros [= <- _ _]. split; [discriminate|].
       intros off' n' err [= _ <- <-]. split_and!; [lia|lia|lia|done]. }
  apply Z.ltb_lt in E.
  destruct (make_room mf w) as [[[e av] mf1] w1].
  destruct e as [e|].
  { intros [= <- _ _]. split; [discriminate|].
    intros off' n' err [= _ <- <-]. split_and!; [lia|lia|discriminate|lia]. }
  pose proof (write_chunk_returns bs n av mf1 w1) as Hret.
  destruct (write_chunk bs n av mf1 w1) as [[[[offn d]|e]| |] w2] eqn:Hw;
    simpl in Hret; [| | |congruence].
  - apply write_chunk_offn in Hw as (_ & Hd & Hwr & Hle); [|lia|lia].
    rewrite Hwr. cbv zeta. intros HL.
    apply IH in HL as [Hnt Hc]; [|lia|lia|lia].
    split; [exact Hnt|]. intros off' n' err Hr.
    destruct (Hc _ _ _ Hr) as (Hn' & Hnone & Hsome). split_and!; auto; lia.
  - intros [= <- _ _]. split; [discriminate|].
    intros off' n' err [= _ <- <-]. split_and!; [lia|lia|discriminate|lia].
  - intros [= <- _ _]. split; discriminate.
Qed.

(** X16: [Append] always returns or panics: its loop ends, since every
    iteration that goes on has written at least one byte.  The count [n]
    it returns is between 0 and [len(bs)]; it is [len(bs)] when the error
    is nil, and smaller than [len(bs)] when an error is returned for a
    non-empty buffer: [n] is the number of bytes accepted before the
    failure. *)
Theorem Append_returns_count (bs : list byte) (mf : MultiFileAppendable)
    (w : world) :
  Z.of_nat (length bs) <= max_int64 ->
  fst (fst (Append bs mf w)) <> Timeout
  /\ forall start n err mf' w',
       Append bs mf w = (Ret (start, n, err), mf', w') ->
       0 <= n <= Z.of_nat (length bs)
       /\ (err = None -> n = Z.of_nat (length bs) /\ bs <> [])
       /\ (err <> None -> bs <> [] -> n < Z.of_nat (length bs)).
Proof.
  intros Hlen. unfold Append.
  destruct (closed mf).
  { split; [discriminate|]. intros start n err mf' w' [= _ <- <- _ _].
    split_and!; [lia|lia|discriminate|].
    intros _ Hne. destruct bs; [done|simpl; lia]. }
  destruct (readOnly mf).
  { split; [discriminate|]. intros start n err mf' w' [= _ <- <- _ _].
    split_and!; [lia|lia|discriminate|].
    intros _ Hne. destruct bs; [done|simpl; lia]. }
  destruct bs as [|b0 bs0] eqn:Hbs.
  { split; [discriminate|]. intros start n err mf' w' [= _ <- <- _ _].
    split_and!; [simpl; lia|simpl; lia|discriminate|done]. }
  rewrite <- Hbs in *.
  destruct (append_loop _ bs 0 0 mf w) as [[r mf1] w1] eqn:HL.
  apply append_loop_count in HL as [Hnt Hc]; [|lia|lia|lia].
  split; [exact Hnt|]. intros start n err mf' w' [= -> _ _].
  destruct (Hc _ _ _ eq_refl) as (Hn & Hnone & Hsome).
  split_and!; auto; try lia.
  intros He. split; [by apply Hnone|by subst bs].
Qed.

(** *** Every segment carries the header of the store *)

(** Every file of directory [p] and every handle on a file of [p] has the
    header [hdr]. *)
Definition uniform (hdr : blob) (p : string) (w : world) : Prop :=
  (forall n f, read_file w p n = Some f -> f_meta f = hdr)
  /\ Forall (fun a => a_dir a = p -> a_meta a = hdr) (heap w).

(** Handles stay where they are, on the directory they were opened in. *)
Definition stays (w w' : world) : Prop :=
  forall i a, heap w !! i = Some a ->
    exists a', heap w' !! i = Some a' /\ a_dir a' = a_dir a.

Lemma stays_refl w : stays w w.
Proof. intros i a Ha. eauto. Qed.

Lemma stays_trans w1 w2 w3 : stays w1 w2 -> stays w2 w3 -> stays w1 w3.
Proof.
  intros H12 H23 i a Ha. destruct (H12 _ _ Ha) as (a1 & Ha1 & Hd1).
  destruct (H23 _ _ Ha1) as (a2 & Ha2 & Hd2). exists a2.
  split; [exact Ha2|congruence].
Qed.

Lemma fault_uniform hdr p w :
  uniform hdr p w -> uniform hdr p (snd (fault w)) /\ stays w (snd (fault w)).
Proof.
  intros [Hf Hh]. split; [split|].
  - intros n f. rewrite fault_read_file. apply Hf.
  - by rewrite fault_heap.
  - intros i a Ha. rewrite fault_heap. eauto.
Qed.

Lemma insert_uniform hdr p w h a a' :
  uniform hdr p w -> heap w !! h = Some a ->
  a_dir a' = a_dir a -> a_meta a' = a_meta a ->
  uniform hdr p (set_heap (<[h := a']> (heap w)) w)
  /\ stays w (set_heap (<[h := a']> (heap w)) w).
Proof.
  intros [Hf Hh] Ha Hd Hm. split; [split|].
  - exact Hf.
  - simpl. apply Forall_insert; [exact Hh|].
    rewrite Forall_lookup in Hh. specialize (Hh _ _ Ha).
    rewrite Hd, Hm. exact Hh.
  - intros i b Hb. simpl. destruct (decide (i = h)) as [->|Hne].
    + rewrite list_lookup_insert_eq by (by eapply lookup_lt_Some).
      exists a'. split; [reflexivity|congruence].
    + rewrite list_lookup_insert_ne by done. eauto.
Qed.

Lemma single_quiet_uniform hdr p w w' :
  uniform hdr p w -> fs w' = fs w -> heap w' = heap w ->
  uniform hdr p w' /\ stays w w'.
Proof.
  intros [Hf Hh] Hfs Hhp. split; [split|].
  - intros n f. rewrite (read_file_fs w w') by done. apply Hf.
  - by rewrite Hhp.
  - intros i a Ha. rewrite Hhp. eauto.
Qed.

Lemma uniform_stays_trans hdr p w1 w2 w3 :
  uniform hdr p w2 /\ stays w1 w2 ->
  (uniform hdr p w2 -> uniform hdr p w3 /\ stays w2 w3) ->
  uniform hdr p w3 /\ stays w1 w3.
Proof.
  intros [Hu Hs] H23. destruct (H23 Hu) as [Hu3 Hs3].
  split; [exact Hu3|eapply stays_trans; eauto].
Qed.

Lemma single_ReadAt_uniform hdr p h n x w :
  uniform hdr p w ->
  uniform hdr p (snd (singleapp.ReadAt h n x w))
  /\ stays w (snd (singleapp.ReadAt h n x w)).
Proof.
  intros Hu. unfold singleapp.ReadAt.
  pose proof (fault_uniform hdr p w Hu) as Hk.
  destruct (fault w) as [b w1]. simpl in Hk.
  repeat case_match; simpl; exact Hk.
Qed.

Lemma single_Flush_uniform hdr p h w :
  uniform hdr p w ->
  (uniform hdr p (snd (singleapp.Flush h w))
   /\ stays w (snd (singleapp.Flush h w)))
  /\ (uniform hdr p (snd (singleapp.Sync h w))
      /\ stays w (snd (singleapp.Sync h w))).
Proof.
  intros Hu. unfold singleapp.Flush, singleapp.Sync.
  pose proof (fault_uniform hdr p w Hu) as Hk.
  destruct (fault w) as [b w1]. simpl in Hk.
  split; repeat case_match; simpl; exact Hk.
Qed.

Lemma single_Close_uniform hdr p h w :
  uniform hdr p w ->
  uniform hdr p (snd (singleapp.Close h w))
  /\ stays w (snd (singleapp.Close h w)).
Proof.
  intros Hu. unfold singleapp.Close.
  pose proof (fault_uniform hdr p w Hu) as Hk.
  destruct (fault w) as [b w1]. simpl in Hk.
  destruct b; [exact Hk|].
  destruct (heap w1 !! h) as [a|] eqn:Ha; [|exact Hk].
  destruct (a_closed a); [exact Hk|]. simpl.
  eapply uniform_stays_trans; [exact Hk|]. intros Hu1.
  by eapply insert_uniform.
Qed.

Lemma single_SetOffset_uniform hdr p h x w :
  uniform hdr p w ->
  uniform hdr p (snd (singleapp.SetOffset h x w))
  /\ stays w (snd (singleapp.SetOffset h x w)).
Proof.
  intros Hu. unfold singleapp.SetOffset.
  pose proof (fault_uniform hdr p w Hu) as Hk.
  destruct (fault w) as [b w1]. simpl in Hk.
  destruct b; [exact Hk|].
  destruct (heap w1 !! h) as [a|] eqn:Ha; [|exact Hk].
  destruct (a_closed a); [exact Hk|].
  destruct (read_file _ _ _); [|exact Hk].
  destruct (_ || _); [exact Hk|]. simpl.
  eapply uniform_stays_trans; [exact Hk|]. intros Hu1.
  by eapply insert_uniform.
Qed.

Lemma write_file_uniform hdr p d n f w :
  uniform hdr p w -> (d = p -> f_meta f = hdr) ->
  uniform hdr p (write_file d n f w) /\ stays w (write_file d n f w).
Proof.
  intros [Hf Hh] Hm. split; [split|].
  - intros n' f'. destruct (fs w !! d) as [[es|f0]|] eqn:Hd.
    + rewrite read_write_file by (by exists es).
      destruct (decide _) as [[-> ->]|_]; [|apply Hf].
      intros [= <-]. by apply Hm.
    + unfold write_file. rewrite Hd. apply Hf.
    + unfold write_file. rewrite Hd. apply Hf.
  - by rewrite write_file_heap.
  - intros i a Ha. rewrite write_file_heap. eauto.
Qed.

Lemma single_Append_uniform hdr p h bs w :
  uniform hdr p w ->
  uniform hdr p (snd (singleapp.Append h bs w))
  /\ stays w (snd (singleapp.Append h bs w)).
Proof.
  intros Hu. unfold singleapp.Append.
  pose proof (fault_uniform hdr p w Hu) as Hk.
  destruct (fault w) as [b w1]. simpl in Hk.
  destruct b; [exact Hk|].
  destruct (heap w1 !! h) as [a|] eqn:Ha; [|exact Hk].
  destruct (a_closed a); [exact Hk|].
  destruct (a_readOnly a); [exact Hk|].
  destruct bs as [|b0 bs0]; [exact Hk|].
  destruct (read_file w1 (a_dir a) (a_name a)) as [f|] eqn:Hr; [|exact Hk].
  cbv zeta. simpl snd.
  eapply uniform_stays_trans; [exact Hk|]. intros Hu1.
  eapply uniform_stays_trans.
  - apply (write_file_uniform hdr p (a_dir a) (a_name a)
             (File (f_meta f) (f_cf f) (f_cl f)
                (write_at (Z.to_nat (a_offset a))
                   (if a_cf a =? NoCompression then b0 :: bs0
                    else encodeBlock (a_cf a) (a_cl a) (b0 :: bs0))
                   (f_data f))) w1 Hu1).
    intros Hdp. simpl. apply (proj1 Hu1 (a_name a)). by rewrite <- Hdp.
  - intros Hu2. eapply (insert_uniform hdr p _ h a); auto.
    by rewrite write_file_heap.
Qed.

Lemma single_Open_uniform hdr p d n o w :
  uniform hdr p w -> (d = p -> singleapp.metadata o = hdr) ->
  uniform hdr p (snd (singleapp.Open d n o w))
  /\ stays w (snd (singleapp.Open d n o w))
  /\ forall h, fst (singleapp.Open d n o w) = Ok h ->
       exists a, heap (snd (singleapp.Open d n o w)) !! h = Some a
                 /\ a_dir a = d.
Proof.
  intros Hu Hm. unfold singleapp.Open.
  pose proof (fault_uniform hdr p w Hu) as [Hu1 Hs1].
  destruct (fault w) as [b w1]. simpl in Hu1, Hs1.
  destruct b; [split_and!; auto; discriminate|].
  destruct (fs w1 !! d) as [[es|f0]|] eqn:Hd;
    try (split_and!; auto; discriminate).
  assert (Happ : forall w2 a, uniform hdr p w2 -> stays w w2 ->
            (a_dir a = p -> a_meta a = hdr) ->
            uniform hdr p (set_heap (heap w2 ++ [a]) w2)
            /\ stays w (set_heap (heap w2 ++ [a]) w2)).
  { intros w2 a [Hf2 Hh2] Hs2 Ha. split; [split|].
    - exact Hf2.
    - simpl. apply Forall_app. split; [exact Hh2|]. by constructor.
    - intros i b Hb. destruct (Hs2 _ _ Hb) as (b' & Hb' & Hdb).
      exists b'. split; [|exact Hdb]. simpl. by apply lookup_app_l_Some. }
  destruct (es !! n) as [f|] eqn:Hn.
  - simpl. destruct (Happ w1 (Handle d n (singleapp.readOnly o)
                       (singleapp.synced o) (f_meta f) (f_cf f) (f_cl f)
                       (Z.of_nat (length (f_data f))) false) Hu1 Hs1)
      as [Hu2 Hs2].
    { simpl. intros ->. apply (proj1 Hu1 n). unfold read_file.
      by rewrite Hd. }
    split_and!; auto. intros h [= <-]. eexists.
    rewrite lookup_app_r by lia. rewrite Nat.sub_diag. by split.
  - destruct (singleapp.readOnly o); [split_and!; auto; discriminate|].
    simpl.
    destruct (write_file_uniform hdr p d n
                (File (singleapp.metadata o) (singleapp.compressionFormat o)
                   (singleapp.compressionLevel o) []) w1 Hu1 Hm)
      as [Hu2 Hs2].
    match goal with
    | |- context [set_heap (heap ?w2 ++ [?a]) ?w2] =>
        destruct (Happ w2 a Hu2 (stays_trans _ _ _ Hs1 Hs2) Hm) as [Hu3 Hs3]
    end.
    split_and!; auto. intros h [= <-]. eexists.
    rewrite lookup_app_r by lia. rewrite Nat.sub_diag. by split.
Qed.

(** The store's directory is uniform and handle [h] is a handle on it. *)
Definition headed (hdr : blob) (p : string) (h : nat) (w : world) : Prop :=
  uniform hdr p w /\ exists a, heap w !! h = Some a /\ a_dir a = p.

Lemma headed_step hdr p h w w' :
  headed hdr p h w -> uniform hdr p w' /\ stays w w' -> headed hdr p h w'.
Proof.
  intros [_ (a & Ha & Hd)] [Hu Hs]. split; [exact Hu|].
  destruct (Hs _ _ Ha) as (a' & Ha' & Hd'). exists a'.
  split; [exact Ha'|congruence].
Qed.

Lemma headed_Metadata hdr p h w :
  headed hdr p h w -> singleapp.Metadata h w = hdr.
Proof.
  intros [[_ Hh] (a & Ha & Hd)]. unfold singleapp.Metadata. rewrite Ha.
  rewrite Forall_lookup in Hh. by apply (Hh _ _ Ha).
Qed.

Lemma close_ejected_uniform hdr p ej w :
  uniform hdr p w ->
  uniform hdr p (snd (close_ejected ej w))
  /\ stays w (snd (close_ejected ej w)).
Proof.
  intros Hu. destruct ej as [[k v]|]; simpl.
  - by apply single_Close_uniform.
  - split; [exact Hu|apply stays_refl].
Qed.

Lemma openAppendable_headed hdr mf nm w :
  headed hdr (path mf) (currApp mf) w ->
  uniform hdr (path mf) (snd (openAppendable mf nm w))
  /\ stays w (snd (openAppendable mf nm w))
  /\ forall h, fst (openAppendable mf nm w) = Ok h ->
       exists a, heap (snd (openAppendable mf nm w)) !! h = Some a
                 /\ a_dir a = path mf.
Proof.
  intros Hh. unfold openAppendable. apply single_Open_uniform.
  - apply Hh.
  - intros _. simpl. by eapply headed_Metadata.
Qed.

Lemma rollover_headed hdr mf w e mf' w' :
  headed hdr (path mf) (currApp mf) w ->
  rollover mf w = (e, mf', w') ->
  headed hdr (path mf') (currApp mf') w' /\ path mf' = path mf.
Proof.
  intros Hh. unfold rollover.
  destruct (cache.Put _ _ _) as [[ej err] c].
  destruct err; [intros [= _ <- <-]; by split|].
  pose proof (close_ejected_uniform hdr (path mf) ej w (proj1 Hh)) as Hc.
  destruct (close_ejected ej w) as [[e1|] w1]; simpl in Hc.
  { intros [= _ <- <-]. split; [|done]. by eapply headed_step. }
  pose proof (headed_step _ _ _ _ _ Hh Hc) as Hh1.
  set (mf1 := set_currAppID _ (set_appendables c mf)).
  pose proof (openAppendable_headed hdr mf1
                (appendableName (currAppID mf1) (fileExt mf1)) w1 Hh1)
    as (Hu2 & Hs2 & Hnew).
  destruct (openAppendable mf1 _ w1) as [[app|e2] w2]; simpl in *.
  2: { intros [= _ <- <-]. split; [|done]. by eapply headed_step. }
  pose proof (single_SetOffset_uniform hdr (path mf) app 0 w2 Hu2)
    as [Hu3 Hs3].
  destruct (singleapp.SetOffset app 0 w2) as [e3 w3]. simpl in *.
  intros [= _ <- <-]. split; [|done]. split; [exact Hu3|].
  destruct (Hnew app eq_refl) as (a & Ha & Hd).
  destruct (Hs3 _ _ Ha) as (a' & Ha' & Hd'). exists a'.
  split; [exact Ha'|]. simpl. congruence.
Qed.

Lemma make_room_headed hdr mf w e av mf' w' :
  headed hdr (path mf) (currApp mf) w ->
  make_room mf w = (e, av, mf', w') ->
  headed hdr (path mf') (currApp mf') w' /\ path mf' = path mf.
Proof.
  intros Hh. unfold make_room. destruct (_ <=? 0).
  - destruct (rollover mf w) as [[e1 mf1] w1] eqn:Hr.
    intros [= _ _ <- <-]. by eapply rollover_headed.
  - intros [= _ _ <- <-]. by split.
Qed.

Lemma write_chunk_headed hdr bs n av mf w r w' :
  headed hdr (path mf) (currApp mf) w ->
  write_chunk bs n av mf w = (r, w') ->
  headed hdr (path mf) (currApp mf) w'.
Proof.
  intros Hh. unfold write_chunk.
  destruct (_ || _); [by intros [= _ <-]|].
  match goal with
  | |- context [singleapp.Append ?h ?c w] =>
      pose proof (single_Append_uniform hdr (path mf) h c w (proj1 Hh))
        as Ha;
      destruct (singleapp.Append h c w) as [[[o x]|e] w1]
  end; simpl in Ha; intros [= _ <-]; by eapply headed_step.
Qed.

Lemma append_loop_headed hdr fuel bs off n mf w r mf' w' :
  headed hdr (path mf) (currApp mf) w ->
  append_loop fuel bs off n mf w = (r, mf', w') ->
  headed hdr (path mf') (currApp mf') w' /\ path mf' = path mf.
Proof.
  revert off n mf w. induction fuel as [|fuel IH]; intros off n mf w Hh.
  - simpl. destruct (n <? _); simpl; intros [= _ <- <-]; by split.
  - rewrite append_loop_S. destruct (n <? _); simpl negb; cbv iota;
      [|intros [= _ <- <-]; by split].
    destruct (make_room mf w) as [[[e av] mf1] w1] eqn:Hm.
    apply (make_room_headed hdr) in Hm as [Hh1 Hp1]; [|exact Hh].
    destruct e; [intros [= _ <- <-]; by split|].
    destruct (write_chunk bs n av mf1 w1) as [rc w2] eqn:Hw.
    apply (write_chunk_headed hdr) in Hw; [|exact Hh1].
    destruct rc as [[[offn d]|e]| |];
      try (intros [= _ <- <-]; by split).
    cbv zeta. intros HL. apply IH in HL as [Hh' Hp']; [|exact Hw].
    split; [exact Hh'|congruence].
Qed.

Lemma appendableFor_headed hdr off mf w r mf' w' :
  headed hdr (path mf) (currApp mf) w ->
  appendableFor off mf w = (r, mf', w') ->
  headed hdr (path mf') (currApp mf') w'
  /\ path mf' = path mf /\ currApp mf' = currApp mf.
Proof.
  intros Hh. unfold appendableFor.
  destruct (closed mf); [intros [= _ <- <-]; by split|].
  destruct (appendableID _ _) as [appID|]; [|intros [= _ <- <-]; by split].
  destruct (cache.Get _ _) as [[app|e] c]; [intros [= _ <- <-]; by split|].
  destruct (negb _); [intros [= _ <- <-]; by split|].
  set (mf1 := set_appendables c mf).
  pose proof (openAppendable_headed hdr mf1
                (appendableName appID (fileExt mf1)) w Hh)
    as (Hu1 & Hs1 & _).
  destruct (openAppendable mf1 _ w) as [[app|e1] w1]; simpl in *.
  2: { intros [= _ <- <-]. split; [|done]. by eapply headed_step. }
  destruct (cache.Put _ _ _) as [[ej e2] c2].
  destruct e2.
  { intros [= _ <- <-]. split; [|done]. by eapply headed_step. }
  pose proof (close_ejected_uniform hdr (path mf) ej w1 Hu1) as [Hu2 Hs2].
  destruct (close_ejected ej w1) as [[e3|] w2]; simpl in *;
    intros [= _ <- <-]; (split; [|done]);
    (eapply headed_step; [exact Hh|]);
    (split; [exact Hu2|eapply stays_trans; eauto]).
Qed.

Lemma read_loop_headed hdr fuel n off acc mf w r mf' w' :
  headed hdr (path mf) (currApp mf) w ->
  read_loop fuel n off acc mf w = (r, mf', w') ->
  headed hdr (path mf') (currApp mf') w'
  /\ path mf' = path mf /\ currApp mf' = currApp mf.
Proof.
  revert acc mf w. induction fuel as [|fuel IH]; intros acc mf w Hh.
  - simpl. destruct (_ <? _)%nat; intros [= _ <- <-]; by split.
  - rewrite read_loop_S. destruct (_ <? _)%nat; simpl negb; cbv iota;
      [|intros [= _ <- <-]; by split]. cbv zeta.
    destruct (appendableFor _ mf w) as [[app mf1] w1] eqn:HA.
    apply (appendableFor_headed hdr) in HA as (Hh1 & Hp1 & Hc1);
      [|exact Hh].
    destruct app as [[app|e]| |];
      try (intros [= _ <- <-]; by split).
    destruct (go_rem _ _) as [x|]; [|intros [= _ <- <-]; by split].
    pose proof (single_ReadAt_uniform hdr (path mf1) app (n - length acc)
                  x w1 (proj1 Hh1)) as Hr.
    destruct (singleapp.ReadAt _ _ _ _) as [[out err] w2]. simpl in Hr.
    pose proof (headed_step _ _ _ _ _ Hh1 Hr) as Hh2.
    assert (Hgo : read_loop fuel n off (acc ++ out) mf1 w2 = (r, mf', w') ->
              headed hdr (path mf') (currApp mf') w'
              /\ path mf' = path mf /\ currApp mf' = currApp mf).
    { intros HL. apply IH in HL as (Hh3 & Hp3 & Hc3); [|exact Hh2].
      split; [exact Hh3|]. split; congruence. }
    destruct err as [e|]; [|exact Hgo].
    destruct (_ && _); [exact Hgo|]. intros [= _ <- <-]. by split.
Qed.

Lemma SetOffset_headed hdr off mf w r mf' w' :
  headed hdr (path mf) (currApp mf) w ->
  SetOffset off mf w = (r, mf', w') ->
  headed hdr (path mf') (currApp mf') w' /\ path mf' = path mf.
Proof.
  intros Hh. unfold SetOffset.
  destruct (closed mf); [intros [= _ <- <-]; by split|].
  destruct (appendableID _ _) as [appID|]; [|intros [= _ <- <-]; by split].
  destruct (if negb (currAppID mf =? appID) then _ else _)
    as [[err mf1] w1] eqn:Hmid.
  assert (Hh1 : headed hdr (path mf1) (currApp mf1) w1 /\ path mf1 = path mf).
  { destruct (negb _); [|injection Hmid as _ <- <-; by split].
    pose proof (openAppendable_headed hdr mf
                  (appendableName appID (fileExt mf)) w Hh)
      as (Hu1 & Hs1 & Hnew).
    destruct (openAppendable mf _ w) as [[app|e1] w2]; simpl in *.
    2: { injection Hmid as _ <- <-. split; [|done].
         by eapply headed_step. }
    destruct (cache.Put _ _ _) as [[ej e2] c2].
    destruct e2.
    { injection Hmid as _ <- <-. split; [|done]. by eapply headed_step. }
    pose proof (close_ejected_uniform hdr (path mf) ej w2 Hu1) as [Hu2 Hs2].
    destruct (close_ejected ej w2) as [[e3|] w3]; simpl in *;
      injection Hmid as _ <- <-; (split; [|done]).
    - eapply headed_step; [exact Hh|].
      split; [exact Hu2|eapply stays_trans; eauto].
    - split; [exact Hu2|]. destruct (Hnew app eq_refl) as (a & Ha & Hd).
      destruct (Hs2 _ _ Ha) as (a' & Ha' & Hd'). exists a'.
      split; [exact Ha'|]. simpl. congruence. }
  destruct Hh1 as [Hh1 Hp1].
  destruct err; [intros [= _ <- <-]; by split|].
  destruct (go_rem _ _) as [x|]; [|intros [= _ <- <-]; by split].
  pose proof (single_SetOffset_uniform hdr (path mf1) (currApp mf1) x w1
                (proj1 Hh1)) as Hs.
  destruct (singleapp.SetOffset _ _ _) as [e w2]. simpl in Hs.
  intros [= _ <- <-]. split; [|done]. by eapply headed_step.
Qed.

Lemma apply_entries_uniform hdr p fn es w :
  (forall k v w0, uniform hdr p w0 ->
     uniform hdr p (snd (fn k v w0)) /\ stays w0 (snd (fn k v w0))) ->
  uniform hdr p w ->
  uniform hdr p (snd (cache.apply_entries fn es w))
  /\ stays w (snd (cache.apply_entries fn es w)).
Proof.
  intros Hfn. revert w. induction es as [|[k v] es IH]; intros w Hu; simpl.
  - split; [exact Hu|apply stays_refl].
  - pose proof (Hfn k v w Hu) as Hk.
    destruct (fn k v w) as [[e|] w1]; simpl in *; [exact Hk|].
    eapply uniform_stays_trans; [exact Hk|]. apply IH.
Qed.

Lemma flush_uniform hdr p mf w :
  uniform hdr p w ->
  (uniform hdr p (snd (flush mf w)) /\ stays w (snd (flush mf w)))
  /\ (uniform hdr p (snd (sync mf w)) /\ stays w (snd (sync mf w))).
Proof.
  intros Hu. unfold flush, sync, cache.Apply.
  destruct (closed mf); [repeat split; auto using stays_refl; apply Hu|].
  split.
  - pose proof (apply_entries_uniform hdr p (fun _ v => singleapp.Flush v)
                  (cache.entries (appendables mf)) w
                  (fun _ v w0 Hu0 =>
                     proj1 (single_Flush_uniform hdr p v w0 Hu0)) Hu) as Ha.
    destruct (cache.apply_entries _ _ _) as [[e|] w1]; simpl in Ha;
      [exact Ha|].
    eapply uniform_stays_trans; [exact Ha|]. intros Hu1.
    apply (proj1 (single_Flush_uniform hdr p (currApp mf) w1 Hu1)).
  - pose proof (apply_entries_uniform hdr p (fun _ v => singleapp.Sync v)
                  (cache.entries (appendables mf)) w
                  (fun _ v w0 Hu0 =>
                     proj2 (single_Flush_uniform hdr p v w0 Hu0)) Hu) as Ha.
    destruct (cache.apply_entries _ _ _) as [[e|] w1]; simpl in Ha;
      [exact Ha|].
    eapply uniform_stays_trans; [exact Ha|]. intros Hu1.
    apply (proj2 (single_Flush_uniform hdr p (currApp mf) w1 Hu1)).
Qed.

Lemma Close_uniform hdr p mf w :
  uniform hdr p w ->
  uniform hdr p (snd (Close mf w)) /\ stays w (snd (Close mf w)).
Proof.
  intros Hu. unfold Close, cache.Apply.
  destruct (closed mf); [split; [exact Hu|apply stays_refl]|].
  pose proof (apply_entries_uniform hdr p (fun _ v => singleapp.Close v)
                (cache.entries (appendables (set_closed mf))) w
                (fun _ v w0 Hu0 => single_Close_uniform hdr p v w0 Hu0) Hu)
    as Ha.
  destruct (cache.apply_entries _ _ _) as [[e|] w1]; simpl in Ha;
    [exact Ha|].
  pose proof (single_Close_uniform hdr p (currApp (set_closed mf)) w1
                (proj1 Ha)) as Hc.
  destruct (singleapp.Close _ _) as [e w2]. simpl in *.
  eapply uniform_stays_trans; [exact Ha|]. intros _. exact Hc.
Qed.

Lemma step_headed hdr o mf w mf' w' :
  headed hdr (path mf) (currApp mf) w ->
  step o (mf, w) = Some (mf', w') ->
  headed hdr (path mf') (currApp mf') w' /\ path mf' = path mf.
Proof.
  intros Hh Hs. unfold step in Hs.
  destruct o as [bs|n off|off| | | |sc].
  - destruct (Append bs mf w) as [[r mf1] w1] eqn:HA.
    destruct r; simplify_eq. unfold Append in HA.
    destruct (closed mf); [by simplify_eq|].
    destruct (readOnly mf); [by simplify_eq|].
    destruct bs; [by simplify_eq|].
    by eapply append_loop_headed.
  - destruct (ReadAt n off mf w) as [[r mf1] w1] eqn:HR.
    destruct r; simplify_eq. unfold ReadAt in HR.
    destruct n; [by simplify_eq|].
    apply (read_loop_headed hdr) in HR as (? & ? & ?); auto.
  - destruct (SetOffset off mf w) as [[r mf1] w1] eqn:HS.
    destruct r; simplify_eq. by eapply SetOffset_headed.
  - injection Hs as <- <-. split; [|done]. eapply headed_step; [exact Hh|].
    apply (proj1 (flush_uniform hdr (path mf) mf w (proj1 Hh))).
  - injection Hs as <- <-. split; [|done]. eapply headed_step; [exact Hh|].
    apply (proj2 (flush_uniform hdr (path mf) mf w (proj1 Hh))).
  - pose proof (Close_uniform hdr (path mf) mf w (proj1 Hh)) as Hc.
    pose proof (Close_store mf w) as Hst.
    destruct (Close mf w) as [[r mf1] w1]. simpl in *.
    injection Hs as <- <-.
    assert (path mf1 = path mf /\ currApp mf1 = currApp mf) as [-> ->].
    { subst mf1. destruct (closed mf); by split. }
    split; [|done]. by eapply headed_step.
  - injection Hs as <- <-. split; [|done]. destruct Hh as [[Hf Hhp] Ha].
    split; [split|]; auto.
Qed.

Lemma run_headed hdr ops mf w mf' w' :
  headed hdr (path mf) (currApp mf) w ->
  run ops (mf, w) = Some (mf', w') ->
  headed hdr (path mf') (currApp mf') w' /\ path mf' = path mf.
Proof.
  revert mf w. induction ops as [|o ops IH]; intros mf w Hh.
  - intros [= <- <-]. by split.
  - rewrite run_cons. destruct (step o (mf, w)) as [[mf1 w1]|] eqn:Hs;
      [|discriminate].
    apply (step_headed hdr) in Hs as [Hh1 Hp1]; [|exact Hh].
    intros Hr. apply IH in Hr as [Hh' Hp']; [|exact Hh1].
    split; [exact Hh'|congruence].
Qed.

Lemma Open_headed p opts w0 mf w :
  Open p opts w0 = (Ret (Ok mf), w) ->
  fs w0 !! p = None \/ fs w0 !! p = Some (Dir ∅) ->
  Forall (fun a => a_dir a <> p) (heap w0) ->
  headed (fresh_header opts) p (currApp mf) w /\ path mf = p
  /\ fileSize mf = multiapp.fileSize opts.
Proof.
  intros HO Hp Hheap.
  apply Open_inv in HO
    as (es & w2 & fn & _ & Hes & Hd2 & Hh2 & _ & _ & _ & Hso & _ & HfS
        & Hpath & _).
  assert (es = ∅) as ->.
  { destruct Hes as [Hes|(_ & -> & _)]; [|done].
    destruct Hp as [Hp|Hp]; congruence. }
  assert (Hu2 : uniform (fresh_header opts) p w2).
  { split.
    - intros n f. unfold read_file. rewrite Hd2, lookup_empty. discriminate.
    - rewrite Hh2. eapply Forall_impl; [exact Hheap|].
      intros a Hne Heq. contradiction. }
  pose proof (single_Open_uniform (fresh_header opts) p p fn
                (tail_options opts) w2 Hu2 (fun _ => eq_refl))
    as (Hu & _ & Hnew).
  rewrite Hso in Hu, Hnew. simpl in Hu, Hnew.
  assert (Hh : headed (fresh_header opts) p (currApp mf) w).
  { split; [exact Hu|]. by apply Hnew. }
  split_and!; auto.
  rewrite HfS, (headed_Metadata _ _ _ _ Hh). reflexivity.
Qed.

(** X17: every segment carries the header of the store.  After [Open] has
    created a store in an absent or empty directory, and after any
    sequence of [Append], [ReadAt], [SetOffset], [Flush], [Sync] and
    [Close] calls, failing or not, every file of the directory (the first
    segment, those made by a rollover, those made by reading or seeking
    past the end) has the header that [Open] wrote: the segment size and
    the caller's metadata.  [Metadata()] keeps returning the caller's
    metadata, and the segment size of the store is that of the options. *)
Theorem segments_share_header (p : string) (opts : multiapp.Options)
    (w0 w w' : world) (mf mf' : MultiFileAppendable) (ops : list op) :
  Open p opts w0 = (Ret (Ok mf), w) ->
  fs w0 !! p = None \/ fs w0 !! p = Some (Dir ∅) ->
  Forall (fun a => a_dir a <> p) (heap w0) ->
  run ops (mf, w) = Some (mf', w') ->
  (forall n f, read_file w' p n = Some f ->
     f_meta f = fresh_header opts
     /\ Meta.GetInt metaFileSize (Meta.NewMetadata (f_meta f))
        = (multiapp.fileSize opts, true))
  /\ Metadata mf' w' = multiapp.metadata opts
  /\ fileSize mf' = multiapp.fileSize opts.
Proof.
  intros HO Hp Hheap Hr.
  apply Open_headed in HO as (Hh & Hpath & HfS); auto.
  pose proof (run_config _ _ _ _ _ Hr) as (_ & _ & _ & _ & HfS' & _).
  rewrite <- Hpath in Hh.
  apply (run_headed (fresh_header opts)) in Hr as [Hh' Hp']; [|exact Hh].
  rewrite Hp', Hpath in Hh'.
  split_and!.
  - intros n f Hf. apply (proj1 (proj1 Hh')) in Hf. rewrite Hf.
    by split.
  - unfold Metadata. by rewrite (headed_Metadata _ _ _ _ Hh').
  - congruence.
Qed.

(** *** The order of segment names *)

Lemma fold_digits_shift cs acc :
  fold_left (fun a c => a * 10 + digit_of c) cs acc
  = acc * 10 ^ Z.of_nat (length cs) + value_be cs.
Proof.
  unfold value_be. revert acc. induction cs as [|c cs IH]; intros acc.
  - simpl. lia.
  - cbn [fold_left length]. rewrite IH, (IH (0 * 10 + digit_of c)).
    rewrite Nat2Z.inj_succ, Z.pow_succ_r by lia. lia.
Qed.

Lemma value_be_bound cs :
  Forall is_digit cs -> 0 <= value_be cs < 10 ^ Z.of_nat (length cs).
Proof.
  induction 1 as [|c cs (d & Hd & ->) _ IH].
  - unfold value_be. simpl. lia.
  - unfold value_be. cbn [fold_left length]. rewrite fold_digits_shift.
    rewrite digit_of_digit_char by exact Hd.
    rewrite Nat2Z.inj_succ, Z.pow_succ_r by lia. nia.
Qed.

Lemma compare_digit_char d1 d2 :
  0 <= d1 <= 9 -> 0 <= d2 <= 9 ->
  Ascii.compare (digit_char d1) (digit_char d2) = Z.compare d1 d2.
Proof.
  intros H1 H2. unfold Ascii.compare, digit_char, ascii_of_nat.
  change (nat_of_ascii zero_char) with 48%nat.
  rewrite !N_ascii_embedding by lia.
  destruct (Z.compare_spec d1 d2) as [->|Hl|Hg].
  - apply N.compare_refl.
  - apply N.compare_lt_iff. lia.
  - apply N.compare_gt_iff. lia.
Qed.

Lemma string_compare_refl s : String.compare s s = Eq.
Proof.
  pose proof (String.compare_antisym s s) as Hc.
  destruct (String.compare s s); simpl in Hc; congruence.
Qed.

(** Digit strings of the same length are ordered as the numbers they
    denote, whatever follows them. *)
Lemma compare_digits cs1 cs2 t :
  Forall is_digit cs1 -> Forall is_digit cs2 ->
  length cs1 = length cs2 -> value_be cs1 < value_be cs2 ->
  String.compare (string_of_chars (cs1 ++ t)) (string_of_chars (cs2 ++ t))
  = Lt.
Proof.
  intros H1. revert cs2. induction H1 as [|c1 r1 (d1 & Hd1 & ->) Hr1 IH];
    intros cs2 H2 Hlen Hlt.
  - destruct cs2; [|discriminate]. lia.
  - destruct H2 as [|c2 r2 (d2 & Hd2 & ->) Hr2]; [discriminate|].
    injection Hlen as Hlen.
    unfold value_be in Hlt. cbn [fold_left] in Hlt.
    rewrite !fold_digits_shift, !digit_of_digit_char in Hlt by done.
    pose proof (value_be_bound r1 Hr1) as Hb1.
    pose proof (value_be_bound r2 Hr2) as Hb2.
    rewrite Hlen in *.
    cbn [app string_of_chars string_of_list_ascii String.compare].
    rewrite compare_digit_char by done.
    destruct (Z.compare_spec d1 d2) as [->|Hl|Hg].
    + apply IH; auto. lia.
    + reflexivity.
    + nia.
Qed.

Lemma digits_le_length fuel m k :
  0 <= k < 10 ^ Z.of_nat m -> (0 < m <= fuel)%nat ->
  (length (digits_le fuel k) <= m)%nat.
Proof.
  revert m k. induction fuel as [|fuel IH]; intros m k Hk Hm; [lia|].
  simpl. destruct (k <? 10) eqn:E; [simpl; lia|]. apply Z.ltb_ge in E.
  destruct m as [|m]; [lia|]. destruct m as [|m].
  { change (10 ^ Z.of_nat 1) with 10 in Hk. lia. }
  simpl length. apply le_n_S. apply IH; [|lia].
  rewrite (Nat2Z.inj_succ (S m)), Z.pow_succ_r in Hk by lia.
  split; [apply Z.div_pos; lia|]. apply Z.div_lt_upper_bound; lia.
Qed.

Lemma sprintf_08d_small k :
  0 <= k < 10 ^ 8 ->
  length (sprintf_08d k) = 8%nat /\ Forall is_digit (sprintf_08d k)
  /\ value_be (sprintf_08d k) = k.
Proof.
  intros Hk. split_and!.
  - unfold sprintf_08d. destruct (k <? 0) eqn:E; [apply Z.ltb_lt in E; lia|].
    unfold pad_zeros, decimal.
    rewrite length_app, repeat_length, length_map, length_rev.
    pose proof (digits_le_length 20 8 k Hk ltac:(lia)). lia.
  - unfold sprintf_08d. destruct (k <? 0) eqn:E; [apply Z.ltb_lt in E; lia|].
    apply pad_zeros_digits, decimal_digits. lia.
  - apply value_sprintf_08d. unfold max_int64. lia.
Qed.

Lemma appendableName_le k1 k2 ext :
  0 <= k1 <= k2 -> k2 < 10 ^ 8 ->
  os.name_le (appendableName k1 ext) (appendableName k2 ext).
Proof.
  intros Hk Hk2. unfold os.name_le, String.leb.
  destruct (decide (k1 = k2)) as [->|Hne];
    [by rewrite string_compare_refl|].
  destruct (sprintf_08d_small k1 ltac:(lia)) as (Hl1 & Hd1 & Hv1).
  destruct (sprintf_08d_small k2 ltac:(lia)) as (Hl2 & Hd2 & Hv2).
  unfold appendableName. rewrite compare_digits; auto; lia.
Qed.

Lemma Sorted_app_r {A} (R : A -> A -> Prop) l1 l2 :
  Sorted R (l1 ++ l2) -> Sorted R l2.
Proof.
  induction l1 as [|x l1 IH]; [done|]. simpl. intros Hs.
  apply Sorted_inv in Hs as [Hs _]. auto.
Qed.

(** The directory listing of segments [0 .. K] ends with segment [K]. *)
Lemma last_sorted_names (es : gmap string file) K ext :
  0 <= K < 10 ^ 8 ->
  (forall n, is_Some (es !! n)
             <-> exists k, 0 <= k <= K /\ n = appendableName k ext) ->
  last (sorted_names es) = Some (appendableName K ext).
Proof.
  intros HK Hes. unfold sorted_names.
  set (keys := map fst (map_to_list es)).
  assert (Hin : forall n, n ∈ merge_sort os.name_le keys
                          <-> is_Some (es !! n)).
  { intros n. rewrite merge_sort_Permutation. unfold keys.
    rewrite list_elem_of_fmap. split.
    - intros ([n' f] & -> & Hf). apply elem_of_map_to_list in Hf. eauto.
    - intros [f Hf]. exists (n, f). split; [done|].
      by apply elem_of_map_to_list. }
  assert (Hnd : NoDup (merge_sort os.name_le keys)).
  { rewrite merge_sort_Permutation. apply NoDup_fst_map_to_list. }
  assert (Htot : Total os.name_le).
  { intros s1 s2. apply String.leb_total. }
  pose proof (Sorted_merge_sort os.name_le keys) as Hsorted.
  assert (HM : appendableName K ext ∈ merge_sort os.name_le keys).
  { apply Hin, Hes. exists K. split; [lia|done]. }
  apply list_elem_of_split in HM as (l1 & l2 & HL).
  rewrite HL in *. rewrite last_app_cons.
  destruct l2 as [|y l2]; [reflexivity|]. exfalso.
  apply Sorted_app_r in Hsorted. apply Sorted_inv in Hsorted as [_ Hhd].
  inversion Hhd as [|? ? Hle]; subst.
  assert (Hy : y ∈ l1 ++ appendableName K ext :: y :: l2).
  { apply elem_of_app. right. right. left. }
  apply Hin, Hes in Hy as (k & Hk & ->).
  pose proof (appendableName_le k K ext Hk ltac:(lia)) as Hge.
  pose proof (String.leb_antisym _ _ Hle Hge) as Heq.
  apply NoDup_app in Hnd as (_ & _ & Hnd).
  apply NoDup_cons in Hnd as [Hnin _]. apply Hnin. rewrite Heq. left.
Qed.

(** *** Reopening a store *)

(** The directory of the store holds the segments [0 .. currAppID] and
    nothing else; none is longer than the segment size. *)
Definition laid_out (mf : MultiFileAppendable) (w : world) : Prop :=
  (forall n, is_Some (read_file w (path mf) n)
             <-> exists k, 0 <= k <= currAppID mf
                           /\ n = appendableName k (fileExt mf))
  /\ (forall n f, read_file w (path mf) n = Some f ->
        Z.of_nat (length (f_data f)) <= fileSize mf).

(** Every segment of the directory carries the segment size of the store
    in its header and is not compressed. *)
Definition plain_segments (mf : MultiFileAppendable) (w : world) : Prop :=
  forall n f, read_file w (path mf) n = Some f ->
    Meta.GetInt metaFileSize (Meta.NewMetadata (f_meta f))
    = (fileSize mf, true)
    /\ f_cf f = NoCompression.

Definition plain_ext (ext : string) : Prop :=
  Forall (fun c => c <> "."%char /\ c <> "/"%char) (chars_of_string ext).

Lemma reopen_sound mf w opts w3 :
  laid_out mf w -> plain_segments mf w ->
  0 < fileSize mf <= max_int64 ->
  0 <= currAppID mf < 10 ^ 8 -> plain_ext (fileExt mf) ->
  validOptions opts = true -> multiapp.fileExt opts = fileExt mf ->
  fs w3 = fs w -> faults w3 = [] ->
  exists mf3 w4 f,
    Open (path mf) opts w3 = (Ret (Ok mf3), w4)
    /\ sound mf3 w4 /\ closed mf3 = false
    /\ currAppID mf3 = currAppID mf /\ fileSize mf3 = fileSize mf
    /\ path mf3 = path mf /\ fileExt mf3 = fileExt mf
    /\ cache_keys mf3 = [] /\ fs w4 = fs w
    /\ read_file w (path mf) (appendableName (currAppID mf) (fileExt mf))
       = Some f
    /\ singleapp.Offset (currApp mf3) w4 = Z.of_nat (length (f_data f)).
Proof.
  intros [Hnames Hlens] Hfiles HS HK Hext Hv Hoe Hfs Hfa.
  set (K := currAppID mf) in *. set (ext := fileExt mf) in *.
  set (p := path mf) in *.
  assert (Hrf3 : forall d n, read_file w3 d n = read_file w d n)
    by (intros; by apply read_file_fs).
  destruct (proj2 (Hnames (appendableName K ext))) as [f Hf];
    [exists K; split; [lia|done]|].
  destruct (Hfiles _ _ Hf) as (Hmeta & Hcf).
  pose proof (Hlens _ _ Hf) as Hlen.
  assert (Hdir : exists es, fs w3 !! p = Some (Dir es)).
  { rewrite Hfs. by eapply read_file_is_dir. }
  destruct Hdir as [es Hes].
  assert (Hesn : forall n, es !! n = read_file w p n).
  { intros n. rewrite <- Hrf3. unfold read_file. by rewrite Hes. }
  assert (Hlast : last (sorted_names es) = Some (appendableName K ext)).
  { apply last_sorted_names; [lia|]. intros n. rewrite Hesn. apply Hnames. }
  assert (Hparse : ParseInt (stem (appendableName K ext)) = Ok K).
  { rewrite stem_appendableName by exact Hext.
    apply ParseInt_sprintf_08d. unfold in_int64, min_int64, max_int64. lia. }
  pose proof Hv as Hv'. unfold validOptions in Hv'.
  repeat (apply andb_prop in Hv' as [Hv' ?]).
  assert (HC : 0 < multiapp.maxOpenedFiles opts) by (by apply Z.ltb_lt).
  unfold Open. rewrite Hv, (stat_or_mkdir_dir p opts w3 es Hes Hfa).
  simpl negb. cbv iota.
  unfold os.ReadDir. rewrite (fault_free w3 Hfa), Hes.
  fold (sorted_names es). rewrite Hlast, Hparse.
  unfold singleapp.Open. rewrite (fault_free w3 Hfa), Hes, Hesn, Hf.
  unfold cache.NewLRUCache.
  destruct (multiapp.maxOpenedFiles opts <=? 0) eqn:Ec;
    [apply Z.leb_le in Ec; lia|].
  set (a := Handle _ _ _ _ _ _ _ _ _).
  set (w4 := set_heap _ _).
  assert (Hlk : heap w4 !! length (heap w3) = Some a).
  { subst w4. simpl. rewrite lookup_app_r by lia. by rewrite Nat.sub_diag. }
  assert (Hm : singleapp.Metadata (length (heap w3)) w4 = f_meta f).
  { unfold singleapp.Metadata. by rewrite Hlk. }
  rewrite Hm, Hmeta. cbv iota beta.
  eexists _, _, f. split; [reflexivity|].
  assert (Hrf4 : forall d n, read_file w4 d n = read_file w d n).
  { intros d n. rewrite <- Hrf3. reflexivity. }
  cbn [closed currAppID currApp fileSize path fileExt].
  unfold singleapp.Offset. rewrite Hlk.
  split_and!; auto.
  constructor; cbn [closed currAppID currApp fileSize path fileExt
                    appendables cache.entries]; auto.
  - lia.
  - lia.
  - exists a. split_and!; auto. by rewrite Hoe.
  - exists f. rewrite Hoe, Hrf4. unfold singleapp.Offset. rewrite Hlk.
    simpl. split_and!; auto; lia.
  - intros n f0. rewrite Hrf4. intros Hf0.
    apply Hfiles in Hf0. tauto.
  - intros k v Hin. inversion Hin.
  - apply NoDup_nil_2.
Qed.

(** [Append] keeps the directory laid out. *)

Lemma same_answers_header w w1 h :
  same_answers w w1 ->
  singleapp.Metadata h w1 = singleapp.Metadata h w
  /\ singleapp.CompressionFormat h w1 = singleapp.CompressionFormat h w
  /\ singleapp.CompressionLevel h w1 = singleapp.CompressionLevel h w.
Proof.
  intros Hs. specialize (Hs h).
  unfold singleapp.Metadata, singleapp.CompressionFormat,
    singleapp.CompressionLevel.
  destruct (heap w1 !! h) as [a1|], (heap w !! h) as [a|];
    simpl in Hs; try discriminate; [|done].
  unfold answers in Hs. injection Hs as _ _ _ -> -> -> _. done.
Qed.

Lemma rollover_files mf w mf' w' :
  rollover mf w = (None, mf', w') ->
  let name := appendableName (wrap64 (currAppID mf + 1)) (fileExt mf) in
  currAppID mf' = wrap64 (currAppID mf + 1)
  /\ forall d n,
       read_file w' d n
       = match read_file w (path mf) name with
         | Some _ => read_file w d n
         | None =>
             if decide (d = path mf /\ n = name)
             then Some (File (singleapp.Metadata (currApp mf) w)
                          (singleapp.CompressionFormat (currApp mf) w)
                          (singleapp.CompressionLevel (currApp mf) w) [])
             else read_file w d n
         end.
Proof.
  intros Hr name. unfold rollover in Hr.
  destruct (cache.Put _ _ _) as [[ej err] c] eqn:HPut.
  destruct err; [discriminate|].
  pose proof (close_ejected_fs ej w) as Hfs1.
  pose proof (close_ejected_answers ej w) as Han1.
  destruct (close_ejected ej w) as [[e|] w1] eqn:Hce; [discriminate|].
  simpl in Hfs1, Han1.
  destruct (same_answers_header w w1 (currApp mf) Han1) as (Hm & Hcf & Hcl).
  unfold openAppendable in Hr. simpl in Hr. rewrite Hm, Hcf, Hcl in Hr.
  match type of Hr with
  | context [singleapp.Open ?d ?n ?o w1] =>
      destruct (singleapp.Open d n o w1) as [[h|e] w2] eqn:HO;
      [|discriminate]
  end.
  apply single_Open_effect in HO as (-> & a & _ & _ & _ & _ & _ & Hcase).
  pose proof (single_SetOffset_fs (length (heap w1)) 0 w2) as Hfs3.
  destruct (singleapp.SetOffset _ 0 w2) as [x w3]. simpl in *.
  injection Hr as <- <-. simpl. split; [reflexivity|].
  assert (Hrf1 : forall d n, read_file w1 d n = read_file w d n)
    by (intros; by apply read_file_fs).
  assert (Hrf3 : forall d n, read_file w3 d n = read_file w2 d n)
    by (intros; by apply read_file_fs).
  intros d n. rewrite Hrf3.
  fold name in Hcase. rewrite (Hrf1 (path mf) name) in Hcase.
  destruct (read_file w (path mf) name) as [f|].
  - destruct Hcase as (_ & _ & Hrf2). by rewrite Hrf2.
  - destruct Hcase as (_ & _ & Hrf2). rewrite Hrf2.
    case_decide; [reflexivity|apply Hrf1].
Qed.

Lemma rollover_laid mf w mf' w' :
  sound mf w -> laid_out mf w -> currAppID mf < max_int64 ->
  rollover mf w = (None, mf', w') ->
  laid_out mf' w'.
Proof.
  intros Hs [Hnames Hlens] Hmax Hr.
  pose proof (rollover_config _ _ _ _ _ Hr) as (Hp & _ & _ & _ & HfS & Hext).
  pose proof (sound_id _ _ Hs) as Hid. pose proof (sound_size _ _ Hs) as HS.
  apply rollover_files in Hr as [Hid' Hrf].
  rewrite wrap64_id in Hid', Hrf
    by (unfold in_int64, min_int64, max_int64 in *; lia).
  set (name := appendableName (currAppID mf + 1) (fileExt mf)) in *.
  assert (Habs : read_file w (path mf) name = None).
  { destruct (read_file w (path mf) name) as [f|] eqn:Hf; [|done].
    destruct (proj1 (Hnames name)) as (k & Hk & Hn); [eauto|].
    apply appendableName_inj in Hn; lia. }
  rewrite Habs in Hrf.
  split.
  - intros n. rewrite Hp, Hext, Hid', Hrf. case_decide as Hdec.
    + destruct Hdec as [_ ->]. split; [|eauto]. intros _.
      exists (currAppID mf + 1). split; [lia|done].
    + rewrite Hnames. split.
      * intros (k & Hk & ->). exists k. split; [lia|done].
      * intros (k & Hk & ->).
        destruct (decide (k = currAppID mf + 1)) as [->|Hne];
          [tauto|]. exists k. split; [lia|done].
  - intros n f. rewrite Hp, HfS, Hrf. case_decide; [|apply Hlens].
    intros [= <-]. simpl. lia.
Qed.

Lemma make_room_laid mf w av mf1 w1 :
  sound mf w -> laid_out mf w -> currAppID mf < max_int64 ->
  make_room mf w = (None, av, mf1, w1) ->
  laid_out mf1 w1.
Proof.
  intros Hs Hl Hmax. unfold make_room. destruct (_ <=? 0).
  - destruct (rollover mf w) as [[e mf2] w2] eqn:Hr.
    intros [= -> _ <- <-]. by eapply rollover_laid.
  - by intros [= _ <- <-].
Qed.

Lemma write_chunk_laid bs n av mf w offn d w' :
  sound mf w -> laid_out mf w ->
  0 <= n < Z.of_nat (length bs) -> Z.of_nat (length bs) <= max_int64 ->
  (currAppID mf + 1) * fileSize mf <= max_int64 ->
  av = fileSize mf - singleapp.Offset (currApp mf) w -> 0 < av ->
  write_chunk bs n av mf w = (Ret (Ok (offn, d)), w') ->
  laid_out mf w'.
Proof.
  intros Hs [Hnames Hlens] Hn Hlen Hb Hav Hpos Hw.
  pose proof (write_chunk_sound _ _ _ _ _ _ _ _ Hs Hn Hlen Hb Hav Hpos Hw)
    as (_ & _ & Hd & _ & _ & _ & HoffS & _).
  pose proof (write_chunk_offn bs n av mf w offn d w' ltac:(lia) Hlen Hw)
    as (_ & _ & Hwr & Hle).
  destruct Hs as [Hfa Hsz Hid Htail (f & Hrf & Hoff & Hoffmax) Hfiles Hcache
                  Hkeys].
  pose proof (single_CompressionFormat_serves _ _ _ _ Htail) as Hcf.
  unfold write_chunk in Hw. rewrite Hcf in Hw. simpl in Hw.
  rewrite (wrap64_id (Z.of_nat (length bs) - n)) in Hw
    by (unfold in_int64, min_int64, max_int64 in *; lia).
  destruct (_ || _); [discriminate|].
  match type of Hw with
  | context [singleapp.Append ?h ?c w] =>
      destruct (singleapp.Append h c w) as [[[o x]|e] w1] eqn:HA;
      [|discriminate]; set (chunk := c) in *
  end.
  injection Hw as <- Hdd <-.
  apply single_Append_effect in HA
    as (a & f' & Ha & Hcl & Hrf' & _ & Hheap & Hfiles' & Hfa'); [|exact Hcf].
  destruct Htail as (a0 & Ha0 & _ & Hdir & Hname & Hacf).
  rewrite Ha in Ha0. injection Ha0 as <-.
  rewrite Hdir, Hname, Hrf in Hrf'. injection Hrf' as <-.
  assert (Hoffa : singleapp.Offset (currApp mf) w = a_offset a).
  { unfold singleapp.Offset. by rewrite Ha. }
  assert (Hchunk : length chunk = Z.to_nat d).
  { unfold chunk. rewrite Hdd, length_take, length_drop. lia. }
  split.
  - intros n0. rewrite Hfiles'. case_decide as Hdec; [|apply Hnames].
    destruct Hdec as [_ ->]. split; [|eauto]. intros _.
    exists (currAppID mf). split; [lia|done].
  - intros n0 f0. rewrite Hfiles'. case_decide; [|apply Hlens].
    intros [= <-]. simpl. rewrite write_at_length by lia.
    rewrite Hchunk. pose proof (Hlens _ _ Hrf). lia.
Qed.

Lemma append_loop_laid fuel bs off n mf w start n' mf' w' :
  sound mf w -> laid_out mf w -> 0 <= n <= Z.of_nat (length bs) ->
  Z.of_nat (length bs) <= max_int64 ->
  (currAppID mf + (Z.of_nat (length bs) - n) + 2) * fileSize mf
  <= max_int64 ->
  append_loop fuel bs off n mf w = (Ret (start, n', None), mf', w') ->
  laid_out mf' w'.
Proof.
  revert off n mf w.
  induction fuel as [|fuel IH]; intros off n mf w Hs Hl Hn Hlen Hb.
  - simpl. destruct (n <? _) eqn:E; simpl; [discriminate|].
    by intros [= _ _ <- <-].
  - rewrite append_loop_S. destruct (n <? _) eqn:E; simpl negb; cbv iota;
      [|by intros [= _ _ <- <-]].
    apply Z.ltb_lt in E.
    pose proof (sound_size _ _ Hs) as HS. pose proof (sound_id _ _ Hs) as Hid.
    destruct (make_room mf w) as [[[e av] mf1] w1] eqn:Hm.
    destruct e; [discriminate|].
    pose proof Hm as Hm'.
    apply make_room_laid in Hm'; auto; [|nia].
    apply make_room_sound in Hm
      as (Hs1 & Hav & Havq & Hpos1 & Hid1 & Hcfg1 & Hst1); auto; [|nia].
    pose proof Hcfg1 as (_ & _ & _ & _ & HfS & _).
    destruct (write_chunk bs n av mf1 w1) as [[[[offn d]|e]| |] w2] eqn:Hw;
      try discriminate.
    assert (Hb1 : (currAppID mf1 + 1) * fileSize mf1 <= max_int64)
      by (rewrite HfS; nia).
    pose proof Hw as Hw'.
    apply write_chunk_laid in Hw'; auto; try lia.
    apply write_chunk_sound in Hw
      as (Hs2 & Hoffn & Hd & Hle & Hwr & Hoff2 & HoffS & Hnew & Hold);
      auto; try lia.
    rewrite Hwr. lazy zeta. intros HL.
    apply IH in HL; auto; try lia. rewrite HfS. nia.
Qed.

(** *** Reading a whole buffer back *)

Lemma Get_as_Put k v c :
  cache.find k (cache.entries c) = Some v ->
  snd (cache.Get k c) = snd (cache.Put k v c)
  /\ fst (cache.Get k c) = Ok v.
Proof. intros Hf. unfold cache.Get, cache.Put. by rewrite Hf. Qed.

(** In a sound store whose tail handle is not in the cache, resolving the
    handle of an existing segment leaves the store sound, with the tail
    as it was. *)
Lemma appendableFor_steady off mf w k f :
  sound mf w -> closed mf = false -> (currApp mf ∉ cache_handles mf) ->
  appendableID off (fileSize mf) = Some k -> 0 <= k <= max_int64 ->
  read_file w (path mf) (appendableName k (fileExt mf)) = Some f ->
  exists app mf' w',
    appendableFor off mf w = (Ret (Ok app), mf', w')
    /\ serves mf' w' k app /\ sound mf' w'
    /\ closed mf' = false /\ (currApp mf' ∉ cache_handles mf')
    /\ (forall d n, read_file w' d n = read_file w d n)
    /\ same_config mf mf' /\ currAppID mf' = currAppID mf.
Proof.
  intros Hs Hcl Hout Hid Hk Hrf.
  destruct Hs as [Hfa Hsz Hid0 Htail Htoff Hfiles Hcache Hkeys].
  unfold appendableFor. rewrite Hcl, Hid.
  destruct (cache.find k (cache.entries (appendables mf))) as [v|] eqn:Hf.
  - destruct (Get_as_Put k v _ Hf) as [Hc Hv].
    destruct (cache.Get k (appendables mf)) as [r c]. simpl in Hc, Hv.
    subst r. destruct (cache.Put k v (appendables mf)) as [[ej err] c']
      eqn:HPut. simpl in Hc. subst c'.
    pose proof (Put_spec _ _ _ _ _ _ HPut) as (_ & _ & _ & Hsub & _).
    pose proof (Put_keys_NoDup _ _ _ _ _ HPut Hkeys) as Hkeys'.
    assert (Hold : forall e, e ∈ cache.entries c ->
                     e ∈ cache.entries (appendables mf)).
    { intros e He. apply Hsub in He as [->|He]; [|exact He].
      by apply find_Some_elem. }
    eexists _, _, _. split; [reflexivity|].
    split_and!; auto; try (repeat split; fail).
    + apply (Hcache k v). by apply find_Some_elem.
    + constructor; auto. intros k0 v0 Hin. apply Hcache. by apply Hold.
    + intros Hin. apply Hout. unfold cache_handles in *. simpl in Hin.
      apply list_elem_of_fmap in Hin as (e & -> & He).
      apply list_elem_of_fmap. exists e. split; [done|by apply Hold].
  - unfold cache.Get. rewrite Hf.
    rewrite decide_True by reflexivity. simpl negb. cbv iota.
    assert (Hmf : set_appendables (appendables mf) mf = mf) by (by destruct mf).
    rewrite Hmf. unfold openAppendable.
    match goal with
    | |- context [singleapp.Open ?d ?n ?o w] =>
        assert (HO : exists h w1, singleapp.Open d n o w = (Ok h, w1))
    end.
    { unfold singleapp.Open. rewrite (fault_free w Hfa).
      unfold read_file in Hrf.
      destruct (fs w !! path mf) as [[es|f0]|]; try discriminate.
      rewrite Hrf. eauto. }
    destruct HO as (h & w1 & HO). rewrite HO.
    apply single_Open_effect in HO
      as (-> & a & Hheap & Hd & Hn & Hacl & Hfa1 & Hcase).
    rewrite Hrf in Hcase. destruct Hcase as (Hacf & _ & Hrf1).
    destruct (cache.Put k (length (heap w)) (appendables mf))
      as [[ej err] c'] eqn:HPut.
    pose proof (Put_keys_NoDup _ _ _ _ _ HPut Hkeys) as Hkeys'.
    pose proof (Put_spec _ _ _ _ _ _ HPut)
      as (-> & _ & Hfind & Hsub & Hej & _).
    assert (Hold1 : forall v, (v < length (heap w))%nat ->
                      heap w1 !! v = heap w !! v).
    { intros v Hv. rewrite Hheap. by apply lookup_app_l. }
    assert (Hne : forall e, ej = Some e ->
              e ∈ cache.entries (appendables mf)
              /\ snd e <> length (heap w)
              /\ flags w1 !! snd e = Some false).
    { intros [k0 v0] He. destruct (Hej _ He) as (_ & rest & Hold & _).
      assert (Hin0 : (k0, v0) ∈ cache.entries (appendables mf))
        by (rewrite Hold; left).
      assert (Hsv : serves mf w k0 v0) by (by apply Hcache).
      pose proof (serves_lt _ _ _ _ Hsv). simpl. split_and!; [done|lia|].
      apply serves_flag in Hsv. unfold flags in *.
      rewrite Hheap, map_app. by apply lookup_app_l_Some. }
    assert (Hce : exists w2, close_ejected ej w1 = (None, w2)).
    { destruct ej as [[k0 v0]|]; simpl; [|eauto].
      apply single_Close_succeeds; [auto|]. by apply (Hne (k0, v0)). }
    destruct Hce as (w2 & Hce). rewrite Hce.
    apply close_ejected_effect in Hce as (Hfs2 & Hfa2 & _ & Hheap2).
    assert (Hrf2 : forall d n, read_file w2 d n = read_file w d n).
    { intros d n. rewrite (read_file_fs _ _ _ _ Hfs2). apply Hrf1. }
    assert (Hnew : serves mf w1 k (length (heap w))).
    { exists a. split_and!; auto.
      - rewrite Hheap, lookup_app_r, Nat.sub_diag by lia. reflexivity.
      - rewrite Hacf. by eapply Hfiles. }
    assert (F1 : forall k1 v1, (k1, v1) ∈ cache.entries c' ->
                   0 <= k1 <= max_int64 /\ serves mf w1 k1 v1).
    { intros k1 v1 Hin. apply Hsub in Hin as [[= -> ->]|Hin]; [by split|].
      destruct (Hcache _ _ Hin) as [Hk1 Hsv]. split; [exact Hk1|].
      eapply serves_transfer; eauto.
      rewrite Hold1; [done|]. by apply serves_lt in Hsv. }
    assert (F2 : forall k1 v1 e, (k1, v1) ∈ cache.entries c' ->
                   ej = Some e -> v1 <> snd e).
    { intros k1 v1 [k0 v0] Hin -> Heq. simpl in Heq. subst v0.
      destruct (Hej _ eq_refl) as (Hf0 & rest & Hold & Hnewc).
      assert (Hk0 : 0 <= k0 <= max_int64 /\ serves mf w1 k0 v1).
      { destruct (Hcache k0 v1) as [Hk0 Hsv]; [rewrite Hold; left|].
        split; [exact Hk0|]. eapply serves_transfer; eauto.
        rewrite Hold1; [done|]. by apply serves_lt in Hsv. }
      destruct (F1 _ _ Hin) as [Hk1 Hsv].
      assert (k1 = k0) as -> by (eapply serves_inj; eauto; tauto).
      rewrite Hnewc in Hin. apply elem_of_app in Hin as [Hin|Hin].
      - unfold cache_keys in Hkeys. rewrite Hold in Hkeys. simpl in Hkeys.
        apply NoDup_cons in Hkeys as [Hnin _]. apply Hnin.
        apply list_elem_of_fmap. by exists (k0, v1).
      - apply list_elem_of_singleton in Hin. injection Hin as -> _.
        apply find_None_key in Hf0. apply Hf0. rewrite Hold. simpl. left. }
    assert (Htl : heap w2 !! currApp mf = heap w !! currApp mf).
    { rewrite Hheap2.
      - apply Hold1. by apply serves_lt in Htail.
      - intros e He Heq. destruct (Hne e He) as (Hin & _). apply Hout.
        unfold cache_handles. apply list_elem_of_fmap. by exists e. }
    eexists _, _, _. split; [reflexivity|].
    split_and!; auto; try (repeat split; fail).
    + destruct (F1 k (length (heap w))) as [_ Hsv];
        [by apply find_Some_elem|].
      eapply serves_transfer; eauto. rewrite Hheap2; [done|].
      intros e He. symmetry. by apply (Hne e He).
    + constructor; simpl; auto.
      * eapply serves_transfer; eauto. by rewrite Htl.
      * destruct Htoff as (f0 & Hf0 & Hoff0). exists f0.
        rewrite Hrf2. unfold singleapp.Offset in *. by rewrite Htl.
      * intros n f0. rewrite Hrf2. apply Hfiles.
      * intros k1 v1 Hin. destruct (F1 _ _ Hin) as [Hk1 Hsv].
        split; [exact Hk1|]. eapply serves_transfer; eauto.
        rewrite Hheap2; [done|]. intros e He. eapply F2; eauto.
    + simpl. unfold cache_handles. simpl. intros Hin.
      apply list_elem_of_fmap in Hin as ([k1 v1] & Heq & He).
      simpl in Heq. apply Hsub in He as [[= -> ->]|He].
      * apply serves_lt in Htail. lia.
      * apply Hout. unfold cache_handles. apply list_elem_of_fmap.
        exists (k1, v1). by split.
Qed.

Lemma take_extend {A} (e acc out : list A) :
  acc = take (length acc) e ->
  (forall i, (i < length out)%nat -> out !! i = e !! (length acc + i)%nat) ->
  acc ++ out = take (length (acc ++ out)) e.
Proof.
  intros Hacc Hout. apply list_eq. intros i. rewrite length_app.
  destruct (decide (i < length acc)%nat) as [Hlt|Hge].
  - rewrite lookup_app_l by done. rewrite lookup_take_lt by lia.
    rewrite Hacc at 1. by rewrite lookup_take_lt.
  - rewrite lookup_app_r by lia.
    destruct (decide (i < length acc + length out)%nat) as [Hlt|Hge'].
    + rewrite lookup_take_lt by lia. rewrite Hout by lia. f_equal. lia.
    + rewrite lookup_take_ge by lia. apply lookup_ge_None. lia.
Qed.

Lemma single_ReadAt_served mf w k v f x m :
  faults w = [] -> serves mf w k v ->
  read_file w (path mf) (appendableName k (fileExt mf)) = Some f ->
  0 <= x ->
  singleapp.ReadAt v m x w
  = ((take m (drop (Z.to_nat x) (f_data f)),
      if (length (take m (drop (Z.to_nat x) (f_data f))) <? m)%nat
      then Some EOF else None), w).
Proof.
  intros Hfa (a & Ha & Hcl & Hd & Hn & Hcf) Hrf Hx.
  unfold singleapp.ReadAt. rewrite (fault_free w Hfa), Ha, Hcl.
  destruct (x <? 0) eqn:E; [apply Z.ltb_lt in E; lia|].
  rewrite Hd, Hn, Hrf, Hcf. reflexivity.
Qed.

(** The files of the store's directory are not longer than a segment. *)
Definition short_files (mf : MultiFileAppendable) (w : world) : Prop :=
  forall n f, read_file w (path mf) n = Some f ->
    Z.of_nat (length (f_data f)) <= fileSize mf.

Lemma read_loop_whole fuel (expected : list byte) off acc mf w :
  sound mf w -> closed mf = false -> (currApp mf ∉ cache_handles mf) ->
  short_files mf w ->
  0 <= off -> off + Z.of_nat (length expected) <= max_int64 ->
  (forall i, (i < length expected)%nat ->
     stored mf w (off + Z.of_nat i) = expected !! i) ->
  acc = take (length acc) expected ->
  (length acc <= length expected)%nat ->
  (length expected - length acc < fuel)%nat ->
  fst (fst (read_loop fuel (length expected) off acc mf w))
  = Ret (expected, None).
Proof.
  revert acc mf w.
  induction fuel as [|fuel IH];
    intros acc mf w Hs Hcl Hout Hshort Hoff Hmax Hst Hacc Hle Hfuel; [lia|].
  rewrite read_loop_S.
  destruct (length acc <? length expected)%nat eqn:E; simpl negb; cbv iota.
  2: { apply Nat.ltb_ge in E. simpl. rewrite Hacc. f_equal. f_equal.
       apply take_ge. lia. }
  apply Nat.ltb_lt in E. cbv zeta.
  pose proof (sound_size _ _ Hs) as HS.
  set (r := length acc) in *. set (n := length expected) in *.
  rewrite (wrap64_id (off + Z.of_nat r))
    by (unfold in_int64, min_int64, max_int64 in *; lia).
  set (p := off + Z.of_nat r).
  assert (Hp : 0 <= p <= max_int64) by (unfold p; lia).
  pose proof (Z.div_pos p (fileSize mf) ltac:(lia) HS) as Hq0.
  pose proof (Z.mod_pos_bound p (fileSize mf) HS) as Hm.
  pose proof (Z.div_mod p (fileSize mf) ltac:(lia)) as Hdm.
  assert (Hq : p / fileSize mf <= max_int64) by nia.
  (* the byte at [p] is stored: its segment exists *)
  destruct (lookup_lt_is_Some_2 expected r E) as [b Hb].
  pose proof (Hst r E) as Hstp. fold p in Hstp. rewrite Hb in Hstp.
  unfold stored in Hstp.
  destruct (read_file w (path mf) _) as [f|] eqn:Hrf; [|discriminate].
  pose proof (lookup_lt_Some _ _ _ Hstp) as Hxlt.
  pose proof (Hshort _ _ Hrf) as Hflen.
  assert (Hid : appendableID p (fileSize mf) = Some (p / fileSize mf)).
  { unfold appendableID. destruct (_ =? 0) eqn:Ez;
      [apply Z.eqb_eq in Ez; lia|].
    rewrite Z.quot_div_nonneg by lia. f_equal. apply wrap64_id.
    unfold in_int64, min_int64, max_int64 in *. lia. }
  destruct (appendableFor_steady p mf w _ f Hs Hcl Hout Hid
              ltac:(lia) Hrf)
    as (app & mf1 & w1 & HA & Hsv & Hs1 & Hcl1 & Hout1 & Hrf1 & Hcfg & Hid1).
  rewrite HA. pose proof Hcfg as (Hp1 & _ & _ & _ & HfS1 & He1).
  unfold go_rem. rewrite HfS1.
  destruct (fileSize mf =? 0) eqn:Ez; [apply Z.eqb_eq in Ez; lia|].
  rewrite Z.rem_mod_nonneg by lia.
  pose proof (sound_faults _ _ Hs1) as Hfa1.
  assert (Hrf1' : read_file w1 (path mf1)
                    (appendableName (p / fileSize mf) (fileExt mf1))
                  = Some f) by (rewrite Hp1, He1, Hrf1; exact Hrf).
  rewrite (single_ReadAt_served mf1 w1 (p / fileSize mf) app f
             (p mod fileSize mf) (n - r) Hfa1 Hsv Hrf1' ltac:(lia)).
  set (x := Z.to_nat (p mod fileSize mf)) in *.
  set (out := take (n - r) (drop x (f_data f))).
  assert (Houtlen : (0 < length out <= n - r)%nat).
  { unfold out. rewrite length_take, length_drop. lia. }
  assert (Houtlk : forall i, (i < length out)%nat ->
                     out !! i = expected !! (r + i)%nat).
  { intros i Hi. unfold out in *. rewrite length_take, length_drop in Hi.
    rewrite lookup_take_lt by lia. rewrite lookup_drop.
    rewrite <- (Hst (r + i)%nat) by lia. unfold stored.
    replace (off + Z.of_nat (r + i)) with (p + Z.of_nat i) by (unfold p; lia).
    assert (Hseg : (p + Z.of_nat i) / fileSize mf = p / fileSize mf
                   /\ (p + Z.of_nat i) mod fileSize mf
                      = p mod fileSize mf + Z.of_nat i).
    { replace (p + Z.of_nat i)
        with ((p mod fileSize mf + Z.of_nat i)
              + p / fileSize mf * fileSize mf) by lia.
      rewrite Z.div_add, Z.mod_add by lia.
      rewrite Z.div_small, Z.mod_small by lia. lia. }
    destruct Hseg as [-> ->]. rewrite Hrf. f_equal. lia. }
  assert (Hacc' : acc ++ out = take (length (acc ++ out)) expected)
    by (by apply take_extend).
  assert (Hgo : fst (fst (read_loop fuel n off (acc ++ out) mf1 w1))
                = Ret (expected, None)).
  { apply IH; auto.
    - intros n0 f0. rewrite Hp1, HfS1, Hrf1. apply Hshort.
    - intros i Hi. rewrite <- (Hst i Hi). unfold stored.
      by rewrite Hp1, HfS1, He1, Hrf1.
    - rewrite length_app. lia.
    - rewrite length_app. lia. }
  destruct (length out <? n - r)%nat eqn:El.
  - rewrite decide_True by reflexivity.
    assert ((0 <? length out)%nat = true) as ->
      by (apply Nat.ltb_lt; lia).
    exact Hgo.
  - exact Hgo.
Qed.

(** [ReadAt] on a buffer as long as [expected], from [off], when the
    bytes of [expected] are stored from [off] on. *)
Lemma ReadAt_whole (expected : list byte) off mf w :
  sound mf w -> closed mf = false -> (currApp mf ∉ cache_handles mf) ->
  short_files mf w ->
  0 <= off -> off + Z.of_nat (length expected) <= max_int64 ->
  expected <> [] ->
  (forall i, (i < length expected)%nat ->
     stored mf w (off + Z.of_nat i) = expected !! i) ->
  fst (fst (ReadAt (length expected) off mf w)) = Ret (expected, None).
Proof.
  intros Hs Hcl Hout Hshort Hoff Hmax Hne Hst. unfold ReadAt.
  destruct (length expected) as [|m] eqn:Hlen;
    [by destruct expected|].
  rewrite <- Hlen in *. apply read_loop_whole; auto.
  - simpl. lia.
  - simpl. lia.
Qed.

(** A store in good order: consistent, laid out, with one header. *)
Definition good (hdr : blob) (mf : MultiFileAppendable) (w : world)
  : Prop :=
  sound mf w /\ laid_out mf w /\ headed hdr (path mf) (currApp mf) w
  /\ closed mf = false
  /\ Meta.GetInt metaFileSize (Meta.NewMetadata hdr) = (fileSize mf, true).

Lemma Open_good p opts w0 mf w :
  Open p opts w0 = (Ret (Ok mf), w) ->
  faults w0 = [] ->
  fs w0 !! p = None \/ fs w0 !! p = Some (Dir ∅) ->
  Forall (fun a => a_dir a <> p) (heap w0) ->
  multiapp.compressionFormat opts = NoCompression ->
  good (fresh_header opts) mf w
  /\ currAppID mf = 0 /\ path mf = p
  /\ fileExt mf = multiapp.fileExt opts
  /\ fileSize mf = multiapp.fileSize opts.
Proof.
  intros HO Hfa Hempty Hheap Hcf0.
  pose proof (Open_sound _ _ _ _ _ HO Hfa Hempty Hcf0) as Hs.
  pose proof (Open_headed _ _ _ _ _ HO Hempty Hheap) as (Hh & Hp & HfS).
  apply Open_inv in HO
    as (es & w2 & fn & Hv & Hes & Hd2 & Hh2 & _ & Hfa2 & Hlast & Hso & Hc
        & _ & Hpath & _ & _ & _ & Hext & Hcl).
  assert (es = ∅) as ->.
  { destruct Hes as [Hes|(_ & -> & _)]; [|reflexivity].
    destruct Hempty; congruence. }
  rewrite sorted_names_empty in Hlast. destruct Hlast as [-> Hid].
  apply single_Open_effect in Hso as (_ & a & _ & _ & _ & _ & _ & Hcase).
  assert (Hnone : forall n, read_file w2 p n = None).
  { intros n. unfold read_file. by rewrite Hd2, lookup_empty. }
  rewrite Hnone in Hcase. destruct Hcase as (_ & _ & Hrf).
  split_and!; auto. unfold good. rewrite Hp. split_and!; auto.
  - split.
    + intros n. rewrite Hpath, Hext, Hid, Hrf. case_decide as Hdec.
      * destruct Hdec as [_ ->]. split; [|eauto]. intros _.
        exists 0. split; [lia|done].
      * rewrite Hnone. split; [intros [? ?]; discriminate|].
        intros (k & Hk & ->). assert (k = 0) as -> by lia. tauto.
    + intros n f. rewrite Hpath, Hrf. case_decide; [|by rewrite Hnone].
      intros [= <-]. simpl. pose proof (sound_size _ _ Hs). lia.
  - by rewrite HfS.
Qed.

Lemma Append_good hdr bs mf w start n mf' w' :
  good hdr mf w ->
  (currAppID mf + Z.of_nat (length bs) + 2) * fileSize mf <= max_int64 ->
  Append bs mf w = (Ret (start, n, None), mf', w') ->
  good hdr mf' w'.
Proof.
  intros (Hs & Hl & Hh & Hcl & Hhdr) Hb HA.
  pose proof (Append_effect _ _ _ _ _ _ _ Hs Hb HA)
    as (Hs' & Hcfg & Hcl' & _).
  pose proof Hcfg as (_ & _ & _ & _ & HfS & _).
  assert (Hst : step (OpAppend bs) (mf, w) = Some (mf', w')).
  { unfold step. by rewrite HA. }
  apply (step_headed hdr) in Hst as [Hh' _]; [|exact Hh].
  unfold good. split_and!; auto; [|by rewrite HfS].
  pose proof (sound_size _ _ Hs) as HS. pose proof (sound_id _ _ Hs) as Hid.
  unfold Append in HA. rewrite Hcl in HA.
  destruct (readOnly mf); [discriminate|].
  destruct bs as [|b0 bs0] eqn:Hbs; [discriminate|]. rewrite <- Hbs in *.
  assert (Hlen : Z.of_nat (length bs) <= max_int64) by nia.
  apply (append_loop_laid (S (length bs)) bs 0 0 mf w start n mf' w');
    auto; lia.
Qed.

Lemma good_plain hdr mf w : good hdr mf w -> plain_segments mf w.
Proof.
  intros (Hs & _ & [[Hu _] _] & _ & Hhdr) n f Hf.
  split; [|by eapply (sound_files _ _ Hs)].
  by rewrite (Hu _ _ Hf).
Qed.

(** X18: what has been appended is read back after reopening.  A store is
    created in an absent or empty directory, without compression, with an
    extension that has no dot; [bs1] and then [bs2] are appended.  When
    the directory is opened again (by any later [Open], with any valid
    options naming the same extension, on the same files), the store that
    [Open] returns has the tail id and the segment size of the one that
    wrote, and [ReadAt] returns [bs1] and [bs2], whole, at the offsets
    that the two [Append] calls returned.  The tail id must have
    stayed below 10^8: names of 8 digits sort as their ids do. *)
Theorem reopen_reads_back (p : string) (opts opts2 : multiapp.Options)
    (w0 w w1 w2 w3 : world) (mf mf1 mf2 : MultiFileAppendable)
    (bs1 bs2 : list byte) (start1 n1 start2 n2 : Z) :
  multiapp.compressionFormat opts = NoCompression ->
  plain_ext (multiapp.fileExt opts) ->
  faults w0 = [] ->
  fs w0 !! p = None \/ fs w0 !! p = Some (Dir ∅) ->
  Forall (fun a => a_dir a <> p) (heap w0) ->
  Open p opts w0 = (Ret (Ok mf), w) ->
  (Z.of_nat (length bs1) + Z.of_nat (length bs2) + 4)
  * multiapp.fileSize opts <= max_int64 ->
  Append bs1 mf w = (Ret (start1, n1, None), mf1, w1) ->
  Append bs2 mf1 w1 = (Ret (start2, n2, None), mf2, w2) ->
  currAppID mf2 < 10 ^ 8 ->
  validOptions opts2 = true ->
  multiapp.fileExt opts2 = multiapp.fileExt opts ->
  fs w3 = fs w2 -> faults w3 = [] ->
  exists mf3 w4,
    Open p opts2 w3 = (Ret (Ok mf3), w4)
    /\ currAppID mf3 = currAppID mf2
    /\ fileSize mf3 = multiapp.fileSize opts
    /\ fst (fst (ReadAt (length bs1) start1 mf3 w4)) = Ret (bs1, None)
    /\ fst (fst (ReadAt (length bs2) start2 mf3 w4)) = Ret (bs2, None).
Proof.
  intros Hcf Hext Hfa Hempty Hheap HO Hb HA1 HA2 HK Hv2 Hext2 Hfs3 Hfa3.
  apply Open_good in HO as (Hg & Hid0 & Hp & He & HfS); auto.
  pose proof Hg as (Hs & _).
  pose proof (sound_size _ _ Hs) as HS.
  pose proof (sound_tail_off _ _ Hs) as (f0 & _ & Hoff0 & _).
  assert (Hb1 : (currAppID mf + Z.of_nat (length bs1) + 2) * fileSize mf
                <= max_int64) by (rewrite Hid0, HfS; nia).
  pose proof (Append_good _ _ _ _ _ _ _ _ Hg Hb1 HA1) as Hg1.
  pose proof Hg1 as (Hs1 & _).
  apply Append_effect in HA1
    as (_ & Hcfg1 & _ & -> & Hpos1 & Hst1 & Hnew1 & _ & Hend1 & Hoff1);
    auto.
  pose proof Hcfg1 as (Hp1 & _ & _ & _ & HfS1 & He1).
  pose proof (sound_id _ _ Hs1) as Hid1.
  assert (Hwp : 0 <= start1 <= fileSize mf).
  { rewrite Hst1. unfold write_position. rewrite Hid0.
    destruct (_ <=? 0) eqn:E; [apply Z.leb_le in E|apply Z.leb_gt in E];
      lia. }
  assert (Hid1' : currAppID mf1 <= Z.of_nat (length bs1)) by nia.
  assert (Hwp1 : write_position mf1 w1 = start1 + Z.of_nat (length bs1)).
  { unfold write_position. rewrite HfS1.
    destruct (_ <=? 0) eqn:E; [apply Z.leb_le in E|apply Z.leb_gt in E];
      nia. }
  assert (Hb2 : (currAppID mf1 + Z.of_nat (length bs2) + 2) * fileSize mf1
                <= max_int64) by (rewrite HfS1, HfS; nia).
  pose proof (Append_good _ _ _ _ _ _ _ _ Hg1 Hb2 HA2) as Hg2.
  pose proof Hg2 as (Hs2 & Hl2 & _).
  apply Append_effect in HA2
    as (_ & Hcfg2 & _ & -> & Hpos2 & Hst2 & Hnew2 & Hold2 & _); auto.
  pose proof Hcfg2 as (Hp2 & _ & _ & _ & HfS2 & He2).
  pose proof (sound_id _ _ Hs2) as Hid2.
  rewrite Hwp1 in Hst2.
  assert (Hplain : plain_segments mf2 w2) by (by eapply good_plain).
  assert (HfSb : 0 < fileSize mf2 <= max_int64)
    by (rewrite HfS2, HfS1, HfS; nia).
  assert (HKb : 0 <= currAppID mf2 < 10 ^ 8) by lia.
  assert (Hpe : plain_ext (fileExt mf2))
    by (unfold plain_ext; by rewrite He2, He1, He).
  assert (Hoe : multiapp.fileExt opts2 = fileExt mf2) by congruence.
  destruct (reopen_sound mf2 w2 opts2 w3 Hl2 Hplain HfSb HKb Hpe Hv2 Hoe
              Hfs3 Hfa3)
    as (mf3 & w4 & f & HO3 & Hs3 & Hcl3 & Hid3 & HfS3 & Hp3 & He3 & Hk3 & Hfs4
        & _).
  assert (Hstored : forall x, stored mf3 w4 x = stored mf2 w2 x).
  { intros x. unfold stored. rewrite Hp3, HfS3, He3.
    by rewrite (read_file_fs w2 w4). }
  exists mf3, w4. rewrite Hp2, Hp1, Hp in HO3.
  assert (Hout3 : currApp mf3 ∉ cache_handles mf3).
  { unfold cache_keys in Hk3. unfold cache_handles.
    apply fmap_nil_inv in Hk3. rewrite Hk3. apply not_elem_of_nil. }
  assert (Hshort3 : short_files mf3 w4).
  { intros n0 f1. rewrite Hp3, HfS3, (read_file_fs w2 w4) by done.
    apply Hl2. }
  split_and!; auto; [congruence| |].
  - apply ReadAt_whole; auto; [lia|rewrite HfS in *; nia| |].
    + intros ->. simpl in Hpos1. lia.
    + intros i Hi. rewrite Hstored, Hold2 by lia.
      rewrite Hnew1 by lia. by rewrite Nat2Z.id.
  - apply ReadAt_whole; auto; [lia|rewrite HfS in *; nia| |].
    + intros ->. simpl in Hpos2. lia.
    + intros i Hi. rewrite Hstored, Hnew2 by lia. by rewrite Nat2Z.id.
Qed.

(** What [Open] on a fresh directory and two successful [Append] calls
    leave behind. *)
Lemma two_appends p opts w0 mf w bs1 bs2 start1 n1 start2 n2 mf1 mf2 w1 w2 :
  multiapp.compressionFormat opts = NoCompression ->
  faults w0 = [] ->
  fs w0 !! p = None \/ fs w0 !! p = Some (Dir ∅) ->
  heap w0 = [] ->
  Open p opts w0 = (Ret (Ok mf), w) ->
  (Z.of_nat (length bs1) + Z.of_nat (length bs2) + 4)
  * multiapp.fileSize opts <= max_int64 ->
  Append bs1 mf w = (Ret (start1, n1, None), mf1, w1) ->
  Append bs2 mf1 w1 = (Ret (start2, n2, None), mf2, w2) ->
  good (fresh_header opts) mf2 w2
  /\ (currApp mf2 ∉ cache_handles mf2)
  /\ path mf2 = p /\ fileExt mf2 = multiapp.fileExt opts
  /\ fileSize mf2 = multiapp.fileSize opts
  /\ 0 <= start1 <= multiapp.fileSize opts
  /\ start2 = start1 + Z.of_nat (length bs1)
  /\ bs1 <> [] /\ bs2 <> []
  /\ (forall i, (i < length (bs1 ++ bs2))%nat ->
        stored mf2 w2 (start1 + Z.of_nat i) = (bs1 ++ bs2) !! i)
  /\ (exists o, 0 < o <= multiapp.fileSize opts
        /\ currAppID mf2 * multiapp.fileSize opts + o
           = start2 + Z.of_nat (length bs2)).
Proof.
  intros Hcf Hfa Hempty Hheap HO Hb HA1 HA2.
  assert (Hdirs : Forall (fun a => a_dir a <> p) (heap w0))
    by (rewrite Hheap; constructor).
  assert (Hoc : open_count (heap w0) = 0%nat) by (by rewrite Hheap).
  pose proof (Open_tidy _ _ _ _ _ HO Hfa Hoc) as (Ht & _).
  apply Open_good in HO as (Hg & Hid0 & Hp & He & HfS); auto.
  pose proof Hg as (Hs & _).
  pose proof (sound_size _ _ Hs) as HS.
  pose proof (sound_tail_off _ _ Hs) as (f0 & _ & Hoff0 & _).
  assert (Hb1 : (currAppID mf + Z.of_nat (length bs1) + 2) * fileSize mf
                <= max_int64) by (rewrite Hid0, HfS; nia).
  pose proof (Append_good _ _ _ _ _ _ _ _ Hg Hb1 HA1) as Hg1.
  pose proof Hg1 as (Hs1 & _).
  pose proof HA1 as HA1'. pose proof HA2 as HA2'.
  apply Append_effect in HA1
    as (_ & Hcfg1 & _ & -> & Hpos1 & Hst1 & Hnew1 & _ & Hend1 & Hoff1);
    auto.
  pose proof Hcfg1 as (Hp1 & _ & _ & _ & HfS1 & He1).
  pose proof (sound_id _ _ Hs1) as Hid1.
  assert (Hwp : 0 <= start1 <= fileSize mf).
  { rewrite Hst1. unfold write_position. rewrite Hid0.
    destruct (_ <=? 0) eqn:E; [apply Z.leb_le in E|apply Z.leb_gt in E];
      lia. }
  assert (Hid1' : currAppID mf1 <= Z.of_nat (length bs1)) by nia.
  assert (Hwp1 : write_position mf1 w1 = start1 + Z.of_nat (length bs1)).
  { unfold write_position. rewrite HfS1.
    destruct (_ <=? 0) eqn:E; [apply Z.leb_le in E|apply Z.leb_gt in E];
      nia. }
  assert (Hb2 : (currAppID mf1 + Z.of_nat (length bs2) + 2) * fileSize mf1
                <= max_int64) by (rewrite HfS1, HfS; nia).
  pose proof (Append_good _ _ _ _ _ _ _ _ Hg1 Hb2 HA2) as Hg2.
  apply Append_effect in HA2
    as (_ & Hcfg2 & _ & -> & Hpos2 & Hst2 & Hnew2 & Hold2 & Hend2 & Hoff2);
    auto.
  pose proof Hcfg2 as (Hp2 & _ & _ & _ & HfS2 & He2).
  rewrite Hwp1 in Hst2.
  (* the tail is not in the cache *)
  assert (Hrun : run [OpAppend bs1; OpAppend bs2] (mf, w) = Some (mf2, w2)).
  { rewrite run_cons. unfold step at 1. rewrite HA1'.
    rewrite run_cons. unfold step at 1. by rewrite HA2'. }
  assert (Hgentle : gentle_run [OpAppend bs1; OpAppend bs2] (mf, w) = true).
  { rewrite gentle_run_cons. unfold step at 1. rewrite HA1'.
    rewrite gentle_run_cons. unfold step at 1. rewrite HA2'.
    cbn [gentle fst gentle_run]. rewrite Hid0, andb_true_r.
    apply andb_true_intro. split; apply Z.ltb_lt; nia. }
  pose proof (run_tidy _ _ _ _ _ Ht Hgentle Hrun) as (Ht2 & _).
  assert (Hne1 : bs1 <> []) by (intros ->; simpl in Hpos1; lia).
  assert (Hne2 : bs2 <> []) by (intros ->; simpl in Hpos2; lia).
  assert (Hall : forall i, (i < length (bs1 ++ bs2))%nat ->
            stored mf2 w2 (start1 + Z.of_nat i) = (bs1 ++ bs2) !! i).
  { intros i Hi. rewrite length_app in Hi.
    destruct (decide (i < length bs1)%nat) as [Hlt|Hge].
    - rewrite lookup_app_l by done. rewrite Hold2 by lia.
      rewrite Hnew1 by lia. by rewrite Nat2Z.id.
    - rewrite lookup_app_r by lia.
      replace (start1 + Z.of_nat i)
        with (start2 + Z.of_nat (i - length bs1)) by lia.
      rewrite Hnew2 by lia. by rewrite Nat2Z.id. }
  assert (Htail : exists o, 0 < o <= multiapp.fileSize opts
            /\ currAppID mf2 * multiapp.fileSize opts + o
               = start2 + Z.of_nat (length bs2)).
  { exists (singleapp.Offset (currApp mf2) w2).
    rewrite HfS1, HfS in Hend2, Hoff2. split; [lia|exact Hend2]. }
  split; [exact Hg2|]. split; [apply (tidy_tail_out _ _ Ht2)|].
  split; [congruence|]. split; [congruence|]. split; [congruence|].
  split; [lia|]. split; [exact Hst2|]. auto.
Qed.

(** X19: [ReadAt] returns what [Append] wrote, whole and across segment
    boundaries.  After [Open] has created a store without compression in
    an absent or empty directory and [bs1], then [bs2], have been
    appended, absent file-system failures, the second buffer starts where
    the first ended, and one [ReadAt] with a buffer of
    [len(bs1) + len(bs2)] bytes at the offset of the first returns
    [bs1 ++ bs2] and no error, however many segments the bytes span. *)
Theorem ReadAt_returns_what_Append_wrote (p : string)
    (opts : multiapp.Options) (w0 w w1 w2 : world)
    (mf mf1 mf2 : MultiFileAppendable) (bs1 bs2 : list byte)
    (start1 n1 start2 n2 : Z) :
  multiapp.compressionFormat opts = NoCompression ->
  faults w0 = [] ->
  fs w0 !! p = None \/ fs w0 !! p = Some (Dir ∅) ->
  heap w0 = [] ->
  Open p opts w0 = (Ret (Ok mf), w) ->
  (Z.of_nat (length bs1) + Z.of_nat (length bs2) + 4)
  * multiapp.fileSize opts <= max_int64 ->
  Append bs1 mf w = (Ret (start1, n1, None), mf1, w1) ->
  Append bs2 mf1 w1 = (Ret (start2, n2, None), mf2, w2) ->
  start2 = start1 + Z.of_nat (length bs1)
  /\ fst (fst (ReadAt (length (bs1 ++ bs2)) start1 mf2 w2))
     = Ret (bs1 ++ bs2, None)
  /\ fst (fst (ReadAt (length bs2) start2 mf2 w2)) = Ret (bs2, None).
Proof.
  intros Hcf Hfa Hempty Hheap HO Hb HA1 HA2.
  destruct (two_appends _ _ _ _ _ _ _ _ _ _ _ _ _ _ _ Hcf Hfa Hempty Hheap
              HO Hb HA1 HA2)
    as (Hg & Hout & Hp & He & HfS & Hst1 & Hst2 & Hne1 & Hne2 & Hstored
        & (o & Ho & Hend)).
  destruct Hg as (Hs & [_ Hlens] & _ & Hcl & _).
  pose proof (sound_size _ _ Hs) as HS.
  split; [exact Hst2|]. split.
  - apply ReadAt_whole; auto; [lia| |by destruct bs1].
    rewrite length_app, Nat2Z.inj_add. rewrite HfS in HS. nia.
  - apply ReadAt_whole; auto; [lia|rewrite HfS in HS; nia|].
    intros i Hi. specialize (Hstored (length bs1 + i)%nat).
    rewrite length_app, lookup_app_r, Nat.add_comm, Nat.add_sub in Hstored
      by lia.
    rewrite <- Hstored by lia. f_equal. lia.
Qed.

(** X20: without compression [Append] fills the segments in order and never
    overruns one.  After [Open] has created a store in an absent or empty
    directory and two buffers have been appended, absent file-system
    failures, the directory holds exactly the segment files numbered from
    0 to the tail id, and none of them is compressed or longer than the
    segment size. *)
Theorem Append_lays_out_segments (p : string) (opts : multiapp.Options)
    (w0 w w1 w2 : world) (mf mf1 mf2 : MultiFileAppendable)
    (bs1 bs2 : list byte) (start1 n1 start2 n2 : Z) :
  multiapp.compressionFormat opts = NoCompression ->
  faults w0 = [] ->
  fs w0 !! p = None \/ fs w0 !! p = Some (Dir ∅) ->
  heap w0 = [] ->
  Open p opts w0 = (Ret (Ok mf), w) ->
  (Z.of_nat (length bs1) + Z.of_nat (length bs2) + 4)
  * multiapp.fileSize opts <= max_int64 ->
  Append bs1 mf w = (Ret (start1, n1, None), mf1, w1) ->
  Append bs2 mf1 w1 = (Ret (start2, n2, None), mf2, w2) ->
  (forall n, is_Some (read_file w2 p n)
             <-> exists k, 0 <= k <= currAppID mf2
                           /\ n = appendableName k (multiapp.fileExt opts))
  /\ (forall n f, read_file w2 p n = Some f ->
        Z.of_nat (length (f_data f)) <= multiapp.fileSize opts
        /\ f_cf f = NoCompression)
  /\ currAppID mf2 * multiapp.fileSize opts
     < start2 + Z.of_nat (length bs2)
     <= (currAppID mf2 + 1) * multiapp.fileSize opts.
Proof.
  intros Hcf Hfa Hempty Hheap HO Hb HA1 HA2.
  destruct (two_appends _ _ _ _ _ _ _ _ _ _ _ _ _ _ _ Hcf Hfa Hempty Hheap
              HO Hb HA1 HA2)
    as (Hg & Hout & Hp & He & HfS & Hst1 & Hst2 & Hne1 & Hne2 & Hstored
        & (o & Ho & Hend)).
  pose proof Hg as (Hs & [Hnames Hlens] & _).
  pose proof (good_plain _ _ _ Hg) as Hplain.
  rewrite Hp, He in Hnames. rewrite Hp, HfS in Hlens.
  split; [exact Hnames|]. split; [|lia].
  intros n f Hf. split; [by eapply Hlens|].
  rewrite <- Hp in Hf. apply Hplain in Hf. tauto.
Qed.

End Further.

(** * Worked examples *)

#[local] Existing Instance stored_codec.

#[global] Instance store_inhabited : Inhabited MultiFileAppendable :=
  populate (Store (cache.MkLRU 0 []) 0 0 "" false false 0 0 "" true).

(** The state after opening the directory [db] in an empty file system,
    with segments of [S] bytes and a cache of [C] handles, and issuing the
    calls [ops]. *)
Definition demo (S C : Z) (ops : list op) : MultiFileAppendable * world :=
  default (inhabitant, empty_world)
          (open_run "db" (example_options S C) empty_world ops).

Definition demo_open (S C : Z) : MultiFileAppendable * world := demo S C [].



(** A file system whose directory [db] holds the given files. *)
Definition dir_world (files : list (string * file)) : world :=
  World {[ "db" := Dir (list_to_map files) ]} [] [] 0.

(** A segment written by a store of segment size [S]. *)
Definition segment_file (S : Z) (data : string) : file :=
  File (Meta.Bytes
          (Meta.Put metaWrappedMeta (bytes_of "meta")
             (Meta.PutInt metaFileSize S (Meta.NewMetadata nil_blob))))
       NoCompression 0 (bytes_of data).

(** A file that no store wrote: its header has no entry. *)
Definition stray_file : file := File nil_blob 0 0 [].



(** C6, counterexample: after a successful [Close], [ReadAt] on an empty
    buffer fails with [ErrIllegalArguments], not with [ErrAlreadyClosed],
    and [Offset] still answers the write offset. *)
Lemma closed_store_ReadAt_empty_buffer :
  match Close (fst (demo 8 2 [OpAppend (bytes_of "abc")]))
              (snd (demo 8 2 [OpAppend (bytes_of "abc")])) with
  | (None, mf', w') =>
      fst (fst (ReadAt 0 0 mf' w')) = Ret ([], Some ErrIllegalArguments)
      /\ Offset mf' w' = 3
  | _ => False
  end.
Proof. vm_compute. split; reflexivity. Qed.

Lemma closed_store_methods_witness :
  let s := demo 8 2 [OpAppend (bytes_of "abc")] in
  let s' := Close (fst s) (snd s) in
  Size (snd (fst s')) (snd s') = (Err ErrAlreadyClosed, snd s').
Proof.
  intros s s'.
  refine (proj1 (proj2 (proj2 (proj2 (proj2
            (closed_store_methods (fst s) (snd (fst s')) (snd s) (snd s')
               (fst (fst s')) _))))) (snd s')).
  vm_compute. reflexivity.
Defined.

(** C7, counterexample: the directory holds [.lock], whose stem is empty
    and does not parse, and a segment; [Open] succeeds, since only the last
    entry in name order is parsed. *)
Lemma Open_ignores_unparsable_entry :
  ParseInt (stem ".lock") = Err ErrSyntax
  /\ match Open "db" (example_options 8 2)
             (dir_world [(".lock", stray_file);
                         ("00000000.aof", segment_file 8 "abc")]) with
     | (Ret (Ok mf), _) => currAppID mf = 0 /\ fileSize mf = 8
     | _ => False
     end.
Proof. vm_compute. repeat split; reflexivity. Qed.

Lemma Open_unparsable_last_entry_witness :
  exists e' w',
    Open "db" (example_options 8 2)
      (dir_world [("00000000.aof", segment_file 8 "abc");
                  ("zz.aof", stray_file)])
    = (Ret (Err e'), w')
    /\ (validOptions (example_options 8 2) = true ->
        faults (dir_world [("00000000.aof", segment_file 8 "abc");
                           ("zz.aof", stray_file)]) = [] ->
        e' = ErrSyntax).
Proof.
  apply (Open_unparsable_last_entry "db" (example_options 8 2) _
           (list_to_map [("00000000.aof", segment_file 8 "abc");
                         ("zz.aof", stray_file)]) "zz.aof" ErrSyntax);
    vm_compute; reflexivity.
Defined.

Lemma reopen_fileSize_from_tail_header_witness :
  let w := dir_world [("00000000.aof", segment_file 8 "abcdefgh");
                      ("00000001.aof", segment_file 8 "ij")] in
  let s := Open "db" (example_options 16 2) w in
  fileSize (fst (demo_open 8 2)) = 8
  /\ fileSize (match fst s with Ret (Ok mf) => mf | _ => inhabitant end) = 8.
Proof.
  intros w s. split; [vm_compute; reflexivity|].
  refine (eq_trans (proj1 (reopen_fileSize_from_tail_header "db"
            (example_options 16 2) w (snd s)
            (list_to_map [("00000000.aof", segment_file 8 "abcdefgh");
                          ("00000001.aof", segment_file 8 "ij")])
            "00000001.aof" (segment_file 8 "ij")
            (match fst s with Ret (Ok mf) => mf | _ => inhabitant end)
            _ _ _ _)) _); vm_compute; reflexivity.
Defined.







(** C9: [Append] of six bytes to an empty store with segments of four
    bytes, where the creation of the second segment fails.  The call
    returns the partial [(0, 4)] with the error, but [currAppID] is already
    1 while the tail is still the handle of [00000000.aof], and [Size]
    reports 8 for a log of 4 bytes. *)
Theorem Append_failed_rollover_state :
  let s := demo 4 1 [OpFaults [false; true]] in
  match Append (bytes_of "AAAAAB") (fst s) (snd s) with
  | (Ret (start, n, Some e), mf', w') =>
      start = 0 /\ n = 4 /\ e = ErrIO
      /\ currAppID mf' = 1
      /\ appendableName (currAppID mf') (fileExt mf') = "00000001.aof"
      /\ a_name <$> (heap w' !! currApp mf') = Some "00000000.aof"
      /\ fst (Size mf' w') = Ok 8
      /\ length <$> (f_data <$> read_file w' "db" "00000000.aof") = Some 4%nat
      /\ read_file w' "db" "00000001.aof" = None
  | _ => False
  end.
Proof. vm_compute. repeat split; reflexivity. Qed.



(** ** Instances of the further properties *)

Lemma appendableName_parsed_back_witness :
  ParseInt (stem (appendableName 7 "aof")) = Ok 7.
Proof.
  apply appendableName_parsed_back;
    [ unfold in_int64, min_int64, max_int64; lia
    | repeat (constructor; [split; discriminate|]); constructor ].
Defined.


(** The options of [example_options], read-only. *)
Definition read_only_options (S C : Z) : multiapp.Options :=
  multiapp.MkOptions true false 493 NoCompression 0 (bytes_of "meta")
                     "aof" S C.

Lemma read_only_store_never_writes_witness :
  let w := dir_world [("00000000.aof", segment_file 4 "AAAA")] in
  let r := Open "db" (read_only_options 4 2) w in
  fs (snd r) = fs w.
Proof.
  intros w r.
  refine (proj1 (read_only_store_never_writes "db" (read_only_options 4 2)
                   w (snd r) (fst r) _ _));
    [ reflexivity | vm_compute; reflexivity ].
Defined.


Lemma Append_advances_Offset_witness :
  let s := demo 8 2 [OpAppend (bytes_of "abcdef")] in
  let r := Append (bytes_of "ghij") (fst s) (snd s) in
  let r2 := Append (bytes_of "kl") (snd (fst r)) (snd r) in
  Offset (snd (fst r)) (snd r) = 6 + Z.of_nat (length (bytes_of "ghij")).
Proof.
  intros s r r2.
  refine (proj1 (Append_advances_Offset (bytes_of "ghij") (bytes_of "kl")
                   (fst s) (snd (fst r)) (snd (fst r2)) (snd s) (snd r)
                   (snd r2) 6 4 10 2 _ _ _ _));
    [ vm_compute; reflexivity | vm_compute; congruence
    | vm_compute; reflexivity | vm_compute; reflexivity ].
Defined.

Lemma Append_keeps_earlier_bytes_witness :
  let s := demo 8 2 [OpAppend (bytes_of "abcdef")] in
  let r := Append (bytes_of "ghij") (fst s) (snd s) in
  fst (fst (ReadAt 1 2 (snd (fst r)) (snd r))) = Ret (bytes_of "c", None).
Proof.
  intros s r.
  refine (proj2 (Append_keeps_earlier_bytes (bytes_of "ghij") (fst s)
                   (snd (fst r)) (snd s) (snd r) 6 4 2 Byte.x63
                   _ _ _ _ _));
    [ vm_compute; reflexivity | vm_compute; congruence
    | vm_compute; reflexivity | lia | vm_compute; reflexivity ].
Defined.


Lemma Copy_onto_own_directory_truncates_witness :
  let s := demo 4 2 [OpAppend (bytes_of "AAAABB")] in
  let r := Copy "db" (fst s) (snd s) in
  read_file (snd r) (path (fst s)) "00000001.aof" = Some created_file.
Proof.
  intros s r.
  refine (Copy_onto_own_directory_truncates (fst s) (snd s) (snd r)
            "00000001.aof" (segment_file 4 "BB") _ _);
    vm_compute; reflexivity.
Defined.

Lemma Open_fresh_directory_witness :
  match Open "db" (example_options 4 2) empty_world with
  | (Ret (Ok mf), w') =>
      Offset mf w' = 0 /\ Metadata mf w' = bytes_of "meta"
  | _ => False
  end.
Proof.
  destruct (Open_fresh_directory "db" (example_options 4 2) empty_world)
    as (mf & w' & -> & _ & _ & _ & _ & _ & _ & _ & Ho & Hm & _);
    [ reflexivity | reflexivity | reflexivity | by left | ].
  split; [exact Ho|exact Hm].
Defined.

Lemma Open_refuses_witness :
  let w := World {[ "db" := Reg stray_file ]} [] [] 0 in
  Open "db" (example_options 4 2) w
  = (Ret (Err ErrorPathIsNotADirectory), w).
Proof.
  intros w.
  refine (proj1 (Open_refuses "db" (example_options 4 2) w _ _)
            stray_file _);
    vm_compute; reflexivity.
Defined.


Lemma Close_releases_every_handle_witness :
  let ops := [OpAppend (bytes_of "AAAABBBBCC"); OpReadAt 2 1; OpFlush] in
  exists w'',
    Close (fst (demo 4 1 ops)) (snd (demo 4 1 ops))
    = (None, set_closed (fst (demo 4 1 ops)), w'')
    /\ open_count (heap w'') = 0%nat
    /\ fs w'' = fs (snd (demo 4 1 ops)).
Proof.
  intros ops.
  refine (Close_releases_every_handle "db" (example_options 4 1)
            empty_world (snd (demo_open 4 1)) (snd (demo 4 1 ops))
            (fst (demo_open 4 1)) (fst (demo 4 1 ops)) ops
            _ _ _ _ _); vm_compute; reflexivity.
Defined.


Lemma SetOffset_then_Append_witness :
  let s := demo 8 2 [OpAppend (bytes_of "abcdef")] in
  let r1 := SetOffset 2 (fst s) (snd s) in
  let r := Append (bytes_of "XY") (snd (fst r1)) (snd r1) in
  fst (fst (ReadAt 1 3 (snd (fst r)) (snd r))) = Ret (bytes_of "Y", None).
Proof.
  intros s r1 r.
  refine (proj1 (proj2 (proj2
            (SetOffset_then_Append 2 (bytes_of "XY") (fst s) (snd (fst r1))
               (snd (fst r)) (snd s) (snd r1) (snd r) 2 2 _ _ _ _ _)))
            1%nat Byte.x59 _);
    [ vm_compute; reflexivity | lia | vm_compute; congruence
    | vm_compute; reflexivity | vm_compute; reflexivity
    | vm_compute; reflexivity ].
Defined.

Lemma Append_returns_count_witness :
  let s := demo 4 2 [] in
  let bs := bytes_of "AAAABB" in
  fst (fst (Append bs (fst s) (snd s))) <> Timeout
  /\ forall start n err mf' w',
       Append bs (fst s) (snd s) = (Ret (start, n, err), mf', w') ->
       0 <= n <= Z.of_nat (length bs)
       /\ (err = None -> n = Z.of_nat (length bs) /\ bs <> [])
       /\ (err <> None -> bs <> [] -> n < Z.of_nat (length bs)).
Proof.
  intros s bs. apply Append_returns_count. vm_compute. congruence.
Defined.

Lemma segments_share_header_witness :
  let ops := [OpAppend (bytes_of "AAAABBBBCC"); OpReadAt 2 20;
              OpSetOffset 2] in
  Metadata (fst (demo 4 2 ops)) (snd (demo 4 2 ops)) = bytes_of "meta".
Proof.
  intros ops.
  refine (proj1 (proj2 (segments_share_header "db" (example_options 4 2)
                          empty_world (snd (demo_open 4 2))
                          (snd (demo 4 2 ops)) (fst (demo_open 4 2))
                          (fst (demo 4 2 ops)) ops _ _ _ _)));
    [ vm_compute; reflexivity | left; reflexivity | constructor
    | vm_compute; reflexivity ].
Defined.

Lemma reopen_reads_back_witness :
  let s0 := demo_open 4 2 in
  let bs1 := bytes_of "AAAABB" in
  let bs2 := bytes_of "CCDDDD" in
  let r1 := Append bs1 (fst s0) (snd s0) in
  let r2 := Append bs2 (snd (fst r1)) (snd r1) in
  let w3 := World (fs (snd r2)) [] [] 0 in
  exists mf3 w4,
    Open "db" (read_only_options 4 2) w3 = (Ret (Ok mf3), w4)
    /\ currAppID mf3 = currAppID (snd (fst r2))
    /\ fileSize mf3 = multiapp.fileSize (example_options 4 2)
    /\ fst (fst (ReadAt (length bs1) 0 mf3 w4)) = Ret (bs1, None)
    /\ fst (fst (ReadAt (length bs2) 6 mf3 w4)) = Ret (bs2, None).
Proof.
  intros s0 bs1 bs2 r1 r2 w3.
  refine (reopen_reads_back "db" (example_options 4 2)
            (read_only_options 4 2) empty_world (snd s0) (snd r1) (snd r2)
            w3 (fst s0) (snd (fst r1)) (snd (fst r2)) bs1 bs2 0 6 6 6
            _ _ _ _ _ _ _ _ _ _ _ _ _ _);
    [ reflexivity
    | vm_compute; repeat (constructor; [split; discriminate|]); constructor
    | reflexivity | left; reflexivity | constructor
    | vm_compute; reflexivity | vm_compute; congruence
    | vm_compute; reflexivity | vm_compute; reflexivity
    | vm_compute; reflexivity | reflexivity | reflexivity
    | vm_compute; reflexivity | reflexivity ].
Defined.

Lemma ReadAt_returns_what_Append_wrote_witness :
  let s0 := demo_open 4 2 in
  let bs1 := bytes_of "AAAABB" in
  let bs2 := bytes_of "CCDDDD" in
  let r1 := Append bs1 (fst s0) (snd s0) in
  let r2 := Append bs2 (snd (fst r1)) (snd r1) in
  fst (fst (ReadAt (length (bs1 ++ bs2)) 0 (snd (fst r2)) (snd r2)))
  = Ret (bs1 ++ bs2, None).
Proof.
  intros s0 bs1 bs2 r1 r2.
  refine (proj1 (proj2 (ReadAt_returns_what_Append_wrote "db"
            (example_options 4 2) empty_world (snd s0) (snd r1) (snd r2)
            (fst s0) (snd (fst r1)) (snd (fst r2)) bs1 bs2 0 6 6 6
            _ _ _ _ _ _ _ _)));
    [ reflexivity | reflexivity | left; reflexivity | reflexivity
    | vm_compute; reflexivity | vm_compute; congruence
    | vm_compute; reflexivity | vm_compute; reflexivity ].
Defined.

Lemma Append_lays_out_segments_witness :
  let s0 := demo_open 4 2 in
  let bs1 := bytes_of "AAAABB" in
  let bs2 := bytes_of "CCDDDD" in
  let r1 := Append bs1 (fst s0) (snd s0) in
  let r2 := Append bs2 (snd (fst r1)) (snd r1) in
  currAppID (snd (fst r2)) * multiapp.fileSize (example_options 4 2)
  < 6 + Z.of_nat (length bs2)
  <= (currAppID (snd (fst r2)) + 1) * multiapp.fileSize (example_options 4 2).
Proof.
  intros s0 bs1 bs2 r1 r2.
  refine (proj2 (proj2 (Append_lays_out_segments "db"
            (example_options 4 2) empty_world (snd s0) (snd r1) (snd r2)
            (fst s0) (snd (fst r1)) (snd (fst r2)) bs1 bs2 0 6 6 6
            _ _ _ _ _ _ _ _)));
    [ reflexivity | reflexivity | left; reflexivity | reflexivity
    | vm_compute; reflexivity | vm_compute; congruence
    | vm_compute; reflexivity | vm_compute; reflexivity ].
Defined.
